(** * Update rules of [lasagne/updates.py]

    The Python module builds Theano update dictionaries: every rule takes
    a loss (or gradients) and shared variables and returns an ordered
    dictionary from shared variables to symbolic expressions for their
    next values.

    Expressions.  A symbolic expression is embedded as the function it
    denotes, from the current values of the shared variables to a tensor
    ([texpr]); every Theano operator the source uses is a combinator of
    module [T].  Arithmetic is the arithmetic of the real numbers: there
    is no rounding and no NaN, and [x / 0], [sqrt] of a negative number
    and the like take the value the real-number library gives them.

    Shared variables.  A shared variable is a cell of the engine,
    identified by the order of allocation; [theano.shared] allocates the
    next cell, so a new variable differs from every existing one.

    Names.  The cells carry no names.  [adam] builds the names of its
    moments from the names of its parameters and raises on a parameter
    without one; the names of the caller's variables are given to it as
    [name_of].  [apply_decay] is modelled for variables that have a
    name, as the learning rate that [lr_decay] creates has.

    Dictionaries.  An [OrderedDict] is an object on a heap and is passed
    by reference ([dref]); [updates[k] = v] mutates the object, and
    [OrderedDict(updates)] makes a new one.

    Graph construction is a computation in the monad [M], which threads
    the cells and the heap and can raise.  Running the compiled function
    once is [apply_updates]. *)

From Stdlib Require Import Reals Lra Lia ZArith List Bool.
From Stdlib Require String.
From stdpp Require Import base list.
Import ListNotations.
Import String.StringSyntax.
Delimit Scope string_scope with string.

(** ** Tensors *)

Record tensor := Tensor { shape : list nat; data : list nat -> R }.

Abbreviation index := (list nat) (only parsing).

Definition scalar (r : R) : tensor := Tensor [] (fun _ => r).

(** [np.zeros(shape)] *)
Definition np_zeros (s : list nat) : tensor := Tensor s (fun _ => 0%R).

#[global] Instance tensor_inhabited : Inhabited tensor := populate (scalar 0%R).

(** Shapes broadcast from the last axis backwards; an axis of extent 1
    takes the extent of the other operand. *)
Definition broadcast_dim (a b : nat) : nat := if Nat.eqb a 1 then b else a.

Fixpoint broadcast_rev (s1 s2 : list nat) : list nat :=
  match s1, s2 with
  | [], s => s
  | s, [] => s
  | a :: s1', b :: s2' => broadcast_dim a b :: broadcast_rev s1' s2'
  end.

Definition broadcast_shape (s1 s2 : list nat) : list nat :=
  rev (broadcast_rev (rev s1) (rev s2)).

(** Elementwise operators act coordinate by coordinate.  A tensor that is
    broadcast along an axis is represented by data that ignores that
    coordinate ([scalar] ignores all of them, a [keepdims] reduction
    ignores the reduced ones). *)
Definition tmap (f : R -> R) (x : tensor) : tensor :=
  Tensor (shape x) (fun i => f (data x i)).

Definition tmap2 (f : R -> R -> R) (x y : tensor) : tensor :=
  Tensor (broadcast_shape (shape x) (shape y))
         (fun i => f (data x i) (data y i)).

Definition tmap3 (f : R -> R -> R -> R) (x y z : tensor) : tensor :=
  Tensor (broadcast_shape (shape x) (broadcast_shape (shape y) (shape z)))
         (fun i => f (data x i) (data y i) (data z i)).

Fixpoint sum_upto (n : nat) (f : nat -> R) : R :=
  match n with
  | O => 0%R
  | S k => (sum_upto k f + f k)%R
  end.

(** All entries of a tensor of shape [s], in row-major order. *)
Fixpoint elements (s : list nat) (f : index -> R) : list R :=
  match s with
  | [] => [f []]
  | n :: s' => flat_map (fun i => elements s' (fun idx => f (i :: idx))) (seq 0 n)
  end.

(** Sum over one axis, keeping it with extent 1. *)
Definition sum_axis (k : nat) (x : tensor) : tensor :=
  Tensor (<[k := 1]> (shape x))
         (fun idx => sum_upto (shape x !!! k) (fun i => data x (<[k := i]> idx))).

(** ** Scalar operations of the engine *)

Definition ge_real (a b : R) : R := if Rle_dec b a then 1%R else 0%R.

(** Theano's [clip]: below [lo] gives [lo], above [hi] gives [hi]. *)
Definition clip_real (x lo hi : R) : R :=
  if Rlt_dec x lo then lo else if Rlt_dec hi x then hi else x.

(** [x ** y]: the real power for a positive base, the integer power for
    an integral exponent. *)
Definition pow_real (x y : R) : R :=
  if Rlt_dec 0 x then Rpower x y
  else if Req_dec_T y (IZR (Int_part y)) then powerRZ x (Int_part y)
  else 0%R.

(** [a == b] on Python floats. *)
Definition float_eqb (a b : R) : bool := if Req_dec_T a b then true else false.

Definition to_index (r : R) : nat := Z.to_nat (Int_part r).

Definition mod_real (x y : R) : R := IZR (Int_part x mod Int_part y).

(** ** Symbolic expressions *)

(** The values of all shared variables, by identity. *)
Abbreviation store := (list tensor) (only parsing).

Record texpr := TExpr { ndim : nat; value : store -> tensor }.

(** The value of expression [e] at coordinate [i] in store [st]. *)
Definition at_ (e : texpr) (st : store) (i : index) : R := data (value e st) i.

(** [theano.tensor as T] and the arithmetic operators of Theano variables. *)
Module T.

Definition constant (r : R) : texpr := TExpr 0 (fun _ => scalar r).

Definition elemwise1 (f : R -> R) (x : texpr) : texpr :=
  TExpr (ndim x) (fun st => tmap f (value x st)).

Definition elemwise2 (f : R -> R -> R) (x y : texpr) : texpr :=
  TExpr (Nat.max (ndim x) (ndim y))
        (fun st => tmap2 f (value x st) (value y st)).

Definition elemwise3 (f : R -> R -> R -> R) (x y z : texpr) : texpr :=
  TExpr (Nat.max (ndim x) (Nat.max (ndim y) (ndim z)))
        (fun st => tmap3 f (value x st) (value y st) (value z st)).

Definition add := elemwise2 Rplus.
Definition sub := elemwise2 Rminus.
Definition mul := elemwise2 Rmult.
Definition true_div := elemwise2 Rdiv.
Definition power := elemwise2 pow_real.
Definition sqrt := elemwise1 R_sqrt.sqrt.
Definition sqr := elemwise1 (fun x => (x * x)%R).
Definition abs_ := elemwise1 Rabs.
Definition inv := elemwise1 Rinv.
Definition maximum := elemwise2 Rmax.
Definition minimum := elemwise2 Rmin.
Definition clip := elemwise3 clip_real.
Definition ge := elemwise2 ge_real.
Definition mod_check := elemwise2 mod_real.

(** [T.sum(x)]: the sum of all entries, a scalar. *)
Definition sum (x : texpr) : texpr :=
  TExpr 0 (fun st => let v := value x st in
                     scalar (fold_right Rplus 0%R (elements (shape v) (data v)))).

(** [T.sum(x, axis=axes, keepdims=True)] *)
Definition sum_keepdims (x : texpr) (axes : list nat) : texpr :=
  TExpr (ndim x) (fun st => fold_right sum_axis (value x st) axes).

Definition reduce_all (f : R -> R -> R) (x : texpr) : texpr :=
  TExpr 0 (fun st => let v := value x st in
                     scalar (match elements (shape v) (data v) with
                             | [] => 0%R
                             | a :: l => fold_left f l a
                             end)).

(** [T.max(x)] and [T.min(x)] over all entries. *)
Definition max := reduce_all Rmax.
Definition min := reduce_all Rmin.

(** [x[:n]] for a symbolic scalar [n]: the leading [n] rows. *)
Definition prefix (x n : texpr) : texpr :=
  TExpr (ndim x)
        (fun st => let v := value x st in
                   match shape v with
                   | [] => v
                   | d :: s => Tensor (Nat.min d (to_index (data (value n st) [])) :: s) (data v)
                   end).

(** [T.set_subtensor(x[i], y)] for a symbolic scalar index [i]. *)
Definition set_subtensor (x i y : texpr) : texpr :=
  TExpr (ndim x)
        (fun st => let v := value x st in
                   let k := to_index (data (value i st) []) in
                   Tensor (shape v)
                          (fun idx => match idx with
                                      | [] => data v []
                                      | j :: rest => if Nat.eqb j k then data (value y st) rest
                                                     else data v idx
                                      end)).

(** [T.zeros(shape).eval()] *)
Definition zeros (s : list nat) : tensor := np_zeros s.

End T.

Declare Scope th_scope.
Delimit Scope th_scope with th.
Bind Scope th_scope with texpr.
Infix "+" := T.add : th_scope.
Infix "-" := T.sub : th_scope.
Infix "*" := T.mul : th_scope.
Infix "/" := T.true_div : th_scope.
Notation "x ** y" := (T.power x y) (at level 30, right associativity) : th_scope.

(** A Python number used where an expression is expected. *)
Coercion T.constant : R >-> texpr.

(** [ifelse(cond, then, else)] of [theano.ifelse]: lazy choice on a
    scalar condition, true when it is not zero. *)
Definition ifelse (cond a b : texpr) : texpr :=
  TExpr (ndim a)
        (fun st => if Req_dec_T (data (value cond st) []) 0%R
                   then value b st else value a st).

(** ** Variables *)

(** A shared variable is a mutable cell of the engine: an identity and a
    static number of dimensions. *)
Record SharedVariable := Shared { sv_id : nat; sv_ndim : nat }.

(** Anything a caller can pass as a parameter: a shared variable, or some
    other symbolic expression. *)
Inductive variable :=
| OfShared (v : SharedVariable)
| OfExpr (e : texpr).

Definition read (v : SharedVariable) : texpr :=
  TExpr (sv_ndim v) (fun st => st !!! sv_id v).

Definition as_tensor (p : variable) : texpr :=
  match p with
  | OfShared v => read v
  | OfExpr e => e
  end.

Coercion read : SharedVariable >-> texpr.
Coercion as_tensor : variable >-> texpr.

(** [isinstance(p, theano.compile.SharedVariable)] *)
Definition is_SharedVariable (p : variable) : bool :=
  match p with
  | OfShared _ => true
  | OfExpr _ => false
  end.

(** ** Ordered dictionaries *)

(** An [OrderedDict] from shared variables to expressions, in insertion
    order.  Keys are compared by identity. *)
Abbreviation odict := (list (SharedVariable * texpr)) (only parsing).

Definition key_eqb (a b : SharedVariable) : bool := Nat.eqb (sv_id a) (sv_id b).

Fixpoint odict_get (d : odict) (k : SharedVariable) : option texpr :=
  match d with
  | [] => None
  | (k', v) :: d' => if key_eqb k' k then Some v else odict_get d' k
  end.

(** [d[k] = v]: an existing key keeps its place, a new key goes last. *)
Fixpoint odict_set (k : SharedVariable) (v : texpr) (d : odict) : odict :=
  match d with
  | [] => [(k, v)]
  | (k', v') :: d' => if key_eqb k' k then (k', v) :: d'
                      else (k', v') :: odict_set k v d'
  end.

Definition odict_keys (d : odict) : list SharedVariable := map fst d.

(** [OrderedDict(items)] *)
Definition odict_of_items (items : list (SharedVariable * texpr)) : odict :=
  fold_left (fun d kv => odict_set (fst kv) (snd kv) d) items [].

(** [d.update(d')] *)
Definition odict_update (d d' : odict) : odict :=
  fold_left (fun d kv => odict_set (fst kv) (snd kv) d) d' d.

(** ** Graph construction *)

Inductive exn := ValueError | KeyError | AttributeError | TypeError.

(** What building a graph can change: the shared variables that exist
    (with their current values) and the dictionaries that exist. *)
Record engine := Engine { shared_values : store; heap : list odict }.

Definition M (A : Type) : Type := engine -> (exn + A) * engine.

Definition ret {A} (a : A) : M A := fun e => (inr a, e).

Definition raise {A} (x : exn) : M A := fun e => (inl x, e).

Definition bind {A B} (m : M A) (k : A -> M B) : M B :=
  fun e => match m e with
           | (inl x, e') => (inl x, e')
           | (inr a, e') => k a e'
           end.

Notation "'let!' x ':=' c 'in' k" := (bind c (fun x => k))
  (at level 10, x name, c at level 200, k at level 200, only parsing).

(** [for x in xs: body(x)] *)
Fixpoint for_each {A} (xs : list A) (body : A -> M unit) : M unit :=
  match xs with
  | [] => ret tt
  | x :: xs' => let! _ := body x in for_each xs' body
  end.

(** [for x in xs: acc = body(acc, x)] *)
Fixpoint for_fold {A B} (xs : list A) (acc : B) (body : B -> A -> M B) : M B :=
  match xs with
  | [] => ret acc
  | x :: xs' => let! acc' := body acc x in for_fold xs' acc' body
  end.

(** [[f(x) for x in xs]] *)
Fixpoint list_comp {A B} (xs : list A) (f : A -> M B) : M (list B) :=
  match xs with
  | [] => ret []
  | x :: xs' => let! y := f x in let! ys := list_comp xs' f in ret (y :: ys)
  end.

(** [theano.shared(value)]: a new cell holding [value]. *)
Definition theano_shared (v : tensor) : M SharedVariable :=
  fun e => (inr (Shared (length (shared_values e)) (length (shape v))),
            Engine (shared_values e ++ [v]) (heap e)).

(** [prefix + name] for a name that may be [None]: adding [None] to a
    string raises [TypeError]. *)
Definition str_add (prefix : String.string) (name : option String.string)
  : M String.string :=
  match name with
  | Some s => ret (String.append prefix s)
  | None => raise TypeError
  end.

(** [param.get_value()]; only shared variables have it. *)
Definition get_value (p : variable) : M tensor :=
  match p with
  | OfShared v => fun e => (inr (shared_values e !!! sv_id v), e)
  | OfExpr _ => raise AttributeError
  end.

(** A reference to a dictionary object. *)
Definition dref := nat.

Definition deref (e : engine) (r : dref) : odict := heap e !!! r.

(** [OrderedDict(items)]: a new dictionary object. *)
Definition OrderedDict (items : list (SharedVariable * texpr)) : M dref :=
  fun e => (inr (length (heap e)),
            Engine (shared_values e) (heap e ++ [odict_of_items items])).

Definition dict_items (r : dref) : M (list (SharedVariable * texpr)) :=
  fun e => (inr (deref e r), e).

Definition dict_keys (r : dref) : M (list variable) :=
  fun e => (inr (map OfShared (odict_keys (deref e r))), e).

(** [updates[k]]; a key that is missing raises [KeyError]. *)
Definition dict_getitem (r : dref) (k : variable) : M texpr :=
  match k with
  | OfShared v => fun e => match odict_get (deref e r) v with
                           | Some x => (inr x, e)
                           | None => (inl KeyError, e)
                           end
  | OfExpr _ => raise KeyError
  end.

(** [updates.get(k, default)] *)
Definition dict_get (r : dref) (k : SharedVariable) (default : texpr) : M texpr :=
  fun e => (inr (match odict_get (deref e r) k with
                 | Some x => x
                 | None => default
                 end), e).

(** [updates[k] = v] mutates the dictionary object.  The dictionaries of
    this module are update dictionaries, whose keys are shared variables. *)
Definition dict_setitem (r : dref) (k : variable) (v : texpr) : M unit :=
  match k with
  | OfShared s => fun e => (inr tt, Engine (shared_values e)
                                           (alter (odict_set s v) r (heap e)))
  | OfExpr _ => raise TypeError
  end.

(** [d.update(d')] on dictionary objects. *)
Definition dict_update (r r' : dref) : M unit :=
  fun e => (inr tt, Engine (shared_values e)
                           (alter (fun d => odict_update d (deref e r')) r (heap e))).

(** ** Running an update dictionary *)

(** One call of the function compiled by
    [theano.function(..., updates=u)]: every shared variable that is a
    key of [u] takes the value of its expression, all computed from the
    values before the call. *)
Definition apply_updates (u : odict) (st : store) : store :=
  imap (fun c old => match odict_get u (Shared c 0) with
                     | Some e => value e st
                     | None => old
                     end) st.

Fixpoint run (n : nat) (u : odict) (st : store) : store :=
  match n with
  | O => st
  | S k => apply_updates u (run k u st)
  end.

(** ** Helpers of [lasagne.utils] *)

(** A hyperparameter that is a Python float or a Theano variable. *)
Inductive pyval :=
| PyFloat (r : R)
| PyVar (v : variable).

Definition as_expr (x : pyval) : texpr :=
  match x with
  | PyFloat r => T.constant r
  | PyVar v => as_tensor v
  end.

Coercion as_expr : pyval >-> texpr.

(** Modelled from the spec: [utils.th_fx] of lasagne/utils.py, which is
    not among the sources, turns a number or an expression into an
    expression of the engine's float type ("dtype-preserving
    constants"); over the reals it changes nothing. *)
Definition th_fx (x : texpr) : texpr := x.

(** Modelled from the spec: [utils.floatX] of lasagne/utils.py, which is
    not among the sources, converts a number to an array of the engine's
    float type; a symbolic variable is not a number. *)
Definition floatX (x : pyval) : M tensor :=
  match x with
  | PyFloat r => ret (scalar r)
  | PyVar _ => raise TypeError
  end.

(** Modelled from the spec: [utils.theano_print_values] of
    lasagne/utils.py, which is not among the sources, is a diagnostic
    print hook ("non-functional"): the value passes through. *)
Definition theano_print_values (x : texpr) : texpr := x.

(** [sum(gen)] of Python: starts from 0 and adds from the left. *)
Definition py_sum (xs : list texpr) : texpr :=
  fold_left T.add xs (T.constant 0%R).

(** What a rule is given: a list of gradient expressions, or a scalar
    loss expression. *)
Inductive loss_or_grads :=
| Grads (gs : list texpr)
| Loss (l : texpr).

(** ** Decay *)

Definition apply_decay (updates : dref) (params : list variable)
           (period : Z) (factor : R) : M dref :=
  if (period <=? 0)%Z then ret updates
  else
    let! _ := for_each params (fun p =>
      let! count := theano_shared (scalar 1%R) in
      let one := T.constant 1%R in
      let cond := T.ge count (IZR period) in
      let! _ := dict_setitem updates (OfShared count)
                             (ifelse cond one (count + one)%th) in
      dict_setitem updates p (ifelse cond (p * factor)%th p)) in
    ret updates.

Definition rule (Args : Type) : Type :=
  loss_or_grads -> list variable -> pyval -> Args -> M dref.

Definition lr_decay {Args} (updates_fn : rule Args)
           (lg : loss_or_grads) (params : list variable) (learning_rate : pyval)
           (args : Args) (decay_period : Z) (decay_factor : R) : M dref :=
  if (decay_period <=? 0)%Z || float_eqb decay_factor 1%R
  then updates_fn lg params learning_rate args
  else
    let! lr0 := floatX learning_rate in
    let! learning_rate := theano_shared lr0 in
    let! updates := updates_fn lg params (PyVar (OfShared learning_rate)) args in
    let! updates := apply_decay updates [OfShared learning_rate]
                                decay_period decay_factor in
    ret updates.

(** The defaults [decay_period=0, decay_factor=0.5] of the wrapper. *)
Definition default_decay_period : Z := 0.
Definition default_decay_factor : R := 0.5%R.

(** ** Exponential moving average *)

Definition exponential_moving_average (alpha s_t x_t : texpr)
           (t : option texpr) (init_period : option Z) : texpr :=
  let alpha := th_fx alpha in
  let factor := T.constant 1%R in
  let '(alpha, factor) :=
    match t, init_period with
    | Some t, Some ip =>
        if (0 <? ip)%Z then
          let p := th_fx (IZR ip) in
          let t := th_fx t in
          ((alpha * T.minimum 1%R ((p - 1%R) * t / T.sqr p + T.inv p))%th, factor)
        else (alpha, (1%R - alpha ** th_fx (t + 1%R))%th)
    | Some t, None => (alpha, (1%R - alpha ** th_fx (t + 1%R))%th)
    | None, _ => (alpha, factor)
    end in
  ((alpha * s_t + (1%R - alpha) * x_t) / factor)%th.

Definition ema := exponential_moving_average.

(** ** Norm constraint *)

Definition norm_constraint (tensor_var : texpr) (max_norm : R)
           (norm_axes : option (list nat)) (epsilon : R) : exn + texpr :=
  let ndim := ndim tensor_var in
  let sum_over :=
    match norm_axes with
    | Some axes => inr axes
    | None =>
        if Nat.eqb ndim 2 then inr [0]
        else if existsb (Nat.eqb ndim) [3; 4; 5] then inr (seq 1 (ndim - 1))
        else inl ValueError
    end in
  match sum_over with
  | inl x => inl x
  | inr sum_over =>
      let norms := T.sqrt (T.sum_keepdims (T.sqr tensor_var) sum_over) in
      let target_norms := T.clip norms 0%R max_norm in
      let constrained_output :=
        (tensor_var * (target_norms / (epsilon + norms)))%th in
      inr constrained_output
  end.

(** [total_norm_constraint]; the norm is returned as well when
    [return_norm] is set. *)
Definition total_norm_constraint (tensor_vars : list texpr) (max_norm : R)
           (target_vars : option (list texpr)) (return_norm : bool)
  : list texpr * option texpr :=
  let '(norm, multiplier) :=
    match target_vars with
    | None =>
        let norm := T.sqrt (py_sum (map (fun tensor => T.sum (tensor ** 2%R)%th)
                                        tensor_vars)) in
        (norm, T.minimum (T.constant 1%R) (max_norm / norm)%th)
    | Some target_vars =>
        let norm := T.sqrt (py_sum (map (fun tt => T.sum (fst tt * snd tt)%th)
                                        (zip tensor_vars target_vars))) in
        (norm, T.minimum (T.constant 1%R) (T.sqr (max_norm / norm)%th))
    end in
  let tensor_vars_scaled := map (fun step => (step * multiplier)%th) tensor_vars in
  if return_norm then (tensor_vars_scaled, Some norm)
  else (tensor_vars_scaled, None).

(** ** Burnout *)

(** [ifelse(cond, then_list, else_list)]: one choice for each pair. *)
Definition ifelse_list (cond : texpr) (xs ys : list texpr) : list texpr :=
  zip_with (ifelse cond) xs ys.

Definition apply_burnout (long_updates initial_updates : dref) (burnout : Z)
  : M dref :=
  if (0 <? burnout)%Z then
    let! t := theano_shared (scalar 0%R) in
    let cond := T.ge t (IZR burnout) in
    let! long_items := dict_items long_updates in
    let! initial_values :=
      list_comp long_items (fun kv => dict_get initial_updates (fst kv) (fst kv)) in
    let long_values := map snd long_items in
    let values := ifelse_list cond long_values initial_values in
    let! updates :=
      OrderedDict (map (fun kv_v => (fst (fst kv_v), snd kv_v))
                       (zip long_items values)) in
    let! _ := dict_setitem updates (OfShared t) (t + T.constant 1%R)%th in
    ret updates
  else ret long_updates.

Definition np_zeros_like (v : tensor) : tensor := np_zeros (shape v).

(** ** Momentum *)

Definition make_velocity (param : variable) : M variable :=
  let! value := get_value param in
  let! v := theano_shared (np_zeros_like value) in
  ret (OfShared v).

Definition apply_momentum (updates : dref) (params : option (list variable))
           (momentum : texpr) (velocities : option (list variable)) : M dref :=
  let! params := match params with
                 | None => dict_keys updates
                 | Some ps => ret ps
                 end in
  let! items := dict_items updates in
  let! updates := OrderedDict items in
  let! velocities := match velocities with
                     | None => list_comp params make_velocity
                     | Some vs => ret vs
                     end in
  let! _ := for_each (zip params velocities) (fun pv =>
    let param := fst pv in
    let velocity := snd pv in
    let! u := dict_getitem updates param in
    let x := (momentum * velocity + u)%th in
    let! _ := dict_setitem updates velocity (x - param)%th in
    dict_setitem updates param x) in
  ret updates.

Definition apply_nesterov_momentum (updates : dref)
           (params : option (list variable))
           (momentum : texpr) (velocities : option (list variable)) : M dref :=
  let! params := match params with
                 | None => dict_keys updates
                 | Some ps => ret ps
                 end in
  let! items := dict_items updates in
  let! updates := OrderedDict items in
  let! velocities := match velocities with
                     | None => list_comp params make_velocity
                     | Some vs => ret vs
                     end in
  let! _ := for_each (zip params velocities) (fun pv =>
    let param := fst pv in
    let velocity := snd pv in
    let! u := dict_getitem updates param in
    let x := (momentum * velocity + u - param)%th in
    let! _ := dict_setitem updates velocity x in
    let! u' := dict_getitem updates param in
    dict_setitem updates param (momentum * x + u')%th) in
  ret updates.

(** ** The external differentiation engine and [get_or_compute_grads] *)

Section Updates.

(** The engine's derivative of a scalar expression with respect to one
    variable. *)
Variable differentiate : texpr -> variable -> texpr.

(** [theano.grad(loss, params)]: one gradient for each parameter. *)
Definition theano_grad (loss : texpr) (params : list variable) : list texpr :=
  map (differentiate loss) params.

Definition get_or_compute_grads (lg : loss_or_grads) (params : list variable)
  : M (list texpr) :=
  if existsb (fun p => negb (is_SharedVariable p)) params then raise ValueError
  else match lg with
       | Grads gs =>
           if negb (Nat.eqb (length gs) (length params)) then raise ValueError
           else ret gs
       | Loss l => ret (theano_grad l params)
       end.

(** ** SGD and momentum *)

Definition sgd_rule : rule unit := fun lg params learning_rate _ =>
  let! grads := get_or_compute_grads lg params in
  let! updates := OrderedDict [] in
  let! _ := for_each (zip params grads) (fun pg =>
    let param := fst pg in
    let grad := snd pg in
    dict_setitem updates param (param - learning_rate * grad)%th) in
  ret updates.

(** [@lr_decay def sgd(...)] *)
Definition sgd := lr_decay sgd_rule.

Definition momentum_rule : rule (texpr * option (list variable)) :=
  fun lg params learning_rate args =>
    let momentum := fst args in
    let velocities := snd args in
    let! updates := sgd lg params learning_rate tt
                        default_decay_period default_decay_factor in
    apply_momentum updates None momentum velocities.

Definition momentum := lr_decay momentum_rule.

Definition nesterov_momentum_rule : rule (texpr * option (list variable)) :=
  fun lg params learning_rate args =>
    let momentum := fst args in
    let velocities := snd args in
    let! updates := sgd lg params learning_rate tt
                        default_decay_period default_decay_factor in
    apply_nesterov_momentum updates None momentum velocities.

Definition nesterov_momentum := lr_decay nesterov_momentum_rule.

(** ** Adagrad, RMSProp and Adadelta *)

Definition adagrad_rule : rule texpr := fun lg params learning_rate epsilon =>
  let! grads := get_or_compute_grads lg params in
  let! updates := OrderedDict [] in
  let! _ := for_each (zip params grads) (fun pg =>
    let param := fst pg in
    let grad := snd pg in
    let! value := get_value param in
    let! accu := theano_shared (np_zeros_like value) in
    let accu_new := (accu + grad ** 2%R)%th in
    let! _ := dict_setitem updates (OfShared accu) accu_new in
    dict_setitem updates param
                 (param - learning_rate * grad / T.sqrt (accu_new + epsilon))%th) in
  ret updates.

Definition adagrad := lr_decay adagrad_rule.

Definition rmsprop_rule : rule (texpr * texpr) :=
  fun lg params learning_rate args =>
    let rho := fst args in
    let epsilon := snd args in
    let! grads := get_or_compute_grads lg params in
    let! updates := OrderedDict [] in
    let one := T.constant 1%R in
    let! _ := for_each (zip params grads) (fun pg =>
      let param := fst pg in
      let grad := snd pg in
      let! value := get_value param in
      let! accu := theano_shared (np_zeros_like value) in
      let accu_new := (rho * accu + (one - rho) * grad ** 2%R)%th in
      let! _ := dict_setitem updates (OfShared accu) accu_new in
      dict_setitem updates param
                   (param - learning_rate * grad / T.sqrt (accu_new + epsilon))%th) in
    ret updates.

Definition rmsprop := lr_decay rmsprop_rule.

Definition adadelta_rule : rule (texpr * texpr) :=
  fun lg params learning_rate args =>
    let rho := fst args in
    let epsilon := snd args in
    let! grads := get_or_compute_grads lg params in
    let! updates := OrderedDict [] in
    let one := T.constant 1%R in
    let! _ := for_each (zip params grads) (fun pg =>
      let param := fst pg in
      let grad := snd pg in
      let! value := get_value param in
      let! accu := theano_shared (np_zeros_like value) in
      let! delta_accu := theano_shared (np_zeros_like value) in
      let accu_new := (rho * accu + (one - rho) * grad ** 2%R)%th in
      let! _ := dict_setitem updates (OfShared accu) accu_new in
      let update := (grad * T.sqrt (delta_accu + epsilon)
                     / T.sqrt (accu_new + epsilon))%th in
      let! _ := dict_setitem updates param (param - learning_rate * update)%th in
      let delta_accu_new := (rho * delta_accu + (one - rho) * update ** 2%R)%th in
      dict_setitem updates (OfShared delta_accu) delta_accu_new) in
    ret updates.

Definition adadelta := lr_decay adadelta_rule.

(** ** Adam *)

(** [p.name]: the name of a variable the caller passes, [None] when it
    was created without one (the default of [theano.shared]).  The
    names belong to the caller's objects and are no part of the engine
    state, so they are given from outside, like [differentiate]. *)
Variable name_of : variable -> option String.string.

(** The names [adam] builds are labels of the new variables; they are
    computed, and can raise, but are not recorded, since nothing reads
    them back. *)
Definition adam_rule : rule (texpr * texpr * texpr) :=
  fun lg params learning_rate args =>
    let '(beta1, beta2, epsilon) := args in
    let! all_grads := get_or_compute_grads lg params in
    let! t_prev := theano_shared (scalar 0%R) in
    let! updates := OrderedDict [] in
    let one := T.constant 1%R in
    let t := (t_prev + 1%R)%th in
    let a_t := (learning_rate * T.sqrt (one - beta2 ** t) / (one - beta1 ** t))%th in
    let! _ := for_each (zip params all_grads) (fun pg =>
      let param := fst pg in
      let g_t := snd pg in
      let! value := get_value param in
      let! mu_name := str_add "Adam_mu::"%string (name_of param) in
      let! m_prev := theano_shared (np_zeros_like value) in
      let! var_name := str_add "Adam_var::"%string (name_of param) in
      let! v_prev := theano_shared (np_zeros_like value) in
      let m_t := (beta1 * m_prev + (one - beta1) * g_t)%th in
      let v_t := (beta2 * v_prev + (one - beta2) * g_t ** 2%R)%th in
      let step := (a_t * m_t / (T.sqrt v_t + epsilon))%th in
      let! _ := dict_setitem updates (OfShared m_prev) m_t in
      let! _ := dict_setitem updates (OfShared v_prev) v_t in
      dict_setitem updates param (param - step)%th) in
    let! _ := dict_setitem updates (OfShared t_prev) t in
    ret updates.

Definition adam := lr_decay adam_rule.

(** ** Adamax *)

Definition adamax_rule : rule (texpr * texpr * texpr) :=
  fun lg params learning_rate args =>
    let '(beta1, beta2, epsilon) := args in
    let! all_grads := get_or_compute_grads lg params in
    let! t_prev := theano_shared (scalar 0%R) in
    let! updates := OrderedDict [] in
    let one := T.constant 1%R in
    let t := (t_prev + 1%R)%th in
    let a_t := (learning_rate / (one - beta1 ** t))%th in
    let! _ := for_each (zip params all_grads) (fun pg =>
      let param := fst pg in
      let g_t := snd pg in
      let! value := get_value param in
      let! m_prev := theano_shared (np_zeros_like value) in
      let! u_prev := theano_shared (np_zeros_like value) in
      let m_t := (beta1 * m_prev + (one - beta1) * g_t)%th in
      let u_t := T.maximum (beta2 * u_prev) (T.abs_ g_t) in
      let step := (a_t * m_t / (u_t + epsilon))%th in
      let! _ := dict_setitem updates (OfShared m_prev) m_t in
      let! _ := dict_setitem updates (OfShared u_prev) u_t in
      dict_setitem updates param (param - step)%th) in
    let! _ := dict_setitem updates (OfShared t_prev) t in
    ret updates.

Definition adamax := lr_decay adamax_rule.

(** ** Cocob *)

(** The expression bound to [l_t] in the loop of [cocob]. *)
Definition cocob_l_t (l grad : texpr) : texpr :=
  T.maximum (l * 0.999%R) (T.abs_ grad).

Definition cocob (lg : loss_or_grads) (params : list variable)
           (alpha epsilon : texpr) : M dref :=
  let! grads := get_or_compute_grads lg params in
  let! updates := OrderedDict [] in
  let! _ := for_each (zip params grads) (fun pg =>
    let param := fst pg in
    let grad := snd pg in
    let! value := get_value param in
    let! l := theano_shared (np_zeros_like value) in
    let! g := theano_shared (np_zeros_like value) in
    let! r := theano_shared (np_zeros_like value) in
    let! s := theano_shared (np_zeros_like value) in
    let l_t := cocob_l_t l grad in
    let g_t := (g + T.abs_ grad)%th in
    let r_t := T.clip (r - param * grad) 0%R 1000%R in
    let s_t := (s + grad)%th in
    let factor := (s_t / (l_t * T.maximum (g_t + l_t) (alpha * l_t) + epsilon))%th in
    dict_setitem updates param (param - factor * (l_t + r_t))%th) in
  ret updates.

(** ** YellowFin *)

Definition curvature_range (grads : list texpr) (beta t : texpr)
           (updates : dref) (window_width : nat) : M (texpr * texpr) :=
  let! window := theano_shared (T.zeros [window_width]) in
  let t_mod := T.mod_check t (INR window_width) in
  let! _ := dict_setitem updates (OfShared window)
              (T.set_subtensor window t_mod
                 (py_sum (map (fun g => T.sum (T.sqr g)) grads))) in
  let t := T.minimum (t + 1%R) (INR window_width) in
  let! w := dict_getitem updates (OfShared window) in
  let h_max_t := T.max (T.prefix w t) in
  let! w := dict_getitem updates (OfShared window) in
  let h_min_t := T.min (T.prefix w t) in
  let! h_max := theano_shared (scalar 0%R) in
  let! h_min := theano_shared (scalar 0%R) in
  let! _ := dict_setitem updates (OfShared h_max) (ema beta h_max h_max_t None None) in
  let! _ := dict_setitem updates (OfShared h_min) (ema beta h_min h_min_t None None) in
  let! new_h_max := dict_getitem updates (OfShared h_max) in
  let! new_h_min := dict_getitem updates (OfShared h_min) in
  ret (new_h_max, new_h_min).

Definition gradient_variance (grads : list texpr) (params : list variable)
           (beta : texpr) (updates : dref) : M texpr :=
  let norm := T.constant 0%R in
  for_fold (zip params grads) norm (fun norm pg =>
    let p := fst pg in
    let g := snd pg in
    let! value := get_value p in
    let! mom1 := theano_shared (np_zeros_like value) in
    let! mom2 := theano_shared (np_zeros_like value) in
    let! _ := dict_setitem updates (OfShared mom1) (ema beta mom1 g None None) in
    let! _ := dict_setitem updates (OfShared mom2) (ema beta mom2 (T.sqr g) None None) in
    let! new_mom2 := dict_getitem updates (OfShared mom2) in
    let! new_mom1 := dict_getitem updates (OfShared mom1) in
    ret (norm + T.sum (T.abs_ (new_mom2 - T.sqr new_mom1)))%th).

Definition distance_to_optim (grads : list texpr) (beta : texpr)
           (updates : dref) : M texpr :=
  let! g := theano_shared (scalar 1%R) in
  let! h := theano_shared (scalar 1%R) in
  let! d := theano_shared (scalar 1%R) in
  let new_norm := py_sum (map (fun g => T.sum (T.sqr g)) grads) in
  let! _ := dict_setitem updates (OfShared g) (ema beta g (T.sqrt new_norm) None None) in
  let! _ := dict_setitem updates (OfShared h) (ema beta h new_norm None None) in
  let! new_g := dict_getitem updates (OfShared g) in
  let! new_h := dict_getitem updates (OfShared h) in
  let! _ := dict_setitem updates (OfShared d) (ema beta d (new_g / new_h)%th None None) in
  dict_getitem updates (OfShared d).

Definition yellow_fin (lg : loss_or_grads) (params : list variable)
           (beta : texpr) (learning_rate_init momentum_init : R)
           (t : option texpr) (window_width : nat) (debug : bool) : M dref :=
  let! grads := get_or_compute_grads lg params in
  let! updates := OrderedDict [] in
  let! alpha0 := floatX (PyFloat learning_rate_init) in
  let! alpha := theano_shared alpha0 in
  let! mu0 := floatX (PyFloat momentum_init) in
  let! mu := theano_shared mu0 in
  let! t := match t with
            | None =>
                let! t := theano_shared (scalar 0%R) in
                let! _ := dict_setitem updates (OfShared t) (t + 1%R)%th in
                ret (read t)
            | Some t => ret t
            end in
  let! hh := curvature_range grads beta t updates window_width in
  let h_max := fst hh in
  let h_min := snd hh in
  let! c := gradient_variance grads params beta updates in
  let! d := distance_to_optim grads beta updates in
  let h_max := if debug then theano_print_values h_max else h_max in
  let h_min := if debug then theano_print_values h_min else h_min in
  let c := if debug then theano_print_values c else c in
  let d := if debug then theano_print_values d else d in
  let p := (T.sqr d * T.sqr h_min / (2%R * c))%th in
  let w3 := (p * (T.sqrt (0.25%R + p / 27%R) - 0.5%R))%th in
  let p := if debug then theano_print_values p else p in
  let w3 := if debug then theano_print_values w3 else w3 in
  let w := T.power w3 (1 / 3)%R in
  let y := (w - p / (3%R * w))%th in
  let mu_sqrt1 := (y + 1%R)%th in
  let mu_sqrt1 := if debug then theano_print_values mu_sqrt1 else mu_sqrt1 in
  let mu_sqrt2 := ((T.sqrt h_max - T.sqrt h_min) / (T.sqrt h_max + T.sqrt h_min))%th in
  let mu_sqrt := T.maximum mu_sqrt1 mu_sqrt2 in
  let alpha_t := (T.sqr (1%R - mu_sqrt) / h_min)%th in
  let mu_t := T.sqr mu_sqrt in
  let! _ := dict_setitem updates (OfShared mu) (ema beta mu mu_t None None) in
  let! _ := dict_setitem updates (OfShared alpha) (ema beta alpha alpha_t None None) in
  let! new_alpha := dict_getitem updates (OfShared alpha) in
  let! new_mu := dict_getitem updates (OfShared mu) in
  let! m := momentum (Grads grads) params (PyVar (OfExpr new_alpha))
                     (new_mu, None) default_decay_period default_decay_factor in
  let! _ := dict_update updates m in
  ret updates.

Definition wrap_with_burnout {Args} (updates_fn : rule Args) (burnout : Z)
  : rule Args :=
  fun lg params learning_rate kwargs =>
    let! sgd_updates := sgd lg params learning_rate tt
                            default_decay_period default_decay_factor in
    let! updates := updates_fn lg params learning_rate kwargs in
    apply_burnout updates sgd_updates burnout.

End Updates.

(** The Euclidean norm of column [j] of a matrix with [m] rows. *)
Definition col_norm (m : nat) (v : tensor) (j : nat) : R :=
  sqrt (sum_upto m (fun i => data v [i; j] * data v [i; j]))%R.

(** A constant matrix expression, for examples. *)
Definition const_matrix (m n : nat) (r : R) : texpr :=
  TExpr 2 (fun _ => Tensor [m; n] (fun _ => r)).

(** ** Definitions used to state the properties *)

(** The three forms of the moving average over the reals: plain,
    bias-corrected at step [t], and ramped over an initial period [T]. *)
Definition ema_plain (a s x : R) : R := (a * s + (1 - a) * x)%R.

Definition ema_corrected (a s x t : R) : R :=
  ((a * s + (1 - a) * x) / (1 - pow_real a (t + 1)))%R.

Definition ema_ramp (a s x t T : R) : R :=
  let a' := (a * Rmin 1 ((T - 1) * t / (T * T) + / T))%R in
  (a' * s + (1 - a') * x)%R.

(** The three modes as the specification words them: plain without
    [t]; bias-corrected with [t] and no [init_period]; ramped over the
    initial period when both are given. *)
Definition ema_spec (a s x : R) (t : option R) (init_period : option Z) : R :=
  match t, init_period with
  | None, _ => ema_plain a s x
  | Some t, None => ema_corrected a s x t
  | Some t, Some T => ema_ramp a s x t (IZR T)
  end.

(** What the code does: the ramp needs [init_period > 0]; an
    [init_period] that is not positive is treated like a missing one. *)
Definition ema_code (a s x : R) (t : option R) (init_period : option Z) : R :=
  match t, init_period with
  | None, _ => ema_plain a s x
  | Some t, None => ema_corrected a s x t
  | Some t, Some T => if (0 <? T)%Z then ema_ramp a s x t (IZR T)
                      else ema_corrected a s x t
  end.

(** The inputs on which gradient resolution is specified to fail. *)
Definition grads_rejected (lg : loss_or_grads) (params : list variable) : Prop :=
  (exists gs, lg = Grads gs /\ length gs <> length params) \/
  (exists p, In p params /\ is_SharedVariable p = false).

(** The identities of the keys of a dictionary, in order. *)
Definition key_ids (d : odict) : list nat := map (fun kv => sv_id (fst kv)) d.

(** The dictionary [apply_burnout] builds when [burnout > 0]. *)
Definition burnout_dict (long_d initial_d : odict) (t : SharedVariable)
           (burnout : Z) : odict :=
  odict_set t (t + T.constant 1%R)%th
    (odict_of_items
       (map (fun kv => (fst kv,
                        ifelse (T.ge t (IZR burnout)) (snd kv)
                               (match odict_get initial_d (fst kv) with
                                | Some x => x
                                | None => read (fst kv)
                                end)))
            long_d)).

(** [heap_frame r e e']: from [e] to [e'] no dictionary was created, only
    the dictionary [r] may have changed, and it lost no key. *)
Definition heap_frame (r : dref) (e e' : engine) : Prop :=
  length (heap e') = length (heap e) /\
  (forall r', r' <> r -> heap e' !! r' = heap e !! r') /\
  (forall k, odict_get (deref e r) k <> None -> odict_get (deref e' r) k <> None).

(** [m] changes no dictionary but [r], from any state. *)
Definition touches_only {A} (r : dref) (m : M A) : Prop :=
  forall e, heap_frame r e (snd (m e)).

(** What a call leaves of the caller's dictionary [updates]: the object
    is as it was, the result is an object that did not exist before, and
    it has every key of [updates]. *)
Definition returns_fresh_copy (updates : dref) (e : engine)
           (out : (exn + dref) * engine) : Prop :=
  deref (snd out) updates = deref e updates /\
  (forall r, r < length (heap e) -> deref (snd out) r = deref e r) /\
  (forall r, fst out = inr r ->
             r = length (heap e) /\ r <> updates /\
             forall k, odict_get (deref e updates) k <> None ->
                       odict_get (deref (snd out) r) k <> None).

(** [m], when it returns, returns [c]. *)
Definition returns {A} (c : A) (m : M A) : Prop :=
  forall e r, fst (m e) = inr r -> r = c.

(** The loop of [apply_momentum] as a function on the copied dictionary;
    [None] when a parameter is not a key. *)
Fixpoint momentum_fold (momentum : texpr)
         (pvs : list (SharedVariable * SharedVariable)) (d : odict)
  : option odict :=
  match pvs with
  | [] => Some d
  | (param, velocity) :: rest =>
      match odict_get d param with
      | None => None
      | Some u =>
          let x := (momentum * velocity + u)%th in
          momentum_fold momentum rest
            (odict_set param x (odict_set velocity (x - param)%th d))
      end
  end.

(** The body of the loop of [apply_momentum]. *)
Definition momentum_body (momentum : texpr) (c : dref)
  : variable * variable -> M unit :=
  fun pv =>
    let param := fst pv in
    let velocity := snd pv in
    let! u := dict_getitem c param in
    let x := (momentum * velocity + u)%th in
    let! _ := dict_setitem c velocity (x - param)%th in
    dict_setitem c param x.

(** Two expressions with the same value at every coordinate in every
    store. *)
Definition same_value (a b : texpr) : Prop :=
  forall st idx, at_ a st idx = at_ b st idx.

(** Two dictionary entries that are both missing or have the same value. *)
Definition same_entry (o1 o2 : option texpr) : Prop :=
  match o1, o2 with
  | Some a, Some b => same_value a b
  | None, None => True
  | _, _ => False
  end.

(** The velocities [[make_velocity(p) for p in params]] allocates from
    the store [sv], with the store after the allocation. *)
Fixpoint new_velocities (sv : store) (ps : list SharedVariable)
  : list SharedVariable * store :=
  match ps with
  | [] => ([], sv)
  | p :: ps' =>
      let z := np_zeros_like (sv !!! sv_id p) in
      let rest := new_velocities (sv ++ [z]) ps' in
      (Shared (length sv) (length (shape z)) :: fst rest, snd rest)
  end.

(** An engine with one scalar parameter, of value 1, and one update
    dictionary that maps it to the constant 2. *)
Definition example_engine : engine :=
  Engine [scalar 1%R] [[(Shared 0 0, T.constant 2%R)]].

(** The three formulas of the specification of Adam. *)
Definition adam_a_t (lr beta1 beta2 t : R) : R :=
  (lr * sqrt (1 - pow_real beta2 (t + 1)) / (1 - pow_real beta1 (t + 1)))%R.

Definition adam_m (beta1 m g : R) : R := (beta1 * m + (1 - beta1) * g)%R.

Definition adam_v (beta2 v g : R) : R := (beta2 * v + (1 - beta2) * (g * g))%R.

(** One round of the loop of [adam], on the engine state: two cells are
    allocated and three keys of the dictionary [c] are set. *)
Definition adam_round (c : dref) (a_t beta1 beta2 epsilon : texpr)
           (pg : SharedVariable * texpr) (e : engine) : engine :=
  let param := fst pg in
  let g_t := snd pg in
  let one := T.constant 1%R in
  let z := np_zeros_like (shared_values e !!! sv_id param) in
  let m_prev := Shared (length (shared_values e)) (length (shape z)) in
  let v_prev := Shared (length (shared_values e ++ [z])) (length (shape z)) in
  let m_t := (beta1 * m_prev + (one - beta1) * g_t)%th in
  let v_t := (beta2 * v_prev + (one - beta2) * g_t ** 2%R)%th in
  let step := (a_t * m_t / (T.sqrt v_t + epsilon))%th in
  Engine ((shared_values e ++ [z]) ++ [z])
         (alter (odict_set param (param - step)%th) c
            (alter (odict_set v_prev v_t) c
               (alter (odict_set m_prev m_t) c (heap e)))).

(** What the dictionary [c] holds for parameter [p] with gradient [g]
    when its two moment cells are [n] and [n + 1]. *)
Definition adam_entries (d : odict) (n : nat) (p : SharedVariable)
           (g a_t beta1 beta2 epsilon : texpr) : Prop :=
  exists um uv up,
    odict_get d (Shared n 0) = Some um /\
    odict_get d (Shared (S n) 0) = Some uv /\
    odict_get d p = Some up /\
    forall st idx,
      at_ um st idx
      = adam_m (at_ beta1 st idx) (data (st !!! n) idx) (at_ g st idx) /\
      at_ uv st idx
      = adam_v (at_ beta2 st idx) (data (st !!! S n) idx) (at_ g st idx) /\
      at_ up st idx
      = (at_ p st idx
         - at_ a_t st idx * at_ um st idx
           / (sqrt (at_ uv st idx) + at_ epsilon st idx))%R.

(** The gradients a rule works with, once its inputs are accepted. *)
Definition resolved_grads (differentiate : texpr -> variable -> texpr)
           (lg : loss_or_grads) (ps : list SharedVariable) : list texpr :=
  match lg with
  | Grads gs => gs
  | Loss l => theano_grad differentiate l (map OfShared ps)
  end.

(** One round of the loop of [cocob], on the engine state: four cells are
    allocated and the parameter's key of the dictionary [c] is set. *)
Definition cocob_round (c : dref) (alpha epsilon : texpr)
           (pg : SharedVariable * texpr) (e : engine) : engine :=
  let param := fst pg in
  let grad := snd pg in
  let z := np_zeros_like (shared_values e !!! sv_id param) in
  let sv1 := shared_values e ++ [z] in
  let sv2 := sv1 ++ [z] in
  let sv3 := sv2 ++ [z] in
  let l := Shared (length (shared_values e)) (length (shape z)) in
  let g := Shared (length sv1) (length (shape z)) in
  let r := Shared (length sv2) (length (shape z)) in
  let s := Shared (length sv3) (length (shape z)) in
  let l_t := cocob_l_t l grad in
  let g_t := (g + T.abs_ grad)%th in
  let r_t := T.clip (r - param * grad) 0%R 1000%R in
  let s_t := (s + grad)%th in
  let factor := (s_t / (l_t * T.maximum (g_t + l_t) (alpha * l_t) + epsilon))%th in
  Engine (sv3 ++ [z])
         (alter (odict_set param (param - factor * (l_t + r_t))%th) c (heap e)).

(** The value [cocob] computes for [l_t], and the update of the parameter
    built from it, over the reals.  [l g r s] are the values of the four
    state cells, [p] the parameter, [grad] the gradient. *)
Definition cocob_l_next (l grad : R) : R := Rmax (l * 0.999) (Rabs grad).

Definition cocob_param_next (l g r s p grad alpha epsilon : R) : R :=
  let l_t := cocob_l_next l grad in
  let g_t := (g + Rabs grad)%R in
  let r_t := clip_real (r - p * grad) 0 1000 in
  let s_t := (s + grad)%R in
  (p - s_t / (l_t * Rmax (g_t + l_t) (alpha * l_t) + epsilon) * (l_t + r_t))%R.

(** What the dictionary holds for parameter [p] with gradient [grad] when
    its four state cells are [n], ..., [n + 3]. *)
Definition cocob_entry (d : odict) (n : nat) (p : SharedVariable)
           (grad alpha epsilon : texpr) : Prop :=
  exists up,
    odict_get d p = Some up /\
    forall st idx,
      at_ up st idx
      = cocob_param_next (data (st !!! n) idx) (data (st !!! (n + 1)) idx)
                         (data (st !!! (n + 2)) idx) (data (st !!! (n + 3)) idx)
                         (at_ p st idx) (at_ grad st idx)
                         (at_ alpha st idx) (at_ epsilon st idx).

(** The dictionary [sgd] builds for distinct parameters: one entry for
    each parameter, in order. *)
Definition sgd_dict (learning_rate : texpr)
           (pgs : list (SharedVariable * texpr)) : odict :=
  map (fun pg => (fst pg, (read (fst pg) - learning_rate * snd pg)%th)) pgs.

(** One round of the loop of [sgd] on the engine state. *)
Definition sgd_round (c : dref) (learning_rate : texpr)
           (pg : SharedVariable * texpr) (e : engine) : engine :=
  Engine (shared_values e)
         (alter (odict_set (fst pg)
                           (read (fst pg) - learning_rate * snd pg)%th) c (heap e)).

(** From [e] to [e'] no dictionary was created and shared variables were
    only added. *)
Definition grows (e e' : engine) : Prop :=
  length (heap e') = length (heap e) /\
  exists new, shared_values e' = shared_values e ++ new.

(** The closed form of the specification, over the reals. *)
Definition yf_p (d h_min c : R) : R := (d * d * (h_min * h_min) / (2 * c))%R.

Definition yf_w3 (p : R) : R := (p * (sqrt (0.25 + p / 27) - 0.5))%R.

Definition yf_mu_sqrt (d h_min h_max c : R) : R :=
  let p := yf_p d h_min c in
  let w := pow_real (yf_w3 p) (1 / 3) in
  let y := (w - p / (3 * w))%R in
  let mu_sqrt1 := (y + 1)%R in
  Rmax mu_sqrt1 ((sqrt h_max - sqrt h_min) / (sqrt h_max + sqrt h_min))%R.

Definition yf_alpha_t (d h_min h_max c : R) : R :=
  let mu_sqrt := yf_mu_sqrt d h_min h_max c in
  ((1 - mu_sqrt) * (1 - mu_sqrt) / h_min)%R.

Definition yf_mu_t (d h_min h_max c : R) : R :=
  let mu_sqrt := yf_mu_sqrt d h_min h_max c in
  (mu_sqrt * mu_sqrt)%R.

(** The engine state and the step expression with which [yellow_fin]
    calls its estimators: the dictionary [updates] is new, the cells
    [alpha] and [mu] are allocated, and so is the step counter when the
    caller gives none. *)
Definition yellow_fin_start (learning_rate_init momentum_init : R)
           (t : option texpr) (e : engine) : texpr * engine :=
  let sv := (shared_values e ++ [scalar learning_rate_init])
              ++ [scalar momentum_init] in
  match t with
  | None =>
      let t := Shared (length sv) 0 in
      (read t, Engine (sv ++ [scalar 0%R]) (heap e ++ [[(t, (t + 1%R)%th)]]))
  | Some t => (t, Engine sv (heap e ++ [[]]))
  end.

(** The expressions [yellow_fin] builds from the estimates [d], [h_min],
    [h_max] and [c]. *)
Definition yellow_fin_mu_sqrt (d h_min h_max c : texpr) : texpr :=
  let p := (T.sqr d * T.sqr h_min / (2%R * c))%th in
  let w3 := (p * (T.sqrt (0.25%R + p / 27%R) - 0.5%R))%th in
  let w := T.power w3 (1 / 3)%R in
  let y := (w - p / (3%R * w))%th in
  let mu_sqrt1 := (y + 1%R)%th in
  let mu_sqrt2 := ((T.sqrt h_max - T.sqrt h_min) / (T.sqrt h_max + T.sqrt h_min))%th in
  T.maximum mu_sqrt1 mu_sqrt2.

Definition yellow_fin_alpha_t (d h_min h_max c : texpr) : texpr :=
  (T.sqr (1%R - yellow_fin_mu_sqrt d h_min h_max c) / h_min)%th.

Definition yellow_fin_mu_t (d h_min h_max c : texpr) : texpr :=
  T.sqr (yellow_fin_mu_sqrt d h_min h_max c).

(** ** Definitions used to state further properties *)

(** The Euclidean norm of filter [i] of a rank-3 tensor with extents
    [b] and [c] on the trailing axes. *)
Definition filter_norm (b c : nat) (v : tensor) (i : nat) : R :=
  sqrt (sum_upto b (fun j =>
          sum_upto c (fun k => data v [i; j; k] * data v [i; j; k])))%R.

(** The Euclidean norm of row [i] of a matrix with [n] columns. *)
Definition row_norm (n : nat) (v : tensor) (i : nat) : R :=
  sqrt (sum_upto n (fun j => data v [i; j] * data v [i; j]))%R.

(** The sum of a list of reals. *)
Definition rsum (l : list R) : R := fold_right Rplus 0%R l.

Arguments rsum : simpl never.

(** The sum of the squares of all entries of a tensor, and the combined
    Euclidean norm of a list of tensors. *)
Definition sum_sq (v : tensor) : R :=
  rsum (elements (shape v) (fun i => data v i * data v i)%R).

Definition total_norm (vs : list tensor) : R :=
  sqrt (rsum (map sum_sq vs)).

(** What [apply_decay] maps a decay counter and the decayed variable to. *)
Definition decay_count_update (count : SharedVariable) (period : Z) : texpr :=
  ifelse (T.ge count (IZR period)) (T.constant 1%R) (count + T.constant 1%R)%th.

Definition decay_update (count p : SharedVariable) (period : Z) (factor : R)
  : texpr :=
  ifelse (T.ge count (IZR period)) (p * factor)%th p.

(** The body of the loop of [apply_nesterov_momentum]. *)
Definition nesterov_body (momentum : texpr) (c : dref)
  : variable * variable -> M unit :=
  fun pv =>
    let param := fst pv in
    let velocity := snd pv in
    let! u := dict_getitem c param in
    let x := (momentum * velocity + u - param)%th in
    let! _ := dict_setitem c velocity x in
    let! u' := dict_getitem c param in
    dict_setitem c param (momentum * x + u')%th.

(** The loop of [apply_nesterov_momentum] as a function on the copied
    dictionary; [None] when a parameter is not a key. *)
Fixpoint nesterov_fold (momentum : texpr)
         (pvs : list (SharedVariable * SharedVariable)) (d : odict)
  : option odict :=
  match pvs with
  | [] => Some d
  | (param, velocity) :: rest =>
      match odict_get d param with
      | None => None
      | Some u =>
          let x := (momentum * velocity + u - param)%th in
          let d1 := odict_set velocity x d in
          match odict_get d1 param with
          | None => None
          | Some u' =>
              nesterov_fold momentum rest
                            (odict_set param (momentum * x + u')%th d1)
          end
      end
  end.

(** [k] state variables allocated in a row, all with initial value [z]:
    the variables and the store after the allocation. *)
Fixpoint alloc_state (k : nat) (z : tensor) (sv : store)
  : list SharedVariable * store :=
  match k with
  | O => ([], sv)
  | S k' =>
      let r := alloc_state k' z (sv ++ [z]) in
      (Shared (length sv) (length (shape z)) :: fst r, snd r)
  end.

(** [k] consecutive variables from identity [n], of [d] dimensions. *)
Fixpoint cells_at (k n d : nat) : list SharedVariable :=
  match k with
  | O => []
  | S k' => Shared n d :: cells_at k' (S n) d
  end.

(** [updates[key] = v] for a list of items, in order, on dictionary [c]. *)
Definition set_items (c : dref) (items : odict) (h : list odict) : list odict :=
  fold_left (fun h kv => alter (odict_set (fst kv) (snd kv)) c h) items h.

(** One round of the loop of a rule that keeps [k] state variables for
    each parameter: the variables are allocated with zeros of the
    parameter's shape and the items [entries] are stored. *)
Definition state_round (k : nat)
           (entries : list SharedVariable -> SharedVariable -> texpr -> odict)
           (c : dref) (pg : SharedVariable * texpr) (e : engine) : engine :=
  let z := np_zeros_like (shared_values e !!! sv_id (fst pg)) in
  let r := alloc_state k z (shared_values e) in
  Engine (snd r) (set_items c (entries (fst r) (fst pg) (snd pg)) (heap e)).

(** The items the loops of [adagrad], [rmsprop], [adadelta] and [adamax]
    store for one parameter. *)
Definition adagrad_entries (learning_rate epsilon : texpr)
           (cells : list SharedVariable) (param : SharedVariable) (grad : texpr)
  : odict :=
  match cells with
  | [accu] =>
      let accu_new := (accu + grad ** 2%R)%th in
      [(accu, accu_new);
       (param, (param - learning_rate * grad / T.sqrt (accu_new + epsilon))%th)]
  | _ => []
  end.

Definition rmsprop_entries (learning_rate rho epsilon : texpr)
           (cells : list SharedVariable) (param : SharedVariable) (grad : texpr)
  : odict :=
  match cells with
  | [accu] =>
      let one := T.constant 1%R in
      let accu_new := (rho * accu + (one - rho) * grad ** 2%R)%th in
      [(accu, accu_new);
       (param, (param - learning_rate * grad / T.sqrt (accu_new + epsilon))%th)]
  | _ => []
  end.

Definition adadelta_entries (learning_rate rho epsilon : texpr)
           (cells : list SharedVariable) (param : SharedVariable) (grad : texpr)
  : odict :=
  match cells with
  | [accu; delta_accu] =>
      let one := T.constant 1%R in
      let accu_new := (rho * accu + (one - rho) * grad ** 2%R)%th in
      let update := (grad * T.sqrt (delta_accu + epsilon)
                     / T.sqrt (accu_new + epsilon))%th in
      let delta_accu_new := (rho * delta_accu + (one - rho) * update ** 2%R)%th in
      [(accu, accu_new);
       (param, (param - learning_rate * update)%th);
       (delta_accu, delta_accu_new)]
  | _ => []
  end.

Definition adamax_entries (a_t beta1 beta2 epsilon : texpr)
           (cells : list SharedVariable) (param : SharedVariable) (g_t : texpr)
  : odict :=
  match cells with
  | [m_prev; u_prev] =>
      let one := T.constant 1%R in
      let m_t := (beta1 * m_prev + (one - beta1) * g_t)%th in
      let u_t := T.maximum (beta2 * u_prev) (T.abs_ g_t) in
      let step := (a_t * m_t / (u_t + epsilon))%th in
      [(m_prev, m_t); (u_prev, u_t); (param, (param - step)%th)]
  | _ => []
  end.

(** The items the loop of [cocob] stores for one parameter. *)
Definition cocob_entries (alpha epsilon : texpr)
           (cells : list SharedVariable) (param : SharedVariable) (grad : texpr)
  : odict :=
  match cells with
  | [l; g; r; s] =>
      let l_t := cocob_l_t l grad in
      let g_t := (g + T.abs_ grad)%th in
      let r_t := T.clip (r - param * grad) 0%R 1000%R in
      let s_t := (s + grad)%th in
      let factor := (s_t / (l_t * T.maximum (g_t + l_t) (alpha * l_t) + epsilon))%th in
      [(param, (param - factor * (l_t + r_t))%th)]
  | _ => []
  end.

(** The squared Euclidean norm of a list of gradients in a store. *)
Definition grad_sq_norm (grads : list texpr) (st : store) : R :=
  rsum (map (fun g => sum_sq (value g st)) grads).

(** * Properties *)

(** ** Gradient resolution *)

Lemma lookup_map {A B} (f : A -> B) (l : list A) (i : nat) :
  map f l !! i = option_map f (l !! i).
Proof.
  revert i. induction l as [| a l IH]; intros [| i]; simpl; auto.
Qed.

Lemma existsb_not_shared (params : list variable) :
  existsb (fun p => negb (is_SharedVariable p)) params = true <->
  exists p, In p params /\ is_SharedVariable p = false.
Proof.
  rewrite existsb_exists. split; intros [p [Hin Hp]]; exists p; split; auto.
  - destruct (is_SharedVariable p); simpl in Hp; congruence.
  - rewrite Hp. reflexivity.
Qed.

Section GradientResolution.

Variable differentiate : texpr -> variable -> texpr.

(** C9. [get_or_compute_grads] raises exactly when it is given a
    gradient list whose length differs from the number of parameters or
    when some parameter is not a shared variable.  Otherwise a gradient
    list is returned as it is, and a loss is differentiated into one
    gradient for each parameter, in the order of the parameters.  The
    engine state is never changed. *)
Theorem get_or_compute_grads_contract (lg : loss_or_grads)
        (params : list variable) (e : engine) :
  ((exists x, get_or_compute_grads differentiate lg params e = (inl x, e))
   <-> grads_rejected lg params) /\
  (~ grads_rejected lg params ->
   match lg with
   | Grads gs => get_or_compute_grads differentiate lg params e = (inr gs, e)
   | Loss l =>
       exists gs,
         get_or_compute_grads differentiate lg params e = (inr gs, e) /\
         length gs = length params /\
         forall i p, params !! i = Some p ->
                     gs !! i = Some (differentiate l p)
   end).
Proof.
  unfold get_or_compute_grads, grads_rejected.
  destruct (existsb (fun p => negb (is_SharedVariable p)) params) eqn:Hex.
  - apply existsb_not_shared in Hex. split.
    + split; [intros _; right; exact Hex | intros _; exists ValueError; reflexivity].
    + intros Hn. exfalso. apply Hn. right. exact Hex.
  - assert (Hno : ~ exists p, In p params /\ is_SharedVariable p = false).
    { intros H. apply existsb_not_shared in H. congruence. }
    destruct lg as [gs | l].
    + destruct (Nat.eqb (length gs) (length params)) eqn:Hlen; simpl.
      * apply Nat.eqb_eq in Hlen. split.
        -- split.
           ++ intros [x Hx]. discriminate Hx.
           ++ intros [[gs' [Heq Hne]] | H]; [| contradiction].
              inversion Heq; subst. contradiction.
        -- intros _. reflexivity.
      * apply Nat.eqb_neq in Hlen. split.
        -- split.
           ++ intros _. left. exists gs. split; [reflexivity | exact Hlen].
           ++ intros _. exists ValueError. reflexivity.
        -- intros Hn. exfalso. apply Hn. left. exists gs. auto.
    + split.
      * split.
        -- intros [x Hx]. discriminate Hx.
        -- intros [[gs [Heq _]] | H]; [discriminate Heq | contradiction].
      * intros _. exists (theano_grad differentiate l params).
        split; [reflexivity |]. unfold theano_grad. split.
        -- apply length_map.
        -- intros i p Hp. rewrite lookup_map, Hp. reflexivity.
Qed.

End GradientResolution.

(** ** Learning-rate decay switched off *)

(** C8. With [decay_period = 0], or with [decay_factor = 1], the rule
    wrapped by [lr_decay] is the undecorated rule called with the raw
    learning rate: from every engine state both give the same result and
    leave the same state, so no counter and no shared learning rate is
    allocated. *)
Theorem lr_decay_disabled {Args} (updates_fn : rule Args)
        (lg : loss_or_grads) (params : list variable) (learning_rate : pyval)
        (args : Args) (decay_period : Z) (decay_factor : R) (e : engine) :
  decay_period = 0%Z \/ decay_factor = 1%R ->
  lr_decay updates_fn lg params learning_rate args decay_period decay_factor e
  = updates_fn lg params learning_rate args e.
Proof.
  intros H. unfold lr_decay.
  assert (Hc : (decay_period <=? 0)%Z || float_eqb decay_factor 1 = true).
  { destruct H as [-> | ->].
    - reflexivity.
    - apply orb_true_iff. right. unfold float_eqb.
      destruct (Req_dec_T 1 1); [reflexivity | contradiction]. }
  rewrite Hc. reflexivity.
Qed.

Lemma lr_decay_disabled_witness :
  lr_decay (sgd_rule (fun l _ => l)) (Grads []) [] (PyFloat 1%R) tt 0%Z 0.5%R
           (Engine [] [])
  = sgd_rule (fun l _ => l) (Grads []) [] (PyFloat 1%R) tt (Engine [] []).
Proof.
  apply (lr_decay_disabled (sgd_rule (fun l _ => l)) (Grads []) []
                           (PyFloat 1%R) tt 0%Z 0.5%R (Engine [] [])).
  left. reflexivity.
Defined.

(** The decorated rules are called with the defaults of the wrapper,
    which switch the decay off. *)
Lemma lr_decay_default {Args} (updates_fn : rule Args) (lg : loss_or_grads)
      (params : list variable) (learning_rate : pyval) (args : Args) (e : engine) :
  lr_decay updates_fn lg params learning_rate args
           default_decay_period default_decay_factor e
  = updates_fn lg params learning_rate args e.
Proof. reflexivity. Qed.

(** ** Exponential moving average *)

Lemma pow_real_1 (x : R) : pow_real x 1 = x.
Proof.
  unfold pow_real. destruct (Rlt_dec 0 x) as [Hx | Hx].
  - apply Rpower_1. exact Hx.
  - replace (Int_part 1) with 1%Z.
    + destruct (Req_dec_T 1 1); [| contradiction]. apply powerRZ_1.
    + change 1%R with (INR 1). rewrite Int_part_INR. reflexivity.
Qed.

(** C7.  [ema] has three modes that exclude one another, for an
    [init_period] that is missing or a positive number [T] of steps.
    Without [t] it returns [alpha*s + (1-alpha)*x]; with [t] and no
    [init_period] it returns that value divided by [1 - alpha^(t+1)];
    with [t] and [init_period = T] it replaces alpha by
    [alpha * min(1, (T-1)*t/T^2 + 1/T)] and divides nothing.  In
    particular [ema(0.9, 0, 1) = 0.1] and [ema(0.9, 0, 1, t=0) = 1]. *)
Theorem ema_modes (alpha s_t x_t : texpr) (t : option texpr)
        (init_period : option Z) (st : store) (i : index) :
  (forall T, init_period = Some T -> (0 < T)%Z) ->
  at_ (ema alpha s_t x_t t init_period) st i
  = ema_spec (at_ alpha st i) (at_ s_t st i) (at_ x_t st i)
             (option_map (fun t => at_ t st i) t) init_period
  /\ at_ (ema 0.9%R 0%R 1%R None None) st i = 0.1%R
  /\ at_ (ema 0.9%R 0%R 1%R (Some (T.constant 0%R)) None) st i = 1%R.
Proof.
  intros Hpos. split; [| split].
  - unfold ema, exponential_moving_average, ema_spec, at_, th_fx.
    destruct t as [t |]; [destruct init_period as [T |] |]; simpl.
    + assert (HT : (0 <? T)%Z = true) by (apply Z.ltb_lt; apply Hpos; reflexivity).
      rewrite HT. simpl. unfold ema_ramp. lra.
    + reflexivity.
    + unfold ema_plain. lra.
  - unfold ema, exponential_moving_average, at_, th_fx. simpl. lra.
  - unfold ema, exponential_moving_average, at_, th_fx. simpl.
    replace (0 + 1)%R with 1%R by lra. rewrite pow_real_1. lra.
Qed.

Lemma ema_modes_witness :
  at_ (ema 0.9%R 0%R 1%R (Some (T.constant 3%R)) (Some 10%Z)) [] []
  = ema_spec 0.9 0 1 (Some 3%R) (Some 10%Z)
  /\ at_ (ema 0.9%R 0%R 1%R None None) [] [] = 0.1%R
  /\ at_ (ema 0.9%R 0%R 1%R (Some (T.constant 0%R)) None) [] [] = 1%R.
Proof.
  apply (ema_modes 0.9%R 0%R 1%R (Some (T.constant 3%R)) (Some 10%Z) [] []).
  intros T [= <-]. lia.
Defined.

(** ** Norm constraint on matrices *)

Section ColumnNorms.

Local Open Scope R_scope.

Lemma sum_upto_ext (n : nat) (f g : nat -> R) :
  (forall i, (i < n)%nat -> f i = g i) -> sum_upto n f = sum_upto n g.
Proof.
  induction n as [| n IH]; intros H; simpl; [reflexivity |].
  rewrite IH, (H n); auto with arith.
Qed.

Lemma sum_upto_scale (n : nat) (f : nat -> R) (c : R) :
  sum_upto n (fun i => (f i * c) * (f i * c))
  = c * c * sum_upto n (fun i => f i * f i).
Proof.
  induction n as [| n IH]; simpl; [ring |]. rewrite IH. ring.
Qed.




Lemma sqrt_sum_scaled (n : nat) (f : nat -> R) (c : R) :
  0 <= c ->
  sqrt (sum_upto n (fun i => (f i * c) * (f i * c)))
  = c * sqrt (sum_upto n (fun i => f i * f i)).
Proof.
  intros Hc. rewrite sum_upto_scale.
  rewrite sqrt_mult_alt by nra.
  rewrite sqrt_square by exact Hc. reflexivity.
Qed.

End ColumnNorms.

Lemma norm_constraint_rank2_value (x : texpr) (max_norm eps : R) (st : store)
      (m n : nat) :
  ndim x = 2 -> shape (value x st) = [m; n] ->
  exists out,
    norm_constraint x max_norm None eps = inr out /\
    shape (value out st) = [m; n] /\
    forall i j,
      at_ out st [i; j]
      = (at_ x st [i; j]
         * (clip_real (col_norm m (value x st) j) 0 max_norm
            / (eps + col_norm m (value x st) j)))%R.
Proof.
  intros Hnd Hsh. unfold norm_constraint. rewrite Hnd. simpl.
  eexists. split; [reflexivity |]. split.
  - simpl. rewrite Hsh. simpl. unfold broadcast_shape. simpl.
    unfold broadcast_dim. simpl.
    destruct (Nat.eqb n 1); destruct (Nat.eqb m 1) eqn:Hm;
      try (apply Nat.eqb_eq in Hm; subst m); reflexivity.
  - intros i j. unfold at_, col_norm. simpl. rewrite Hsh. simpl. reflexivity.
Qed.



Lemma col_norm_nonneg (m : nat) (v : tensor) (j : nat) : (0 <= col_norm m v j)%R.
Proof. unfold col_norm. apply sqrt_pos. Qed.


Section NormConstraint.

Local Open Scope R_scope.






End NormConstraint.
(** ** Ordered dictionaries *)

Section OdictFacts.

Implicit Types (d : odict) (k : SharedVariable) (v : texpr).

Lemma key_eqb_eq k k' : key_eqb k k' = true <-> sv_id k = sv_id k'.
Proof. unfold key_eqb. apply Nat.eqb_eq. Qed.

Lemma key_eqb_neq k k' : key_eqb k k' = false <-> sv_id k <> sv_id k'.
Proof. unfold key_eqb. apply Nat.eqb_neq. Qed.

Lemma key_eqb_refl k : key_eqb k k = true.
Proof. apply key_eqb_eq. reflexivity. Qed.

Lemma odict_get_id d k k' : sv_id k = sv_id k' -> odict_get d k = odict_get d k'.
Proof.
  intros Hid. induction d as [| [k0 v0] d IH]; simpl; [reflexivity |].
  unfold key_eqb. rewrite Hid, IH. reflexivity.
Qed.

Lemma odict_get_set d k v k' :
  odict_get (odict_set k v d) k'
  = if key_eqb k k' then Some v else odict_get d k'.
Proof.
  induction d as [| [k0 v0] d IH]; simpl.
  - reflexivity.
  - unfold key_eqb in *.
    destruct (Nat.eqb_spec (sv_id k0) (sv_id k)) as [E | E]; simpl; unfold key_eqb.
    + rewrite E. destruct (sv_id k =? sv_id k'); reflexivity.
    + rewrite IH.
      destruct (Nat.eqb_spec (sv_id k0) (sv_id k')) as [E' | E'];
        destruct (Nat.eqb_spec (sv_id k) (sv_id k')) as [E2 | E2];
        try reflexivity; congruence.
Qed.

Lemma odict_get_set_same d k v : odict_get (odict_set k v d) k = Some v.
Proof. rewrite odict_get_set, key_eqb_refl. reflexivity. Qed.

Lemma odict_get_set_other d k v k' :
  sv_id k <> sv_id k' -> odict_get (odict_set k v d) k' = odict_get d k'.
Proof.
  intros H. rewrite odict_get_set. apply key_eqb_neq in H. rewrite H. reflexivity.
Qed.

Lemma odict_get_app d1 d2 k :
  odict_get (d1 ++ d2) k
  = match odict_get d1 k with
    | Some v => Some v
    | None => odict_get d2 k
    end.
Proof.
  induction d1 as [| [k0 v0] d1 IH]; simpl; [reflexivity |].
  destruct (key_eqb k0 k); [reflexivity | exact IH].
Qed.

(** Setting a list of items one after the other: the last item for a
    key wins. *)
Lemma odict_get_fold_set (items : list (SharedVariable * texpr)) d k :
  odict_get (fold_left (fun d kv => odict_set (fst kv) (snd kv) d) items d) k
  = match odict_get (rev items) k with
    | Some v => Some v
    | None => odict_get d k
    end.
Proof.
  revert d. induction items as [| [k0 v0] items IH]; intros d; simpl.
  - reflexivity.
  - rewrite IH, odict_get_app, odict_get_set. simpl.
    destruct (odict_get (rev items) k); [reflexivity |].
    destruct (key_eqb k0 k); reflexivity.
Qed.

Lemma odict_get_In d k v :
  odict_get d k = Some v -> exists k', In (k', v) d /\ sv_id k' = sv_id k.
Proof.
  induction d as [| [k0 v0] d IH]; simpl; [discriminate |].
  destruct (key_eqb k0 k) eqn:E.
  - intros [= <-]. exists k0. split; [left; reflexivity | apply key_eqb_eq; exact E].
  - intros H. destruct (IH H) as [k' [Hin Hid]]. exists k'. auto.
Qed.

Lemma odict_get_None d k :
  odict_get d k = None -> ~ In (sv_id k) (key_ids d).
Proof.
  induction d as [| [k0 v0] d IH]; simpl; [tauto |].
  destruct (key_eqb k0 k) eqn:E; [discriminate |].
  intros H [Hid | Hin]; [| exact (IH H Hin)].
  apply key_eqb_neq in E. contradiction.
Qed.

Lemma odict_get_NoDup_In d k k' v :
  List.NoDup (key_ids d) -> In (k', v) d -> sv_id k' = sv_id k ->
  odict_get d k = Some v.
Proof.
  induction d as [| [k0 v0] d IH]; simpl; intros Hnd Hin Hid; [contradiction |].
  apply List.NoDup_cons_iff in Hnd as [Hnotin Hnd].
  destruct Hin as [[= -> ->] | Hin].
  - apply key_eqb_eq in Hid. rewrite Hid. reflexivity.
  - destruct (key_eqb k0 k) eqn:E.
    + exfalso. apply Hnotin. apply key_eqb_eq in E. rewrite E, <- Hid.
      unfold key_ids. apply (in_map (fun kv => sv_id (fst kv)) d (k', v)). exact Hin.
    + apply IH; assumption.
Qed.

Lemma key_ids_rev d : key_ids (rev d) = rev (key_ids d).
Proof. unfold key_ids. apply map_rev. Qed.

Lemma odict_get_rev d k :
  List.NoDup (key_ids d) -> odict_get (rev d) k = odict_get d k.
Proof.
  intros Hnd. destruct (odict_get d k) as [v |] eqn:E.
  - destruct (odict_get_In d k v E) as [k' [Hin Hid]].
    apply (odict_get_NoDup_In (rev d) k k' v).
    + rewrite key_ids_rev. apply List.NoDup_rev. exact Hnd.
    + apply in_rev. rewrite rev_involutive. exact Hin.
    + exact Hid.
  - destruct (odict_get (rev d) k) as [v |] eqn:E'; [| reflexivity].
    destruct (odict_get_In (rev d) k v E') as [k' [Hin Hid]].
    apply odict_get_None in E. exfalso. apply E. rewrite <- Hid.
    apply in_rev in Hin.
    apply (in_map (fun kv => sv_id (fst kv)) d (k', v)). exact Hin.
Qed.

Lemma odict_get_of_items (items : list (SharedVariable * texpr)) k :
  List.NoDup (key_ids items) -> odict_get (odict_of_items items) k = odict_get items k.
Proof.
  intros Hnd. unfold odict_of_items. rewrite odict_get_fold_set. simpl.
  rewrite odict_get_rev by exact Hnd. destruct (odict_get items k); reflexivity.
Qed.

End OdictFacts.

(** ** Evaluating graph construction *)

Lemma list_comp_pure {A B} (f : A -> M B) (g : A -> B) (xs : list A) (e : engine) :
  (forall x, In x xs -> f x e = (inr (g x), e)) ->
  list_comp xs f e = (inr (map g xs), e).
Proof.
  induction xs as [| x xs IH]; intros H; simpl; [reflexivity |].
  unfold bind. rewrite (H x) by (left; reflexivity).
  rewrite IH by (intros y Hy; apply H; right; exact Hy). reflexivity.
Qed.

Lemma zip_items_values {K A B C} (F : A -> B -> C) (g : K * A -> B)
      (items : list (K * A)) :
  map (fun kv_v : K * A * C => (fst (fst kv_v), snd kv_v))
      (zip items (zip_with F (map snd items) (map g items)))
  = map (fun kv => (fst kv, F (snd kv) (g kv))) items.
Proof.
  induction items as [| kv items IH]; simpl; [reflexivity |].
  rewrite IH. reflexivity.
Qed.

Lemma alter_new {A} (f : A -> A) (l : list A) (x : A) :
  alter f (length l) (l ++ [x]) = l ++ [f x].
Proof.
  replace (length l) with (length l + 0) at 1 by lia.
  rewrite alter_app_r. reflexivity.
Qed.

(** ** Burnout *)

Lemma apply_burnout_positive (long_updates initial_updates : dref)
      (burnout : Z) (e : engine) :
  (0 < burnout)%Z ->
  apply_burnout long_updates initial_updates burnout e
  = (inr (length (heap e)),
     Engine (shared_values e ++ [scalar 0%R])
            (heap e ++ [burnout_dict (deref e long_updates)
                                     (deref e initial_updates)
                                     (Shared (length (shared_values e)) 0)
                                     burnout])).
Proof.
  intros Hpos. unfold apply_burnout.
  apply Z.ltb_lt in Hpos. rewrite Hpos.
  unfold bind, theano_shared, dict_items. simpl.
  erewrite list_comp_pure; [| intros kv _; unfold dict_get; reflexivity].
  unfold ifelse_list. rewrite zip_items_values.
  unfold OrderedDict, ret. simpl. rewrite alter_new. reflexivity.
Qed.

Lemma key_ids_map_values (F : SharedVariable * texpr -> texpr) (d : odict) :
  key_ids (map (fun kv => (fst kv, F kv)) d) = key_ids d.
Proof.
  unfold key_ids. rewrite map_map. reflexivity.
Qed.

Lemma odict_get_map_values (F : SharedVariable * texpr -> texpr) (d : odict)
      (k : SharedVariable) (v : texpr) :
  List.NoDup (key_ids d) -> odict_get d k = Some v ->
  exists k', sv_id k' = sv_id k /\
             odict_get (map (fun kv => (fst kv, F kv)) d) k = Some (F (k', v)).
Proof.
  intros Hnd Hget. destruct (odict_get_In d k v Hget) as [k' [Hin Hid]].
  exists k'. split; [exact Hid |].
  apply (odict_get_NoDup_In _ k k').
  - rewrite key_ids_map_values. exact Hnd.
  - apply (in_map (fun kv => (fst kv, F kv)) d (k', v)). exact Hin.
  - exact Hid.
Qed.

Lemma burnout_dict_get (long_d initial_d : odict) (t : SharedVariable)
      (burnout : Z) (k : SharedVariable) (lv iv : texpr) :
  List.NoDup (key_ids long_d) ->
  odict_get long_d k = Some lv -> odict_get initial_d k = Some iv ->
  sv_id k <> sv_id t ->
  odict_get (burnout_dict long_d initial_d t burnout) k
  = Some (ifelse (T.ge t (IZR burnout)) lv iv).
Proof.
  intros Hnd Hl Hi Hne. unfold burnout_dict.
  rewrite odict_get_set_other by congruence.
  rewrite odict_get_of_items by (rewrite key_ids_map_values; exact Hnd).
  destruct (odict_get_map_values
              (fun kv => ifelse (T.ge t (IZR burnout)) (snd kv)
                                (match odict_get initial_d (fst kv) with
                                 | Some x => x
                                 | None => read (fst kv)
                                 end)) long_d k lv Hnd Hl) as [k' [Hid Hget]].
  rewrite Hget. simpl. rewrite (odict_get_id initial_d k' k Hid), Hi. reflexivity.
Qed.

Lemma burnout_dict_get_counter (long_d initial_d : odict) (t : SharedVariable)
      (burnout : Z) :
  odict_get (burnout_dict long_d initial_d t burnout) t
  = Some (t + T.constant 1%R)%th.
Proof. unfold burnout_dict. apply odict_get_set_same. Qed.

(** ** Running updates *)

Lemma apply_updates_length (u : odict) (st : store) :
  length (apply_updates u st) = length st.
Proof. unfold apply_updates. apply length_imap. Qed.

Lemma run_length (n : nat) (u : odict) (st : store) :
  length (run n u st) = length st.
Proof.
  induction n as [| n IH]; simpl; [reflexivity |].
  rewrite apply_updates_length. exact IH.
Qed.

Lemma apply_updates_lookup (u : odict) (st : store) (k : SharedVariable) :
  sv_id k < length st ->
  apply_updates u st !!! sv_id k
  = match odict_get u k with
    | Some e => value e st
    | None => st !!! sv_id k
    end.
Proof.
  intros Hlt. destruct (lookup_lt_is_Some_2 st (sv_id k) Hlt) as [x Hx].
  apply list_lookup_total_correct. unfold apply_updates.
  rewrite list_lookup_imap, Hx. simpl.
  rewrite (odict_get_id u (Shared (sv_id k) 0) k) by reflexivity.
  rewrite (list_lookup_total_correct st _ x Hx). reflexivity.
Qed.

(** A counter that the dictionary increments by one holds, after [n]
    steps, its initial value plus [n]. *)
Lemma run_counter (u : odict) (t : SharedVariable) (st : store) (n : nat) :
  odict_get u t = Some (t + T.constant 1%R)%th ->
  sv_id t < length st ->
  data (run n u st !!! sv_id t) [] = (data (st !!! sv_id t) [] + INR n)%R.
Proof.
  intros Hu Hlt. induction n as [| n IH].
  - simpl. lra.
  - change (run (S n) u st) with (apply_updates u (run n u st)).
    rewrite apply_updates_lookup by (rewrite run_length; exact Hlt).
    rewrite Hu. simpl value. simpl data. rewrite IH, S_INR. lra.
Qed.

Lemma ifelse_ge_value (t : SharedVariable) (burnout : Z) (a b : texpr)
      (st : store) (n : nat) :
  data (st !!! sv_id t) [] = INR n ->
  value (ifelse (T.ge t (IZR burnout)) a b) st
  = if (Z.of_nat n <? burnout)%Z then value b st else value a st.
Proof.
  intros Ht. unfold ifelse. simpl. rewrite Ht. unfold ge_real.
  rewrite INR_IZR_INZ.
  destruct (Z.ltb_spec (Z.of_nat n) burnout) as [Hlt | Hge].
  - destruct (Rle_dec (IZR burnout) (IZR (Z.of_nat n))) as [H | H].
    + apply le_IZR in H. lia.
    + destruct (Req_dec_T 0 0); [reflexivity | contradiction].
  - destruct (Rle_dec (IZR burnout) (IZR (Z.of_nat n))) as [H | H].
    + destruct (Req_dec_T 1 0); [lra | reflexivity].
    + exfalso. apply H. apply IZR_le. exact Hge.
Qed.

(** C3. With [burnout = N > 0], [apply_burnout] returns a new dictionary
    with its own step counter, allocated with value 0 and incremented by
    one at every step.  For a key of the long mapping that is also a key
    of the initial mapping, the update expression evaluates, at the
    [n]-th step, to the value of the initial mapping's expression when
    [n < N] and to the value of the long mapping's expression when
    [n >= N]: one of the two, never a mixture. *)
Theorem apply_burnout_hard_switch (long_updates initial_updates : dref)
        (burnout : Z) (e : engine) (k : SharedVariable) (lv iv : texpr)
        (st0 : store) (n : nat) :
  (0 < burnout)%Z ->
  List.NoDup (key_ids (deref e long_updates)) ->
  odict_get (deref e long_updates) k = Some lv ->
  odict_get (deref e initial_updates) k = Some iv ->
  sv_id k < length (shared_values e) ->
  length (shared_values e) < length st0 ->
  data (st0 !!! length (shared_values e)) [] = 0%R ->
  exists r e' v,
    apply_burnout long_updates initial_updates burnout e = (inr r, e') /\
    shared_values e' = shared_values e ++ [scalar 0%R] /\
    odict_get (deref e' r) k = Some v /\
    value v (run n (deref e' r) st0)
    = if (Z.of_nat n <? burnout)%Z
      then value iv (run n (deref e' r) st0)
      else value lv (run n (deref e' r) st0).
Proof.
  intros Hpos Hnd Hl Hi Hk Hlen Hzero.
  set (t := Shared (length (shared_values e)) 0).
  set (u := burnout_dict (deref e long_updates) (deref e initial_updates) t burnout).
  exists (length (heap e)),
         (Engine (shared_values e ++ [scalar 0%R]) (heap e ++ [u])),
         (ifelse (T.ge t (IZR burnout)) lv iv).
  assert (Hderef : deref (Engine (shared_values e ++ [scalar 0%R]) (heap e ++ [u]))
                         (length (heap e)) = u).
  { unfold deref. simpl. apply list_lookup_total_middle. reflexivity. }
  rewrite Hderef.
  split; [apply apply_burnout_positive; exact Hpos |].
  split; [reflexivity |].
  split.
  - apply burnout_dict_get; try assumption. simpl. lia.
  - apply ifelse_ge_value.
    rewrite (run_counter u t st0 n).
    + simpl. rewrite Hzero. lra.
    + apply burnout_dict_get_counter.
    + exact Hlen.
Qed.

Lemma apply_burnout_hard_switch_witness :
  exists r e' v,
    apply_burnout 0 1 3%Z
      (Engine [scalar 5%R]
              [[(Shared 0 0, T.constant 2%R)]; [(Shared 0 0, T.constant 3%R)]])
    = (inr r, e') /\
    shared_values e' = [scalar 5%R] ++ [scalar 0%R] /\
    odict_get (deref e' r) (Shared 0 0) = Some v /\
    value v (run 4 (deref e' r) [scalar 5%R; scalar 0%R])
    = if (Z.of_nat 4 <? 3)%Z
      then value (T.constant 3%R) (run 4 (deref e' r) [scalar 5%R; scalar 0%R])
      else value (T.constant 2%R) (run 4 (deref e' r) [scalar 5%R; scalar 0%R]).
Proof.
  apply (apply_burnout_hard_switch 0 1 3%Z
           (Engine [scalar 5%R]
                   [[(Shared 0 0, T.constant 2%R)]; [(Shared 0 0, T.constant 3%R)]])
           (Shared 0 0) (T.constant 2%R) (T.constant 3%R)
           [scalar 5%R; scalar 0%R] 4).
  - lia.
  - simpl. constructor; [simpl; tauto | constructor].
  - reflexivity.
  - reflexivity.
  - simpl. lia.
  - simpl. lia.
  - reflexivity.
Defined.

(** ** Which dictionaries a computation can change *)

Section Frames.

Variable r : dref.

Lemma heap_frame_refl (e : engine) : heap_frame r e e.
Proof. repeat split; auto. Qed.

Lemma heap_frame_trans (e1 e2 e3 : engine) :
  heap_frame r e1 e2 -> heap_frame r e2 e3 -> heap_frame r e1 e3.
Proof.
  intros [L1 [O1 K1]] [L2 [O2 K2]]. repeat split.
  - congruence.
  - intros r' Hr. rewrite O2, O1; auto.
  - auto.
Qed.

Lemma touches_only_ret {A} (a : A) : touches_only r (ret a).
Proof. intros e. apply heap_frame_refl. Qed.

Lemma touches_only_raise {A} (x : exn) : touches_only r (@raise A x).
Proof. intros e. apply heap_frame_refl. Qed.

Lemma touches_only_bind {A B} (m : M A) (k : A -> M B) :
  touches_only r m -> (forall a, touches_only r (k a)) ->
  touches_only r (bind m k).
Proof.
  intros Hm Hk e. unfold bind. specialize (Hm e).
  destruct (m e) as [[x | a] e1]; simpl in *; [exact Hm |].
  eapply heap_frame_trans; [exact Hm | apply Hk].
Qed.

Lemma touches_only_for_each {A} (xs : list A) (body : A -> M unit) :
  (forall x, touches_only r (body x)) -> touches_only r (for_each xs body).
Proof.
  intros Hb. induction xs as [| x xs IH]; simpl.
  - apply touches_only_ret.
  - apply touches_only_bind; [apply Hb | intros _; exact IH].
Qed.

Lemma touches_only_list_comp {A B} (xs : list A) (f : A -> M B) :
  (forall x, touches_only r (f x)) -> touches_only r (list_comp xs f).
Proof.
  intros Hf. induction xs as [| x xs IH]; simpl.
  - apply touches_only_ret.
  - apply touches_only_bind; [apply Hf | intros y].
    apply touches_only_bind; [exact IH | intros ys; apply touches_only_ret].
Qed.

Lemma touches_only_theano_shared (v : tensor) : touches_only r (theano_shared v).
Proof. intros e. unfold theano_shared. repeat split; auto. Qed.

Lemma touches_only_get_value (p : variable) : touches_only r (get_value p).
Proof. intros e. destruct p; apply heap_frame_refl. Qed.

Lemma touches_only_make_velocity (p : variable) : touches_only r (make_velocity p).
Proof.
  unfold make_velocity.
  apply touches_only_bind; [apply touches_only_get_value | intros v].
  apply touches_only_bind; [apply touches_only_theano_shared | intros s].
  apply touches_only_ret.
Qed.

Lemma touches_only_getitem (r0 : dref) (k : variable) :
  touches_only r (dict_getitem r0 k).
Proof.
  intros e. destruct k as [v | x]; simpl; [| apply heap_frame_refl].
  destruct (odict_get (deref e r0) v); apply heap_frame_refl.
Qed.

Lemma touches_only_setitem (k : variable) (v : texpr) :
  touches_only r (dict_setitem r k v).
Proof.
  intros e. destruct k as [s | x]; simpl; [| apply heap_frame_refl].
  repeat split; simpl.
  - apply length_alter.
  - intros r' Hr. apply list_lookup_alter_ne. auto.
  - intros k Hk. unfold deref in *. simpl.
    destruct (decide (r < length (heap e))) as [Hlt | Hge].
    + rewrite list_lookup_total_alter_eq by exact Hlt.
      rewrite odict_get_set. destruct (key_eqb s k); [discriminate | exact Hk].
    + rewrite list_lookup_total_alter.
      destruct (decide _) as [[_ H] | _]; [contradiction | exact Hk].
Qed.

End Frames.

Lemma odict_of_items_keeps_keys (items : list (SharedVariable * texpr))
      (k : SharedVariable) :
  odict_get items k <> None -> odict_get (odict_of_items items) k <> None.
Proof.
  intros H. unfold odict_of_items. rewrite odict_get_fold_set.
  destruct (odict_get (rev items) k) eqn:E; [discriminate |].
  exfalso. destruct (odict_get items k) as [v |] eqn:E'; [| contradiction].
  destruct (odict_get_In items k v E') as [k' [Hin Hid]].
  apply odict_get_None in E. apply E. rewrite <- Hid.
  apply (in_map (fun kv => sv_id (fst kv)) (rev items) (k', v)).
  apply in_rev. rewrite rev_involutive. exact Hin.
Qed.

Lemma deref_lookup (e e' : engine) (r : dref) :
  heap e' !! r = heap e !! r -> deref e' r = deref e r.
Proof.
  intros H. unfold deref. rewrite !list_lookup_total_alt. f_equal. exact H.
Qed.

(** The part of [apply_momentum] that works on the copy. *)
Lemma momentum_loop_touches_copy (copy : dref) (momentum : texpr)
      (pvs : list (variable * variable)) :
  touches_only copy
    (for_each pvs (fun pv =>
       let param := fst pv in
       let velocity := snd pv in
       let! u := dict_getitem copy param in
       let x := (momentum * velocity + u)%th in
       let! _ := dict_setitem copy velocity (x - param)%th in
       dict_setitem copy param x)).
Proof.
  apply touches_only_for_each. intros [p v]. simpl.
  apply touches_only_bind; [apply touches_only_getitem | intros u].
  apply touches_only_bind; [apply touches_only_setitem | intros _].
  apply touches_only_setitem.
Qed.

Lemma nesterov_loop_touches_copy (copy : dref) (momentum : texpr)
      (pvs : list (variable * variable)) :
  touches_only copy
    (for_each pvs (fun pv =>
       let param := fst pv in
       let velocity := snd pv in
       let! u := dict_getitem copy param in
       let x := (momentum * velocity + u - param)%th in
       let! _ := dict_setitem copy velocity x in
       let! u' := dict_getitem copy param in
       dict_setitem copy param (momentum * x + u')%th)).
Proof.
  apply touches_only_for_each. intros [p v]. simpl.
  apply touches_only_bind; [apply touches_only_getitem | intros u].
  apply touches_only_bind; [apply touches_only_setitem | intros _].
  apply touches_only_bind; [apply touches_only_getitem | intros u'].
  apply touches_only_setitem.
Qed.

Lemma returns_ret {A} (c : A) : returns c (ret c).
Proof. intros e r [= <-]. reflexivity. Qed.

Lemma returns_bind {A B} (c : B) (m : M A) (k : A -> M B) :
  (forall a, returns c (k a)) -> returns c (bind m k).
Proof.
  intros Hk e r. unfold bind. destruct (m e) as [[x | a] e1]; simpl.
  - discriminate.
  - apply Hk.
Qed.

Lemma fresh_copy_frame (updates : dref) (e : engine) (rest : dref -> M dref) :
  updates < length (heap e) ->
  (forall c, touches_only c (rest c)) ->
  (forall c, returns c (rest c)) ->
  returns_fresh_copy updates e
    (bind (dict_items updates) (fun items => bind (OrderedDict items) rest) e).
Proof.
  intros Hlt Hrest Hret.
  unfold bind, dict_items, OrderedDict. simpl.
  set (c := length (heap e)).
  set (e1 := Engine (shared_values e) (heap e ++ [odict_of_items (deref e updates)])).
  destruct (Hrest c e1) as [Hlen [Hother Hkeys]].
  assert (Hold : forall r, r < length (heap e) ->
                 deref (snd (rest c e1)) r = deref e r).
  { intros r Hr. apply deref_lookup. rewrite Hother by (unfold c; lia).
    unfold e1. simpl. apply lookup_app_l. exact Hr. }
  split; [apply Hold; exact Hlt |]. split; [exact Hold |].
  intros r Hr. apply Hret in Hr. subst r.
  split; [reflexivity |]. split; [unfold c; lia |].
  intros k Hk. apply Hkeys. unfold deref, e1. simpl.
  rewrite list_lookup_total_middle by reflexivity.
  apply odict_of_items_keeps_keys. exact Hk.
Qed.

(** ** Momentum with coefficient zero *)

Lemma deref_alter (e : engine) (c : dref) (f : odict -> odict) :
  c < length (heap e) ->
  deref (Engine (shared_values e) (alter f c (heap e))) c = f (deref e c).
Proof.
  intros Hc. unfold deref. simpl. apply list_lookup_total_alter_eq. exact Hc.
Qed.

Lemma alter_const_self {A} `{Inhabited A} (l : list A) (i : nat) :
  alter (fun _ => l !!! i) i l = l.
Proof.
  apply list_eq. intros j. rewrite list_lookup_alter.
  destruct (decide (i = j)) as [<- | Hne]; [| reflexivity].
  destruct (l !! i) as [y |] eqn:E; simpl; [| reflexivity].
  rewrite (list_lookup_total_correct l i y E). reflexivity.
Qed.

Lemma for_each_cons {A} (x : A) (xs : list A) (body : A -> M unit) (e : engine) :
  for_each (x :: xs) body e
  = match body x e with
    | (inl err, e') => (inl err, e')
    | (inr _, e') => for_each xs body e'
    end.
Proof. reflexivity. Qed.

Lemma momentum_body_run (momentum : texpr) (c : dref) (p v : SharedVariable)
      (e : engine) (u : texpr) :
  odict_get (deref e c) p = Some u ->
  momentum_body momentum c (OfShared p, OfShared v) e
  = (inr tt,
     Engine (shared_values e)
            (alter (odict_set p (momentum * v + u)%th) c
                   (alter (odict_set v (momentum * v + u - p)%th) c (heap e)))).
Proof.
  intros Hu. unfold momentum_body, bind, dict_getitem. simpl. rewrite Hu.
  reflexivity.
Qed.

Lemma momentum_loop_run (momentum : texpr) (c : dref)
      (ps vs : list SharedVariable) (e : engine) (d' : odict) :
  c < length (heap e) ->
  momentum_fold momentum (zip ps vs) (deref e c) = Some d' ->
  for_each (zip (map OfShared ps) (map OfShared vs)) (momentum_body momentum c) e
  = (inr tt, Engine (shared_values e) (alter (fun _ => d') c (heap e))).
Proof.
  revert vs e. induction ps as [| p ps IH]; intros vs e Hc Hfold.
  - simpl in *. injection Hfold as <-. unfold ret. f_equal.
    destruct e as [sv h]. simpl. f_equal. unfold deref. simpl.
    symmetry. apply alter_const_self.
  - destruct vs as [| v vs].
    + simpl in *. injection Hfold as <-. unfold ret. f_equal.
      destruct e as [sv h]. simpl. f_equal. unfold deref. simpl.
      symmetry. apply alter_const_self.
    + simpl in Hfold.
      destruct (odict_get (deref e c) p) as [u |] eqn:Hu; [| discriminate].
      change (zip (map OfShared (p :: ps)) (map OfShared (v :: vs)))
        with ((OfShared p, OfShared v) :: zip (map OfShared ps) (map OfShared vs)).
      rewrite for_each_cons, (momentum_body_run momentum c p v e u Hu).
      set (e1 := Engine (shared_values e) _).
      assert (Hd1 : deref e1 c
                    = odict_set p (momentum * v + u)%th
                        (odict_set v (momentum * v + u - p)%th (deref e c))).
      { unfold e1, deref. simpl.
        rewrite !list_lookup_total_alter_eq; [reflexivity | exact Hc |].
        rewrite length_alter. exact Hc. }
      rewrite (IH vs e1).
      * unfold e1. simpl. rewrite !list_alter_alter_eq. reflexivity.
      * unfold e1. simpl. rewrite !length_alter. exact Hc.
      * rewrite Hd1. exact Hfold.
Qed.

Lemma same_entry_refl (o : option texpr) : same_entry o o.
Proof. destruct o; simpl; [intros st idx; reflexivity | exact I]. Qed.

Lemma same_entry_trans (o1 o2 o3 : option texpr) :
  same_entry o1 o2 -> same_entry o2 o3 -> same_entry o1 o3.
Proof.
  destruct o1, o2, o3; simpl; try tauto.
  intros H1 H2 st idx. rewrite H1. apply H2.
Qed.

Lemma momentum_zero_value (v u : texpr) :
  same_value (T.constant 0%R * v + u)%th u.
Proof. intros st idx. unfold at_. simpl. lra. Qed.

Lemma momentum_fold_zero (ps vs : list SharedVariable) (d : odict) :
  (forall p, In p ps -> odict_get d p <> None) ->
  (forall p v, In p ps -> In v vs -> sv_id p <> sv_id v) ->
  List.NoDup (map sv_id vs) ->
  exists d',
    momentum_fold (T.constant 0%R) (zip ps vs) d = Some d' /\
    (forall k, ~ In (sv_id k) (map sv_id vs) ->
               same_entry (odict_get d' k) (odict_get d k)) /\
    (forall i p v, ps !! i = Some p -> vs !! i = Some v ->
       exists u uv,
         odict_get d p = Some u /\ odict_get d' v = Some uv /\
         forall st idx, at_ uv st idx = (at_ u st idx - at_ p st idx)%R).
Proof.
  revert vs d. induction ps as [| p ps IH]; intros vs d Hkeys Hdisj Hnd.
  - exists d. split; [reflexivity |]. split.
    + intros k _. apply same_entry_refl.
    + intros i p v Hp. destruct i; discriminate Hp.
  - destruct vs as [| v vs].
    + exists d. split; [reflexivity |]. split.
      * intros k _. apply same_entry_refl.
      * intros i q w _ Hw. destruct i; discriminate Hw.
    + simpl map in Hnd. apply List.NoDup_cons_iff in Hnd as [Hv Hnd].
      destruct (odict_get d p) as [u |] eqn:Hu;
        [| exfalso; apply (Hkeys p); [left; reflexivity | exact Hu]].
      assert (Hpv : sv_id p <> sv_id v).
      { apply Hdisj; left; reflexivity. }
      set (x := (T.constant 0%R * v + u)%th).
      set (d1 := odict_set p x (odict_set v (x - p)%th d)).
      assert (Hd1 : forall k, odict_get d1 k
                              = if key_eqb p k then Some x
                                else if key_eqb v k then Some (x - p)%th
                                     else odict_get d k).
      { intros k. unfold d1. rewrite !odict_get_set. reflexivity. }
      destruct (IH vs d1) as [d' [Hfold [Hsame Hvel]]].
      * intros q Hq. rewrite Hd1. destruct (key_eqb p q); [discriminate |].
        destruct (key_eqb v q); [discriminate |]. apply Hkeys. right. exact Hq.
      * intros q w Hq Hw. apply Hdisj; right; assumption.
      * exact Hnd.
      * exists d'. split; [simpl; rewrite Hu; exact Hfold |]. split.
        -- intros k Hk. simpl in Hk.
           assert (Hk' : ~ In (sv_id k) (map sv_id vs)) by tauto.
           assert (Hvk : key_eqb v k = false).
           { apply key_eqb_neq. intros E. apply Hk. left. exact E. }
           eapply same_entry_trans; [apply Hsame; exact Hk' |].
           rewrite Hd1, Hvk. destruct (key_eqb p k) eqn:Hpk.
           ++ apply key_eqb_eq in Hpk.
              rewrite <- (odict_get_id d p k Hpk), Hu. simpl.
              apply momentum_zero_value.
           ++ apply same_entry_refl.
        -- intros i q w Hq Hw. destruct i as [| i].
           ++ simpl in Hq, Hw. injection Hq as <-. injection Hw as <-.
              pose proof (Hsame v Hv) as Hsv. rewrite Hd1 in Hsv.
              assert (E1 : key_eqb p v = false) by (apply key_eqb_neq; exact Hpv).
              rewrite E1, key_eqb_refl in Hsv.
              destruct (odict_get d' v) as [uv |]; [| contradiction].
              exists u, uv. split; [exact Hu |]. split; [reflexivity |].
              intros st idx. rewrite Hsv. unfold at_. simpl. lra.
           ++ simpl in Hq, Hw.
              destruct (Hvel i q w Hq Hw) as [u1 [uv [Hu1 [Huv Hval]]]].
              rewrite Hd1 in Hu1.
              assert (Hvq : key_eqb v q = false).
              { apply key_eqb_neq. intros E. symmetry in E. revert E.
                apply Hdisj; [right | left; reflexivity].
                apply list_elem_of_In. apply list_elem_of_lookup. eauto. }
              rewrite Hvq in Hu1. destruct (key_eqb p q) eqn:Hpq.
              ** injection Hu1 as <-. apply key_eqb_eq in Hpq.
                 exists u, uv. split; [rewrite <- (odict_get_id d p q Hpq); exact Hu |].
                 split; [exact Huv |]. intros st idx. rewrite Hval.
                 pose proof (momentum_zero_value v u st idx) as E. fold x in E.
                 rewrite E. reflexivity.
              ** exists u1, uv. split; [exact Hu1 |]. split; [exact Huv | exact Hval].
Qed.

Lemma list_comp_make_velocity (ps : list SharedVariable) (e : engine) :
  list_comp (map OfShared ps) make_velocity e
  = (inr (map OfShared (fst (new_velocities (shared_values e) ps))),
     Engine (snd (new_velocities (shared_values e) ps)) (heap e)).
Proof.
  revert e. induction ps as [| p ps IH]; intros e.
  - destruct e. reflexivity.
  - simpl. unfold bind at 1. unfold make_velocity at 1.
    unfold bind at 1 2. unfold get_value, theano_shared, ret at 1. simpl.
    unfold bind. rewrite IH. simpl. reflexivity.
Qed.

Lemma new_velocities_ids (sv : store) (ps : list SharedVariable) :
  map sv_id (fst (new_velocities sv ps)) = seq (length sv) (length ps).
Proof.
  revert sv. induction ps as [| p ps IH]; intros sv; simpl; [reflexivity |].
  rewrite IH, length_app. simpl. f_equal. f_equal. lia.
Qed.

Lemma new_velocities_store (sv : store) (ps : list SharedVariable) :
  (forall p, In p ps -> sv_id p < length sv) ->
  snd (new_velocities sv ps)
  = sv ++ map (fun p => np_zeros_like (sv !!! sv_id p)) ps.
Proof.
  revert sv. induction ps as [| p ps IH]; intros sv Hp; simpl.
  - rewrite app_nil_r. reflexivity.
  - rewrite IH.
    + rewrite <- app_assoc. simpl. f_equal. f_equal. apply map_ext_in.
      intros q Hq. rewrite lookup_total_app_l; [reflexivity |].
      apply Hp. right. exact Hq.
    + intros q Hq. rewrite length_app. simpl.
      assert (sv_id q < length sv) by (apply Hp; right; exact Hq). lia.
Qed.

(** C4. With [momentum = 0] and freshly made velocities,
    [apply_momentum] reduces to the rule it wraps.  For every update
    dictionary (with distinct keys) and every list of existing
    parameters that are keys of it (all keys when no list is given), the
    call returns, one velocity is allocated for each parameter, in
    order, with value zero, and in the returned dictionary the
    expression of each parameter has, in every store and at every
    coordinate, the value of [updates[param]], and the expression of its
    velocity has the value of [updates[param] - param]. *)
Theorem apply_momentum_zero (updates : dref)
        (params : option (list SharedVariable)) (e : engine) :
  let d := deref e updates in
  let ps := match params with
            | Some ps => ps
            | None => odict_keys d
            end in
  List.NoDup (key_ids d) ->
  (forall p, In p ps -> odict_get d p <> None) ->
  (forall p, In p ps -> sv_id p < length (shared_values e)) ->
  exists c e',
    apply_momentum updates (option_map (map OfShared) params)
                   (T.constant 0%R) None e = (inr c, e') /\
    shared_values e'
    = shared_values e
      ++ map (fun p => np_zeros_like (shared_values e !!! sv_id p)) ps /\
    forall i p, ps !! i = Some p ->
      exists u u' uv,
        odict_get d p = Some u /\
        odict_get (deref e' c) p = Some u' /\
        odict_get (deref e' c) (Shared (length (shared_values e) + i) 0) = Some uv /\
        forall st idx,
          at_ u' st idx = at_ u st idx /\
          at_ uv st idx = (at_ u st idx - at_ p st idx)%R.
Proof.
  intros d ps Hnd Hkeys Hold.
  set (c := length (heap e)).
  set (copy := odict_of_items d).
  set (vs := fst (new_velocities (shared_values e) ps)).
  set (sv' := snd (new_velocities (shared_values e) ps)).
  assert (Hids : map sv_id vs = seq (length (shared_values e)) (length ps))
    by apply new_velocities_ids.
  assert (Hcopy : forall k, odict_get copy k = odict_get d k).
  { intros k. apply odict_get_of_items. exact Hnd. }
  destruct (momentum_fold_zero ps vs copy) as [d' [Hfold [Hsame Hvel]]].
  - intros p Hp. rewrite Hcopy. apply Hkeys. exact Hp.
  - intros p v Hp Hv Heq.
    assert (Hin : In (sv_id v) (map sv_id vs)) by (apply in_map; exact Hv).
    rewrite Hids in Hin. apply in_seq in Hin.
    specialize (Hold p Hp). lia.
  - rewrite Hids. apply List.seq_NoDup.
  - exists c, (Engine sv' (alter (fun _ => d') c (heap e ++ [copy]))).
    assert (Hderef : deref (Engine sv' (alter (fun _ => d') c (heap e ++ [copy]))) c = d').
    { unfold deref. simpl. rewrite list_lookup_total_alter_eq; [reflexivity |].
      rewrite length_app. simpl. unfold c. lia. }
    split; [| split].
    + unfold apply_momentum.
      assert (Hps : forall B (k : list variable -> M B),
                 bind (match option_map (map OfShared) params with
                       | Some ps => ret ps
                       | None => dict_keys updates
                       end) k e = k (map OfShared ps) e).
      { intros B k. unfold ps, d. destruct params; reflexivity. }
      rewrite Hps. unfold bind at 1 2. unfold dict_items, OrderedDict. simpl.
      fold d. fold copy. fold c. unfold bind at 1.
      rewrite list_comp_make_velocity. simpl. fold vs. fold sv'.
      unfold bind.
      change (for_each (zip (map OfShared ps) (map OfShared vs)) _)
        with (for_each (zip (map OfShared ps) (map OfShared vs))
                       (momentum_body (T.constant 0%R) c)).
      rewrite (momentum_loop_run (T.constant 0%R) c ps vs _ d').
      * reflexivity.
      * simpl. rewrite length_app. simpl. unfold c. lia.
      * unfold deref. simpl. rewrite list_lookup_total_middle by reflexivity.
        exact Hfold.
    + simpl. unfold sv'. apply new_velocities_store. exact Hold.
    + intros i p Hp. rewrite Hderef.
      assert (Hpin : In p ps).
      { apply list_elem_of_In. apply list_elem_of_lookup. eauto. }
      assert (Hi : i < length ps) by (apply lookup_lt_is_Some; eauto).
      assert (Hvi : exists v, vs !! i = Some v /\ sv_id v = length (shared_values e) + i).
      { assert (Hlen : length vs = length ps).
        { rewrite <- (length_map sv_id vs), Hids. apply length_seq. }
        destruct (lookup_lt_is_Some_2 vs i) as [v Hv]; [lia |].
        exists v. split; [exact Hv |].
        assert (Hm : map sv_id vs !! i = Some (sv_id v)).
        { rewrite lookup_map, Hv. reflexivity. }
        rewrite Hids in Hm. apply lookup_seq in Hm. lia. }
      destruct Hvi as [v [Hv Hvid]].
      destruct (Hvel i p v Hp Hv) as [u [uv [Hu [Huv Hval]]]].
      assert (Hpn : ~ In (sv_id p) (map sv_id vs)).
      { rewrite Hids. intros Hin. apply in_seq in Hin. specialize (Hold p Hpin). lia. }
      pose proof (Hsame p Hpn) as Hsp. rewrite Hu in Hsp.
      destruct (odict_get d' p) as [u' |] eqn:Hu'; [| contradiction].
      exists u, u', uv. rewrite <- Hcopy. split; [exact Hu |].
      split; [reflexivity |]. split.
      * rewrite <- Huv. apply odict_get_id. simpl. lia.
      * intros st idx. split; [apply Hsp | apply Hval].
Qed.

Lemma apply_momentum_zero_witness :
  exists c e',
    apply_momentum 0 None (T.constant 0%R) None example_engine = (inr c, e') /\
    shared_values e'
    = shared_values example_engine
      ++ map (fun p => np_zeros_like (shared_values example_engine !!! sv_id p))
             (odict_keys (deref example_engine 0)) /\
    forall i p, odict_keys (deref example_engine 0) !! i = Some p ->
      exists u u' uv,
        odict_get (deref example_engine 0) p = Some u /\
        odict_get (deref e' c) p = Some u' /\
        odict_get (deref e' c)
                  (Shared (length (shared_values example_engine) + i) 0) = Some uv /\
        forall st idx,
          at_ u' st idx = at_ u st idx /\
          at_ uv st idx = (at_ u st idx - at_ p st idx)%R.
Proof.
  apply (apply_momentum_zero 0 None example_engine).
  - simpl. constructor; [simpl; tauto | constructor].
  - simpl. intros p [<- | []]. discriminate.
  - simpl. intros p [<- | []]. simpl. lia.
Defined.

(** ** Adam *)

Lemma pow_real_2 (x : R) : pow_real x 2 = (x * x)%R.
Proof.
  unfold pow_real. destruct (Rlt_dec 0 x) as [Hx | Hx].
  - change 2%R with (INR 2). rewrite Rpower_pow by exact Hx. simpl. ring.
  - replace (Int_part 2) with 2%Z.
    + destruct (Req_dec_T 2 2); [| contradiction]. simpl. ring.
    + change 2%R with (INR 2). rewrite Int_part_INR. reflexivity.
Qed.

(** A loop whose body never raises is a fold over the engine state. *)
Lemma for_each_map_pure {A B} (f : A -> B) (body : B -> M unit)
      (step : A -> engine -> engine) (xs : list A) (e : engine) :
  (forall x e, body (f x) e = (inr tt, step x e)) ->
  for_each (map f xs) body e = (inr tt, fold_left (fun e x => step x e) xs e).
Proof.
  intros Hb. revert e. induction xs as [| x xs IH]; intros e; simpl.
  - reflexivity.
  - unfold bind. rewrite Hb. apply IH.
Qed.

(** The same for a body that is only known not to raise on the
    elements of the list. *)
Lemma for_each_map_pure_in {A B} (f : A -> B) (body : B -> M unit)
      (step : A -> engine -> engine) (xs : list A) (e : engine) :
  (forall x e, In x xs -> body (f x) e = (inr tt, step x e)) ->
  for_each (map f xs) body e = (inr tt, fold_left (fun e x => step x e) xs e).
Proof.
  revert e. induction xs as [| x xs IH]; intros e Hb; simpl.
  - reflexivity.
  - unfold bind. rewrite Hb by (left; reflexivity).
    apply IH. intros y e0 Hy. apply Hb. right. exact Hy.
Qed.

Lemma zip_map_shared {B} (ps : list SharedVariable) (gs : list B) :
  zip (map OfShared ps) gs
  = map (fun pg : SharedVariable * B => (OfShared (fst pg), snd pg)) (zip ps gs).
Proof.
  revert gs. induction ps as [| p ps IH]; intros [| g gs]; simpl; try reflexivity.
  rewrite IH. reflexivity.
Qed.

Lemma adam_rounds (c : dref) (a_t beta1 beta2 epsilon : texpr)
      (pgs : list (SharedVariable * texpr)) (e : engine) :
  c < length (heap e) ->
  List.NoDup (map (fun pg => sv_id (fst pg)) pgs) ->
  (forall pg, In pg pgs -> sv_id (fst pg) < length (shared_values e)) ->
  let e' := fold_left (fun e pg => adam_round c a_t beta1 beta2 epsilon pg e) pgs e in
  length (heap e') = length (heap e) /\
  length (shared_values e') = length (shared_values e) + 2 * length pgs /\
  (exists new, shared_values e' = shared_values e ++ new) /\
  (forall k, sv_id k < length (shared_values e) ->
             ~ In (sv_id k) (map (fun pg => sv_id (fst pg)) pgs) ->
             odict_get (deref e' c) k = odict_get (deref e c) k) /\
  (forall i p g, pgs !! i = Some (p, g) ->
     adam_entries (deref e' c) (length (shared_values e) + 2 * i) p g
                  a_t beta1 beta2 epsilon).
Proof.
  revert e. induction pgs as [| [p g] pgs IH]; intros e Hc Hnd Hold.
  - simpl. repeat split; try lia.
    + exists []. rewrite app_nil_r. reflexivity.
    + intros i p g H. destruct i; discriminate H.
  - simpl map in Hnd. apply List.NoDup_cons_iff in Hnd as [Hp Hnd].
    simpl fold_left.
    set (e1 := adam_round c a_t beta1 beta2 epsilon (p, g) e).
    assert (Hpold : sv_id p < length (shared_values e)).
    { apply (Hold (p, g)). left. reflexivity. }
    assert (Hlen1 : length (shared_values e1) = length (shared_values e) + 2).
    { unfold e1, adam_round. simpl. rewrite !length_app. simpl. lia. }
    assert (Hheap1 : length (heap e1) = length (heap e)).
    { unfold e1, adam_round. simpl. rewrite !length_alter. reflexivity. }
    assert (Hd1 : forall k,
               odict_get (deref e1 c) k
               = if key_eqb p k then
                   odict_get (deref e1 c) p
                 else if Nat.eqb (S (length (shared_values e))) (sv_id k) then
                   odict_get (deref e1 c) (Shared (S (length (shared_values e))) 0)
                 else if Nat.eqb (length (shared_values e)) (sv_id k) then
                   odict_get (deref e1 c) (Shared (length (shared_values e)) 0)
                 else odict_get (deref e c) k).
    { intros k. destruct (key_eqb p k) eqn:E1.
      - apply odict_get_id. symmetry. apply key_eqb_eq. exact E1.
      - destruct (Nat.eqb_spec (S (length (shared_values e))) (sv_id k)) as [E2 | E2].
        + apply odict_get_id. simpl. auto.
        + destruct (Nat.eqb_spec (length (shared_values e)) (sv_id k)) as [E3 | E3].
          * apply odict_get_id. simpl. auto.
          * unfold e1, adam_round, deref. simpl.
            rewrite !list_lookup_total_alter_eq
              by (rewrite ?length_alter; exact Hc).
            rewrite !odict_get_set. rewrite E1. unfold key_eqb. simpl.
            rewrite length_app. simpl.
            replace (length (shared_values e) + 1) with (S (length (shared_values e))) by lia.
            apply Nat.eqb_neq in E2, E3. rewrite E2, E3. reflexivity. }
    destruct (IH e1) as [Hh [Hs [[new Hnew] [Hkeep Hent]]]].
    + rewrite Hheap1. exact Hc.
    + exact Hnd.
    + intros pg Hpg. rewrite Hlen1.
      assert (sv_id (fst pg) < length (shared_values e)) by (apply Hold; right; exact Hpg).
      lia.
    + cbv zeta in Hh, Hs, Hnew, Hkeep, Hent. cbv zeta.
      split; [rewrite Hh; exact Hheap1 |].
      split; [rewrite Hs, Hlen1; simpl; lia |].
      split.
      { eexists. rewrite Hnew. unfold e1, adam_round. simpl.
        rewrite <- !app_assoc. reflexivity. }
      split.
      * intros k Hk Hnk. simpl in Hnk.
        rewrite Hkeep; [| rewrite Hlen1; lia | tauto].
        rewrite Hd1.
        assert (E1 : key_eqb p k = false) by (apply key_eqb_neq; tauto).
        rewrite E1.
        destruct (Nat.eqb_spec (S (length (shared_values e))) (sv_id k)); [lia |].
        destruct (Nat.eqb_spec (length (shared_values e)) (sv_id k)); [lia |].
        reflexivity.
      * intros i q h Hq. destruct i as [| i].
        -- simpl in Hq. injection Hq as <- <-.
           replace (length (shared_values e) + 2 * 0) with (length (shared_values e)) by lia.
           assert (Hfresh : forall n, length (shared_values e) <= n ->
                      ~ In n (map (fun pg : SharedVariable * texpr => sv_id (fst pg)) pgs)).
           { intros n Hn Hin. apply in_map_iff in Hin as [pg [Hid Hpg]].
             assert (sv_id (fst pg) < length (shared_values e)) by (apply Hold; right; exact Hpg).
             lia. }
           unfold adam_entries.
           rewrite (Hkeep (Shared (length (shared_values e)) 0))
             by first [ rewrite Hlen1; simpl; lia | apply Hfresh; simpl; lia ].
           rewrite (Hkeep (Shared (S (length (shared_values e))) 0))
             by first [ rewrite Hlen1; simpl; lia | apply Hfresh; simpl; lia ].
           rewrite (Hkeep p) by first [ rewrite Hlen1; lia | exact Hp ].
           unfold e1, adam_round, deref. simpl.
           rewrite !list_lookup_total_alter_eq by (rewrite ?length_alter; exact Hc).
           rewrite !odict_get_set. unfold key_eqb. simpl. rewrite length_app. simpl.
           replace (length (shared_values e) + 1) with (S (length (shared_values e))) by lia.
           rewrite !Nat.eqb_refl.
           assert (Ep1 : Nat.eqb (sv_id p) (length (shared_values e)) = false)
             by (apply Nat.eqb_neq; lia).
           assert (Ep2 : Nat.eqb (sv_id p) (S (length (shared_values e))) = false)
             by (apply Nat.eqb_neq; lia).
           assert (Ep3 : Nat.eqb (S (length (shared_values e))) (length (shared_values e)) = false)
             by (apply Nat.eqb_neq; lia).
           rewrite Ep1, Ep2, Ep3.
           eexists _, _, _. split; [reflexivity |]. split; [reflexivity |].
           split; [reflexivity |].
           intros st idx. unfold at_, adam_m, adam_v. simpl.
           rewrite pow_real_2. repeat split; reflexivity.
        -- simpl in Hq. specialize (Hent i q h Hq).
           replace (length (shared_values e) + 2 * S i)
             with (length (shared_values e1) + 2 * i) by (rewrite Hlen1; lia).
           exact Hent.
Qed.

Lemma in_zip_fst {A B} (xs : list A) (ys : list B) (xy : A * B) :
  In xy (zip xs ys) -> In (fst xy) xs.
Proof.
  revert ys. induction xs as [| x xs IH]; intros [| y ys]; simpl; try tauto.
  intros [<- | H]; [left; reflexivity | right; eapply IH; exact H].
Qed.

Lemma NoDup_zip_ids {B} (ps : list SharedVariable) (gs : list B) :
  List.NoDup (map sv_id ps) ->
  List.NoDup (map (fun pg : SharedVariable * B => sv_id (fst pg)) (zip ps gs)).
Proof.
  revert gs. induction ps as [| p ps IH]; intros [| g gs] Hnd; simpl;
    try constructor.
  - simpl in Hnd. apply List.NoDup_cons_iff in Hnd as [Hp _].
    intros Hin. apply Hp. apply in_map_iff in Hin as [pg [Hid Hpg]].
    apply in_map_iff. exists (fst pg). split; [exact Hid |].
    eapply in_zip_fst. exact Hpg.
  - apply IH. simpl in Hnd. apply List.NoDup_cons_iff in Hnd. tauto.
Qed.

Section AdamFacts.

Variable differentiate : texpr -> variable -> texpr.
Variable name_of : variable -> option String.string.

Lemma existsb_shared_params (ps : list SharedVariable) :
  existsb (fun p => negb (is_SharedVariable p)) (map OfShared ps) = false.
Proof. induction ps as [| p ps IH]; simpl; auto. Qed.

Lemma get_or_compute_grads_shared (lg : loss_or_grads)
      (ps : list SharedVariable) (e : engine) :
  (forall gs, lg = Grads gs -> length gs = length ps) ->
  get_or_compute_grads differentiate lg (map OfShared ps) e
  = (inr (resolved_grads differentiate lg ps), e).
Proof.
  intros Hlen. unfold get_or_compute_grads. rewrite existsb_shared_params.
  destruct lg as [gs | l]; simpl; [| reflexivity].
  rewrite length_map, (Hlen gs eq_refl), Nat.eqb_refl. reflexivity.
Qed.

Lemma adam_a_t_first_step (lr beta1 beta2 : R) :
  adam_a_t lr beta1 beta2 0 = (lr * sqrt (1 - beta2) / (1 - beta1))%R.
Proof.
  unfold adam_a_t. replace (0 + 1)%R with 1%R by lra.
  rewrite !pow_real_1. reflexivity.
Qed.

(** C5.  For parameters that have names ([adam] builds the names of the
    moments from them and raises [TypeError] on a parameter without
    one), [adam] keeps one step counter, allocated with value 0 before
    the loop over the parameters and updated to [t + 1]; the factor
    [a_t = learning_rate * sqrt(1 - beta2^(t+1)) / (1 - beta1^(t+1))]
    is computed from it once and used for every parameter, and on the
    first step (counter 0) it is
    [learning_rate * sqrt(1 - beta2) / (1 - beta1)].  For the [i]-th
    parameter, with gradient [g] and the two moment cells allocated for
    it, the dictionary holds [m' = beta1*m + (1-beta1)*g],
    [v' = beta2*v + (1-beta2)*g^2] and
    [param' = param - a_t*m'/(sqrt(v') + epsilon)]. *)
Theorem adam_update (lg : loss_or_grads) (ps : list SharedVariable)
        (learning_rate : pyval) (beta1 beta2 epsilon : texpr) (e : engine) :
  List.NoDup (map sv_id ps) ->
  (forall p, In p ps -> sv_id p < length (shared_values e)) ->
  (forall p, In p ps -> name_of (OfShared p) <> None) ->
  (forall gs, lg = Grads gs -> length gs = length ps) ->
  let t_prev := length (shared_values e) in
  exists c e' ut,
    adam differentiate name_of lg (map OfShared ps) learning_rate
         (beta1, beta2, epsilon) default_decay_period default_decay_factor e
    = (inr c, e') /\
    shared_values e' !! t_prev = Some (scalar 0%R) /\
    odict_get (deref e' c) (Shared t_prev 0) = Some ut /\
    (forall st idx, at_ ut st idx = (data (st !!! t_prev) idx + 1)%R) /\
    (forall lr b1 b2 : R,
        adam_a_t lr b1 b2 0 = (lr * sqrt (1 - b2) / (1 - b1))%R) /\
    forall i p g,
      ps !! i = Some p -> resolved_grads differentiate lg ps !! i = Some g ->
      exists um uv up,
        odict_get (deref e' c) (Shared (t_prev + 1 + 2 * i) 0) = Some um /\
        odict_get (deref e' c) (Shared (t_prev + 2 + 2 * i) 0) = Some uv /\
        odict_get (deref e' c) p = Some up /\
        forall st idx,
          let a_t := adam_a_t (at_ learning_rate st idx) (at_ beta1 st idx)
                              (at_ beta2 st idx) (data (st !!! t_prev) idx) in
          at_ um st idx
          = adam_m (at_ beta1 st idx) (data (st !!! (t_prev + 1 + 2 * i)) idx)
                   (at_ g st idx) /\
          at_ uv st idx
          = adam_v (at_ beta2 st idx) (data (st !!! (t_prev + 2 + 2 * i)) idx)
                   (at_ g st idx) /\
          at_ up st idx
          = (at_ p st idx
             - a_t * at_ um st idx / (sqrt (at_ uv st idx) + at_ epsilon st idx))%R.
Proof.
  intros Hnd Hold Hnames Hlen t_prev.
  set (sv1 := shared_values e ++ [scalar 0%R]).
  set (c := length (heap e)).
  set (t := (read (Shared t_prev 0) + T.constant 1%R)%th).
  set (a_t := (as_expr learning_rate * T.sqrt (T.constant 1%R - beta2 ** t)
               / (T.constant 1%R - beta1 ** t))%th).
  set (pgs := zip ps (resolved_grads differentiate lg ps)).
  set (e2 := Engine sv1 (heap e ++ [[]])).
  set (e3 := fold_left (fun e pg => adam_round c a_t beta1 beta2 epsilon pg e) pgs e2).
  assert (Hc2 : c < length (heap e2)).
  { unfold e2. simpl. rewrite length_app. simpl. unfold c. lia. }
  destruct (adam_rounds c a_t beta1 beta2 epsilon pgs e2 Hc2) as [Hh [Hs [[new Hnew] [Hkeep Hent]]]].
  { apply NoDup_zip_ids. exact Hnd. }
  { intros pg Hpg. unfold e2, sv1. simpl. rewrite length_app. simpl.
    apply in_zip_fst in Hpg. specialize (Hold (fst pg) Hpg). lia. }
  fold e3 in Hh, Hs, Hnew, Hkeep, Hent.
  exists c, (Engine (shared_values e3)
                    (alter (odict_set (Shared t_prev 0) t) c (heap e3))), t.
  assert (Hfinal : forall k,
             odict_get (deref (Engine (shared_values e3)
                                      (alter (odict_set (Shared t_prev 0) t) c (heap e3))) c) k
             = if Nat.eqb t_prev (sv_id k) then Some t
               else odict_get (deref e3 c) k).
  { intros k. rewrite deref_alter by (rewrite Hh; exact Hc2).
    rewrite odict_get_set. reflexivity. }
  split; [| split; [| split; [| split; [| split]]]].
  - unfold adam. rewrite lr_decay_default.
    unfold adam_rule. unfold bind at 1.
    rewrite get_or_compute_grads_shared by exact Hlen.
    unfold bind at 1. unfold theano_shared at 1. simpl.
    unfold bind at 1. unfold OrderedDict at 1. simpl.
    fold t_prev. fold sv1. fold c. fold t. fold a_t. fold e2.
    unfold bind at 1.
    rewrite zip_map_shared. fold pgs.
    rewrite (for_each_map_pure_in
               (fun pg : SharedVariable * texpr => (OfShared (fst pg), snd pg))
               _ (adam_round c a_t beta1 beta2 epsilon) pgs e2).
    + fold e3. reflexivity.
    + intros [p g] e0 Hpg. apply in_zip_fst in Hpg. simpl in Hpg.
      specialize (Hnames p Hpg). simpl fst. simpl snd.
      unfold bind at 1. unfold get_value at 1. simpl.
      unfold bind at 1.
      destruct (name_of (OfShared p)) as [nm |]; [| contradiction].
      reflexivity.
  - simpl. rewrite Hnew. unfold e2, sv1. simpl. rewrite <- app_assoc.
    apply list_lookup_middle. reflexivity.
  - rewrite Hfinal. simpl. rewrite Nat.eqb_refl. reflexivity.
  - intros st idx. reflexivity.
  - apply adam_a_t_first_step.
  - intros i p g Hp Hg.
    assert (Hpg : pgs !! i = Some (p, g)).
    { unfold pgs. apply lookup_zip_Some. split; assumption. }
    assert (Hpin : In p ps).
    { apply list_elem_of_In. apply list_elem_of_lookup. eauto. }
    specialize (Hold p Hpin).
    destruct (Hent i p g Hpg) as [um [uv [up [Hum [Huv [Hup Hval]]]]]].
    assert (Hl : length (shared_values e2) = t_prev + 1).
    { unfold e2, sv1. simpl. rewrite length_app. reflexivity. }
    rewrite Hl in Hum, Huv, Hval.
    exists um, uv, up. rewrite !Hfinal. cbn [sv_id].
    destruct (Nat.eqb_spec t_prev (t_prev + 1 + 2 * i)) as [E | _]; [lia |].
    destruct (Nat.eqb_spec t_prev (t_prev + 2 + 2 * i)) as [E | _]; [lia |].
    destruct (Nat.eqb_spec t_prev (sv_id p)) as [E | _]; [unfold t_prev in E; lia |].
    split; [exact Hum |].
    split; [rewrite <- Huv; apply odict_get_id; simpl; lia |].
    split; [exact Hup |].
    intros st idx. destruct (Hval st idx) as [H1 [H2 H3]].
    split; [exact H1 |].
    split; [rewrite H2; replace (S (t_prev + 1 + 2 * i)) with (t_prev + 2 + 2 * i) by lia;
            reflexivity |].
    rewrite H3. reflexivity.
Qed.

End AdamFacts.

Lemma adam_update_witness :
  exists c e',
    adam (fun l _ => l) (fun _ => Some "w"%string)
         (Grads [T.constant 0.5%R]) (map OfShared [Shared 0 0])
         (PyFloat 0.001%R) (T.constant 0.9%R, T.constant 0.999%R, T.constant 1e-8%R)
         default_decay_period default_decay_factor example_engine
    = (inr c, e') /\
    shared_values e' !! 1 = Some (scalar 0%R).
Proof.
  destruct (adam_update (fun l _ => l) (fun _ => Some "w"%string)
                        (Grads [T.constant 0.5%R]) [Shared 0 0]
                        (PyFloat 0.001%R) (T.constant 0.9%R) (T.constant 0.999%R)
                        (T.constant 1e-8%R) example_engine)
    as [c [e' [ut [Hrun [Ht _]]]]].
  - simpl. constructor; [simpl; tauto | constructor].
  - simpl. intros p [<- | []]. simpl. lia.
  - intros p _. discriminate.
  - intros gs [= <-]. reflexivity.
  - exists c, e'. split; [exact Hrun | exact Ht].
Defined.

(** ** Cocob *)

Lemma cocob_rounds (c : dref) (alpha epsilon : texpr)
      (pgs : list (SharedVariable * texpr)) (e : engine) :
  c < length (heap e) ->
  List.NoDup (map (fun pg => sv_id (fst pg)) pgs) ->
  let e' := fold_left (fun e pg => cocob_round c alpha epsilon pg e) pgs e in
  length (heap e') = length (heap e) /\
  length (shared_values e') = length (shared_values e) + 4 * length pgs /\
  (forall k, ~ In (sv_id k) (map (fun pg => sv_id (fst pg)) pgs) ->
             odict_get (deref e' c) k = odict_get (deref e c) k) /\
  (forall i p g, pgs !! i = Some (p, g) ->
     cocob_entry (deref e' c) (length (shared_values e) + 4 * i) p g alpha epsilon).
Proof.
  revert e. induction pgs as [| [p g] pgs IH]; intros e Hc Hnd.
  - simpl. repeat split; try lia.
    intros i p g H. destruct i; discriminate H.
  - simpl map in Hnd. apply List.NoDup_cons_iff in Hnd as [Hp Hnd].
    simpl fold_left.
    set (e1 := cocob_round c alpha epsilon (p, g) e).
    assert (Hlen1 : length (shared_values e1) = length (shared_values e) + 4).
    { unfold e1, cocob_round. simpl. rewrite !length_app. simpl. lia. }
    assert (Hheap1 : length (heap e1) = length (heap e)).
    { unfold e1, cocob_round. simpl. rewrite !length_alter. reflexivity. }
    destruct (IH e1) as [Hh [Hs [Hkeep Hent]]].
    + rewrite Hheap1. exact Hc.
    + exact Hnd.
    + cbv zeta in Hh, Hs, Hkeep, Hent. cbv zeta.
      split; [rewrite Hh; exact Hheap1 |].
      split; [rewrite Hs, Hlen1; simpl; lia |]. split.
      * intros k Hnk. simpl in Hnk.
        rewrite Hkeep by tauto.
        unfold e1, cocob_round, deref. simpl.
        rewrite list_lookup_total_alter_eq by exact Hc.
        apply odict_get_set_other. tauto.
      * intros i q h Hq. destruct i as [| i].
        -- simpl in Hq. injection Hq as <- <-.
           replace (length (shared_values e) + 4 * 0) with (length (shared_values e)) by lia.
           unfold cocob_entry. rewrite (Hkeep p) by exact Hp.
           unfold e1, cocob_round, deref. simpl.
           rewrite list_lookup_total_alter_eq by exact Hc.
           rewrite odict_get_set_same.
           eexists. split; [reflexivity |].
           intros st idx. unfold at_, cocob_param_next, cocob_l_next. simpl.
           rewrite !length_app. simpl.
           replace (length (shared_values e) + 1 + 1) with (length (shared_values e) + 2) by lia.
           replace (length (shared_values e) + 2 + 1) with (length (shared_values e) + 3) by lia.
           reflexivity.
        -- simpl in Hq. specialize (Hent i q h Hq).
           replace (length (shared_values e) + 4 * S i)
             with (length (shared_values e1) + 4 * i) by (rewrite Hlen1; lia).
           exact Hent.
Qed.

Section CocobFacts.

Variable differentiate : texpr -> variable -> texpr.

(** The dictionary returned by [cocob] has no key but the parameters:
    none of the state cells [l], [g], [r], [s] is given a next value. *)
Lemma cocob_keys_are_parameters (lg : loss_or_grads) (ps : list SharedVariable)
      (alpha epsilon : texpr) (e : engine) (k : SharedVariable) :
  List.NoDup (map sv_id ps) ->
  (forall gs, lg = Grads gs -> length gs = length ps) ->
  ~ In (sv_id k) (map sv_id ps) ->
  exists c e',
    cocob differentiate lg (map OfShared ps) alpha epsilon e = (inr c, e') /\
    odict_get (deref e' c) k = None.
Proof.
  intros Hnd Hlen Hk.
  set (c := length (heap e)).
  set (pgs := zip ps (resolved_grads differentiate lg ps)).
  set (e2 := Engine (shared_values e) (heap e ++ [[]])).
  set (e3 := fold_left (fun e pg => cocob_round c alpha epsilon pg e) pgs e2).
  assert (Hc2 : c < length (heap e2)).
  { unfold e2. simpl. rewrite length_app. simpl. unfold c. lia. }
  destruct (cocob_rounds c alpha epsilon pgs e2 Hc2) as [_ [_ [Hkeep _]]].
  { apply NoDup_zip_ids. exact Hnd. }
  fold e3 in Hkeep.
  exists c, e3. split.
  - unfold cocob. unfold bind at 1.
    rewrite get_or_compute_grads_shared by exact Hlen.
    unfold bind at 1. unfold OrderedDict at 1. simpl.
    fold c. fold e2. unfold bind at 1.
    rewrite zip_map_shared. fold pgs.
    rewrite (for_each_map_pure
               (fun pg : SharedVariable * texpr => (OfShared (fst pg), snd pg))
               _ (cocob_round c alpha epsilon) pgs e2);
      [| intros [p g] e0; reflexivity].
    fold e3. reflexivity.
  - rewrite Hkeep.
    + unfold e2, deref. simpl. rewrite list_lookup_total_middle by reflexivity.
      reflexivity.
    + intros Hin. apply Hk. apply in_map_iff in Hin as [pg [Hid Hpg]].
      apply in_map_iff. exists (fst pg). split; [exact Hid |].
      eapply in_zip_fst. exact Hpg.
Qed.

End CocobFacts.

(** ** SGD with momentum on distinct parameters *)

Lemma odict_set_fresh (d : odict) (k : SharedVariable) (v : texpr) :
  odict_get d k = None -> odict_set k v d = d ++ [(k, v)].
Proof.
  induction d as [| [k0 v0] d IH]; simpl; [reflexivity |].
  destruct (key_eqb k0 k); [discriminate |].
  intros H. rewrite IH by exact H. reflexivity.
Qed.

Lemma key_ids_set (d : odict) (k : SharedVariable) (v : texpr) :
  key_ids (odict_set k v d)
  = if existsb (Nat.eqb (sv_id k)) (key_ids d) then key_ids d
    else key_ids d ++ [sv_id k].
Proof.
  unfold key_ids. induction d as [| [k0 v0] d IH]; simpl; [reflexivity |].
  unfold key_eqb. rewrite (Nat.eqb_sym (sv_id k) (sv_id k0)).
  destruct (Nat.eqb (sv_id k0) (sv_id k)); simpl; [reflexivity |].
  rewrite IH. destruct (existsb _ _); reflexivity.
Qed.

Lemma NoDup_key_ids_set (d : odict) (k : SharedVariable) (v : texpr) :
  List.NoDup (key_ids d) -> List.NoDup (key_ids (odict_set k v d)).
Proof.
  intros Hnd. rewrite key_ids_set.
  destruct (existsb (Nat.eqb (sv_id k)) (key_ids d)) eqn:E; [exact Hnd |].
  apply List.NoDup_app; [exact Hnd | constructor; [simpl; tauto | constructor] |].
  intros x Hx [<- | []].
  assert (existsb (Nat.eqb (sv_id k)) (key_ids d) = true).
  { apply existsb_exists. exists (sv_id k). split; [exact Hx | apply Nat.eqb_refl]. }
  congruence.
Qed.

Lemma sgd_fold (learning_rate : texpr) (pgs : list (SharedVariable * texpr))
      (d : odict) :
  List.NoDup (key_ids d ++ map (fun pg => sv_id (fst pg)) pgs) ->
  fold_left (fun d pg => odict_set (fst pg)
                           (read (fst pg) - learning_rate * snd pg)%th d) pgs d
  = d ++ sgd_dict learning_rate pgs.
Proof.
  revert d. induction pgs as [| [p g] pgs IH]; intros d Hnd; simpl.
  - rewrite app_nil_r. reflexivity.
  - assert (Hfresh : odict_get d p = None).
    { destruct (odict_get d p) as [u |] eqn:E; [| reflexivity].
      destruct (odict_get_In d p u E) as [k' [Hin Hid]].
      simpl in Hnd. apply List.NoDup_remove_2 in Hnd.
      exfalso. apply Hnd. apply in_or_app. left.
      rewrite <- Hid. apply (in_map (fun kv => sv_id (fst kv)) d (k', u)). exact Hin. }
    rewrite odict_set_fresh by exact Hfresh.
    rewrite IH.
    + rewrite <- app_assoc. reflexivity.
    + unfold key_ids in *. rewrite map_app. simpl. rewrite <- app_assoc. exact Hnd.
Qed.

Lemma sgd_rounds (c : dref) (learning_rate : texpr)
      (pgs : list (SharedVariable * texpr)) (e : engine) :
  c < length (heap e) ->
  fold_left (fun e pg => sgd_round c learning_rate pg e) pgs e
  = Engine (shared_values e)
           (alter (fun d => fold_left
                              (fun d pg => odict_set (fst pg)
                                 (read (fst pg) - learning_rate * snd pg)%th d)
                              pgs d) c (heap e)).
Proof.
  revert e. induction pgs as [| pg pgs IH]; intros e Hc; simpl.
  - destruct e as [sv h]. simpl. f_equal. symmetry. apply list_alter_id. reflexivity.
  - rewrite IH by (unfold sgd_round; simpl; rewrite length_alter; exact Hc).
    unfold sgd_round. simpl. rewrite list_alter_alter_eq. reflexivity.
Qed.

Section SgdFacts.

Variable differentiate : texpr -> variable -> texpr.

Lemma sgd_run (gs : list texpr) (ps : list SharedVariable)
    (learning_rate : pyval) (e : engine) :
List.NoDup (map sv_id ps) -> length gs = length ps ->
sgd differentiate (Grads gs) (map OfShared ps) learning_rate tt
    default_decay_period default_decay_factor e
= (inr (length (heap e)),
   Engine (shared_values e)
          (heap e ++ [sgd_dict (as_expr learning_rate) (zip ps gs)])).
Proof.
intros Hnd Hlen. unfold sgd. rewrite lr_decay_default.
unfold sgd_rule. unfold bind at 1.
rewrite get_or_compute_grads_shared by (intros gs' [= <-]; exact Hlen).
simpl resolved_grads.
unfold bind at 1. unfold OrderedDict at 1. simpl.
unfold bind at 1. rewrite zip_map_shared.
rewrite (for_each_map_pure
           (fun pg : SharedVariable * texpr => (OfShared (fst pg), snd pg))
           _ (sgd_round (length (heap e)) (as_expr learning_rate)) (zip ps gs));
  [| intros [p g] e0; reflexivity].
rewrite sgd_rounds by (simpl; rewrite length_app; simpl; lia).
simpl. rewrite alter_new. rewrite sgd_fold.
- reflexivity.
- simpl. apply NoDup_zip_ids. exact Hnd.
Qed.

End SgdFacts.

Lemma sgd_dict_keys (learning_rate : texpr) (ps : list SharedVariable)
      (gs : list texpr) :
  length gs = length ps ->
  odict_keys (sgd_dict learning_rate (zip ps gs)) = ps.
Proof.
  revert gs. unfold odict_keys, sgd_dict.
  induction ps as [| p ps IH]; intros [| g gs] Hlen; simpl in *; try discriminate;
    [reflexivity |].
  rewrite IH by lia. reflexivity.
Qed.

Lemma sgd_dict_get (learning_rate : texpr) (ps : list SharedVariable)
      (gs : list texpr) (i : nat) (p : SharedVariable) (g : texpr) :
  List.NoDup (map sv_id ps) -> ps !! i = Some p -> gs !! i = Some g ->
  odict_get (sgd_dict learning_rate (zip ps gs)) p
  = Some (read p - learning_rate * g)%th.
Proof.
  intros Hnd Hp Hg.
  apply (odict_get_NoDup_In _ p p).
  - unfold key_ids, sgd_dict. rewrite map_map. simpl.
    apply NoDup_zip_ids. exact Hnd.
  - unfold sgd_dict.
    apply (in_map (fun pg : SharedVariable * texpr =>
                     (fst pg, (read (fst pg) - learning_rate * snd pg)%th))
                  (zip ps gs) (p, g)).
    apply list_elem_of_In. apply list_elem_of_lookup. exists i.
    apply lookup_zip_Some. split; assumption.
  - reflexivity.
Qed.

Lemma apply_momentum_run (updates : dref) (params : option (list SharedVariable))
      (momentum : texpr) (e : engine) (d' : odict) :
  let d := deref e updates in
  let ps := match params with
            | Some ps => ps
            | None => odict_keys d
            end in
  let vs := fst (new_velocities (shared_values e) ps) in
  momentum_fold momentum (zip ps vs) (odict_of_items d) = Some d' ->
  apply_momentum updates (option_map (map OfShared) params) momentum None e
  = (inr (length (heap e)),
     Engine (snd (new_velocities (shared_values e) ps)) (heap e ++ [d'])).
Proof.
  intros d ps vs Hfold. unfold apply_momentum.
  assert (Hps : forall B (k : list variable -> M B),
             bind (match option_map (map OfShared) params with
                   | Some ps => ret ps
                   | None => dict_keys updates
                   end) k e = k (map OfShared ps) e).
  { intros B k. unfold ps, d. destruct params; reflexivity. }
  rewrite Hps. unfold bind at 1 2. unfold dict_items, OrderedDict. simpl.
  fold d. unfold bind at 1.
  rewrite list_comp_make_velocity. simpl. fold vs.
  unfold bind.
  change (for_each (zip (map OfShared ps) (map OfShared vs)) _)
    with (for_each (zip (map OfShared ps) (map OfShared vs))
                   (momentum_body momentum (length (heap e)))).
  rewrite (momentum_loop_run momentum (length (heap e)) ps vs _ d').
  - simpl. rewrite alter_new. reflexivity.
  - simpl. rewrite length_app. simpl. lia.
  - unfold deref. simpl. rewrite list_lookup_total_middle by reflexivity.
    exact Hfold.
Qed.

Lemma momentum_fold_distinct (momentum : texpr) (ps vs : list SharedVariable)
      (d : odict) :
  List.NoDup (map sv_id ps) -> List.NoDup (map sv_id vs) ->
  (forall p v, In p ps -> In v vs -> sv_id p <> sv_id v) ->
  (forall p, In p ps -> odict_get d p <> None) ->
  exists d',
    momentum_fold momentum (zip ps vs) d = Some d' /\
    (forall k, ~ In (sv_id k) (map sv_id ps) -> ~ In (sv_id k) (map sv_id vs) ->
               odict_get d' k = odict_get d k) /\
    (forall (i : nat) (p v : SharedVariable),
       ps !! i = Some p -> vs !! i = Some v ->
       exists u,
         odict_get d p = Some u /\
         odict_get d' p = Some (momentum * v + u)%th /\
         odict_get d' v = Some (momentum * v + u - p)%th) /\
    (List.NoDup (key_ids d) -> List.NoDup (key_ids d')).
Proof.
  revert vs d. induction ps as [| p ps IH]; intros vs d Hndp Hndv Hdisj Hkeys.
  - exists d. split; [reflexivity |]. split; [auto |]. split; [| auto].
    intros i p v Hp. destruct i; discriminate Hp.
  - destruct vs as [| v vs].
    + exists d. split; [reflexivity |]. split; [auto |]. split; [| auto].
      intros i q w _ Hw. destruct i; discriminate Hw.
    + simpl map in Hndp, Hndv.
      apply List.NoDup_cons_iff in Hndp as [Hp Hndp].
      apply List.NoDup_cons_iff in Hndv as [Hv Hndv].
      destruct (odict_get d p) as [u |] eqn:Hu;
        [| exfalso; apply (Hkeys p); [left; reflexivity | exact Hu]].
      assert (Hpv : sv_id p <> sv_id v) by (apply Hdisj; left; reflexivity).
      set (x := (momentum * v + u)%th).
      set (d1 := odict_set p x (odict_set v (x - p)%th d)).
      assert (Hd1 : forall k, odict_get d1 k
                              = if key_eqb p k then Some x
                                else if key_eqb v k then Some (x - p)%th
                                     else odict_get d k).
      { intros k. unfold d1. rewrite !odict_get_set. reflexivity. }
      destruct (IH vs d1) as [d' [Hfold [Hkeep [Hent Hnd']]]].
      * exact Hndp.
      * exact Hndv.
      * intros q w Hq Hw. apply Hdisj; right; assumption.
      * intros q Hq. rewrite Hd1. destruct (key_eqb p q); [discriminate |].
        destruct (key_eqb v q); [discriminate |]. apply Hkeys. right. exact Hq.
      * exists d'. split; [simpl; rewrite Hu; exact Hfold |].
        assert (Hp_vs : ~ In (sv_id p) (map sv_id vs)).
        { intros Hin. apply in_map_iff in Hin as [w [Hid Hw]].
          apply (Hdisj p w); [left; reflexivity | right; exact Hw | congruence]. }
        assert (Hv_ps : ~ In (sv_id v) (map sv_id ps)).
        { intros Hin. apply in_map_iff in Hin as [q [Hid Hq]].
          apply (Hdisj q v); [right; exact Hq | left; reflexivity | congruence]. }
        split; [| split].
        -- intros k Hkp Hkv. simpl in Hkp, Hkv.
           rewrite Hkeep by tauto. rewrite Hd1.
           assert (E1 : key_eqb p k = false) by (apply key_eqb_neq; tauto).
           assert (E2 : key_eqb v k = false) by (apply key_eqb_neq; tauto).
           rewrite E1, E2. reflexivity.
        -- intros i q w Hq Hw. destruct i as [| i].
           ++ simpl in Hq, Hw. injection Hq as <-. injection Hw as <-.
              exists u. split; [exact Hu |].
              rewrite !Hkeep by assumption. rewrite !Hd1.
              rewrite !key_eqb_refl.
              assert (E1 : key_eqb p v = false) by (apply key_eqb_neq; exact Hpv).
              rewrite E1. split; reflexivity.
           ++ simpl in Hq, Hw.
              destruct (Hent i q w Hq Hw) as [u1 [Hu1 [Hq' Hw']]].
              exists u1. split; [| split; assumption].
              rewrite Hd1 in Hu1.
              assert (Hqin : In q ps).
              { apply list_elem_of_In. apply list_elem_of_lookup. eauto. }
              assert (E1 : key_eqb p q = false).
              { apply key_eqb_neq. intros E. apply Hp. rewrite E.
                apply in_map. exact Hqin. }
              assert (E2 : key_eqb v q = false).
              { apply key_eqb_neq. intros E. symmetry in E. revert E.
                apply Hdisj; [right; exact Hqin | left; reflexivity]. }
              rewrite E1, E2 in Hu1. exact Hu1.
        -- intros Hnd. apply Hnd'. unfold d1.
           apply NoDup_key_ids_set. apply NoDup_key_ids_set. exact Hnd.
Qed.

Section MomentumFacts.

Variable differentiate : texpr -> variable -> texpr.

Lemma NoDup_key_ids_fold_set (items : list (SharedVariable * texpr)) (d : odict) :
List.NoDup (key_ids d) ->
List.NoDup (key_ids (fold_left (fun d kv => odict_set (fst kv) (snd kv) d) items d)).
Proof.
revert d. induction items as [| kv items IH]; intros d Hnd; simpl; [exact Hnd |].
apply IH. apply NoDup_key_ids_set. exact Hnd.
Qed.

(** [momentum] on a list of gradients and distinct, existing parameters:
  the SGD dictionary and then its copy with momentum are created, one
  velocity is allocated for each parameter, and the copy maps the
  [i]-th parameter to [momentum * velocity_i + (param - lr * grad)]. *)
Lemma momentum_run (gs : list texpr) (ps : list SharedVariable)
    (learning_rate : pyval) (mom : texpr) (e : engine) :
List.NoDup (map sv_id ps) ->
(forall p, In p ps -> sv_id p < length (shared_values e)) ->
length gs = length ps ->
exists dm,
  momentum differentiate (Grads gs) (map OfShared ps) learning_rate (mom, None)
           default_decay_period default_decay_factor e
  = (inr (S (length (heap e))),
     Engine (snd (new_velocities (shared_values e) ps))
            ((heap e ++ [sgd_dict (as_expr learning_rate) (zip ps gs)]) ++ [dm])) /\
  List.NoDup (key_ids dm) /\
  (forall k, ~ In (sv_id k) (map sv_id ps) -> sv_id k < length (shared_values e) ->
             odict_get dm k = None) /\
  (forall (i : nat) (p : SharedVariable) (g : texpr),
      ps !! i = Some p -> gs !! i = Some g ->
      exists v, sv_id v = length (shared_values e) + i /\
                odict_get dm p
                = Some (mom * v + (read p - as_expr learning_rate * g))%th).
Proof.
intros Hnd Hold Hlen.
set (ds := sgd_dict (as_expr learning_rate) (zip ps gs)).
set (e1 := Engine (shared_values e) (heap e ++ [ds])).
set (vs := fst (new_velocities (shared_values e) ps)).
assert (Hids : map sv_id vs = seq (length (shared_values e)) (length ps))
  by apply new_velocities_ids.
assert (Hds : deref e1 (length (heap e)) = ds).
{ unfold deref, e1. simpl. apply list_lookup_total_middle. reflexivity. }
assert (Hkeys : odict_keys ds = ps) by (apply sgd_dict_keys; exact Hlen).
assert (Hndds : List.NoDup (key_ids ds)).
{ unfold key_ids, ds, sgd_dict. rewrite map_map. simpl.
  apply NoDup_zip_ids. exact Hnd. }
assert (Hcopy : forall k, odict_get (odict_of_items ds) k = odict_get ds k).
{ intros k. apply odict_get_of_items. exact Hndds. }
destruct (momentum_fold_distinct mom ps vs (odict_of_items ds))
  as [dm [Hfold [Hkeep [Hent Hnddm]]]].
- exact Hnd.
- rewrite Hids. apply List.seq_NoDup.
- intros p v Hp Hv Heq.
  assert (Hin : In (sv_id v) (map sv_id vs)) by (apply in_map; exact Hv).
  rewrite Hids in Hin. apply in_seq in Hin. specialize (Hold p Hp). lia.
- intros p Hp. rewrite Hcopy.
  apply list_elem_of_In in Hp. apply list_elem_of_lookup in Hp as [i Hi].
  destruct (lookup_lt_is_Some_2 gs i) as [g Hg].
  { rewrite Hlen. apply lookup_lt_is_Some. eauto. }
  unfold ds. rewrite (sgd_dict_get _ ps gs i p g Hnd Hi Hg). discriminate.
- exists dm. split; [| split; [| split]].
  + unfold momentum. rewrite lr_decay_default.
    unfold momentum_rule. simpl fst. simpl snd. unfold bind.
    rewrite (sgd_run differentiate gs ps learning_rate e Hnd Hlen).
    fold ds. fold e1.
    pose proof (apply_momentum_run (length (heap e)) None mom e1 dm) as Hrun.
    cbv zeta in Hrun. rewrite Hds, Hkeys in Hrun.
    simpl option_map in Hrun. rewrite Hrun by exact Hfold.
    unfold e1. simpl. rewrite length_app. simpl.
    replace (length (heap e) + 1) with (S (length (heap e))) by lia.
    reflexivity.
  + apply Hnddm. unfold odict_of_items. apply NoDup_key_ids_fold_set. constructor.
  + intros k Hk Hlt. rewrite Hkeep.
    * rewrite Hcopy. destruct (odict_get ds k) as [u |] eqn:E; [| reflexivity].
      destruct (odict_get_In ds k u E) as [k' [Hin Hid]].
      exfalso. apply Hk. rewrite <- Hid, <- Hkeys. unfold odict_keys.
      rewrite map_map.
      apply (in_map (fun kv : SharedVariable * texpr => sv_id (fst kv)) ds (k', u)).
      exact Hin.
    * exact Hk.
    * rewrite Hids. intros Hin. apply in_seq in Hin. lia.
  + intros i p g Hp Hg.
    assert (Hlenv : length vs = length ps).
    { rewrite <- (length_map sv_id vs), Hids. apply length_seq. }
    destruct (lookup_lt_is_Some_2 vs i) as [v Hv].
    { rewrite Hlenv. apply lookup_lt_is_Some. eauto. }
    exists v. split.
    * assert (Hm : map sv_id vs !! i = Some (sv_id v)).
      { rewrite lookup_map, Hv. reflexivity. }
      rewrite Hids in Hm. apply lookup_seq in Hm. lia.
    * destruct (Hent i p v Hp Hv) as [u [Hu [Hpu _]]].
      rewrite Hcopy in Hu. unfold ds in Hu.
      rewrite (sgd_dict_get _ ps gs i p g Hnd Hp Hg) in Hu.
      injection Hu as <-. exact Hpu.
Qed.

End MomentumFacts.

(** ** The estimators of YellowFin *)

Lemma grows_refl (e : engine) : grows e e.
Proof. split; [reflexivity | exists []; rewrite app_nil_r; reflexivity]. Qed.

Lemma grows_trans (e1 e2 e3 : engine) : grows e1 e2 -> grows e2 e3 -> grows e1 e3.
Proof.
  intros [L1 [n1 S1]] [L2 [n2 S2]]. split; [congruence |].
  exists (n1 ++ n2). rewrite S2, S1, app_assoc. reflexivity.
Qed.

Lemma grows_length (e e' : engine) :
  grows e e' -> length (shared_values e) <= length (shared_values e').
Proof. intros [_ [new ->]]. rewrite length_app. lia. Qed.

Lemma bind_theano_shared {B} (v : tensor) (k : SharedVariable -> M B) (e : engine) :
  bind (theano_shared v) k e
  = k (Shared (length (shared_values e)) (length (shape v)))
      (Engine (shared_values e ++ [v]) (heap e)).
Proof. reflexivity. Qed.

Lemma bind_setitem {B} (c : dref) (s : SharedVariable) (v : texpr)
      (k : unit -> M B) (e : engine) :
  bind (dict_setitem c (OfShared s) v) k e
  = k tt (Engine (shared_values e) (alter (odict_set s v) c (heap e))).
Proof. reflexivity. Qed.

Lemma bind_getitem_hit {B} (c : dref) (s : SharedVariable) (k : texpr -> M B)
      (e : engine) (x : texpr) :
  odict_get (deref e c) s = Some x ->
  bind (dict_getitem c (OfShared s)) k e = k x e.
Proof. intros H. unfold bind, dict_getitem. rewrite H. reflexivity. Qed.

Lemma bind_get_value {B} (p : SharedVariable) (k : tensor -> M B) (e : engine) :
  bind (get_value (OfShared p)) k e = k (shared_values e !!! sv_id p) e.
Proof. reflexivity. Qed.

Lemma deref_alter_heap (sv : list tensor) (h : list (list (SharedVariable * texpr)))
      (c : dref) (f : list (SharedVariable * texpr) -> list (SharedVariable * texpr)) :
  c < length h ->
  deref (Engine sv (alter f c h)) c = f (deref (Engine sv h) c).
Proof.
  intros Hc. unfold deref. simpl. apply list_lookup_total_alter_eq. exact Hc.
Qed.

Lemma curvature_range_ok (grads : list texpr) (beta t : texpr) (c : dref) (window_width : nat)
      (e : engine) :
  c < length (heap e) ->
  exists hh e',
    curvature_range grads beta t c window_width e = (inr hh, e') /\ grows e e'.
Proof.
  intros Hc. unfold curvature_range.
  rewrite bind_theano_shared, bind_setitem.
  erewrite bind_getitem_hit;
    [| rewrite deref_alter_heap by exact Hc; apply odict_get_set_same].
  erewrite bind_getitem_hit;
    [| rewrite deref_alter_heap by exact Hc; apply odict_get_set_same].
  rewrite !bind_theano_shared, !bind_setitem. cbn [shared_values heap].
  erewrite bind_getitem_hit.
  2:{ rewrite !deref_alter_heap by (rewrite ?length_alter; exact Hc).
      rewrite odict_get_set_other
        by (cbn [sv_id]; rewrite !length_app; cbn [length]; lia).
      apply odict_get_set_same. }
  erewrite bind_getitem_hit.
  2:{ rewrite !deref_alter_heap by (rewrite ?length_alter; exact Hc).
      apply odict_get_set_same. }
  eexists _, _. split; [reflexivity |]. split.
  - cbn [heap]. rewrite !length_alter. reflexivity.
  - cbn [shared_values]. eexists. rewrite <- !app_assoc. reflexivity.
Qed.

Lemma distance_to_optim_ok (grads : list texpr) (beta : texpr) (c : dref)
      (e : engine) :
  c < length (heap e) ->
  exists d e', distance_to_optim grads beta c e = (inr d, e') /\ grows e e'.
Proof.
  intros Hc. unfold distance_to_optim.
  rewrite !bind_theano_shared, !bind_setitem. cbn [shared_values heap].
  erewrite bind_getitem_hit.
  2:{ rewrite !deref_alter_heap by (rewrite ?length_alter; exact Hc).
      rewrite odict_get_set_other
        by (cbn [sv_id]; rewrite !length_app; cbn [length]; lia).
      apply odict_get_set_same. }
  erewrite bind_getitem_hit.
  2:{ rewrite !deref_alter_heap by (rewrite ?length_alter; exact Hc).
      apply odict_get_set_same. }
  rewrite bind_setitem. cbn [shared_values heap].
  eexists _, _. split.
  - unfold dict_getitem.
    rewrite !deref_alter_heap by (rewrite ?length_alter; exact Hc).
    rewrite odict_get_set_same. reflexivity.
  - split.
    + cbn [heap]. rewrite !length_alter. reflexivity.
    + cbn [shared_values]. eexists. rewrite <- !app_assoc. reflexivity.
Qed.

Lemma for_fold_cons {A B} (x : A) (xs : list A) (acc : B) (body : B -> A -> M B)
      (e : engine) :
  for_fold (x :: xs) acc body e
  = bind (body acc x) (fun acc' => for_fold xs acc' body) e.
Proof. reflexivity. Qed.

Lemma gradient_variance_loop_ok (beta : texpr) (c : dref)
      (pgs : list (SharedVariable * texpr)) (norm : texpr) (e : engine) :
  c < length (heap e) ->
  exists r e',
    for_fold (map (fun pg : SharedVariable * texpr => (OfShared (fst pg), snd pg)) pgs)
             norm
             (fun norm pg =>
                let p := fst pg in
                let g := snd pg in
                let! value := get_value p in
                let! mom1 := theano_shared (np_zeros_like value) in
                let! mom2 := theano_shared (np_zeros_like value) in
                let! _ := dict_setitem c (OfShared mom1) (ema beta mom1 g None None) in
                let! _ := dict_setitem c (OfShared mom2)
                                       (ema beta mom2 (T.sqr g) None None) in
                let! new_mom2 := dict_getitem c (OfShared mom2) in
                let! new_mom1 := dict_getitem c (OfShared mom1) in
                ret (norm + T.sum (T.abs_ (new_mom2 - T.sqr new_mom1)))%th) e
    = (inr r, e') /\ grows e e'.
Proof.
  revert norm e. induction pgs as [| [p g] pgs IH]; intros norm e Hc.
  - exists norm, e. split; [reflexivity | apply grows_refl].
  - cbn [map]. rewrite for_fold_cons. cbv beta zeta. cbn [fst snd].
    unfold bind at 1.
    rewrite bind_get_value, !bind_theano_shared, !bind_setitem.
    cbn [shared_values heap].
    erewrite bind_getitem_hit.
    2:{ rewrite !deref_alter_heap by (rewrite ?length_alter; exact Hc).
        apply odict_get_set_same. }
    erewrite bind_getitem_hit.
    2:{ rewrite !deref_alter_heap by (rewrite ?length_alter; exact Hc).
        rewrite odict_get_set_other
          by (cbn [sv_id]; rewrite !length_app; cbn [length]; lia).
        apply odict_get_set_same. }
    unfold ret at 1.
    match goal with
    | |- exists r e', for_fold _ ?n _ ?e1 = _ /\ _ =>
        destruct (IH n e1) as [r [e' [Hrun Hg]]]
    end.
    + cbn [heap]. rewrite !length_alter. exact Hc.
    + exists r, e'. split; [exact Hrun |].
      eapply grows_trans; [| exact Hg]. split.
      * cbn [heap]. rewrite !length_alter. reflexivity.
      * cbn [shared_values]. eexists. rewrite <- !app_assoc. reflexivity.
Qed.

Lemma gradient_variance_ok (grads : list texpr) (ps : list SharedVariable)
      (beta : texpr) (c : dref) (e : engine) :
  c < length (heap e) ->
  exists r e',
    gradient_variance grads (map OfShared ps) beta c e = (inr r, e') /\ grows e e'.
Proof.
  intros Hc. unfold gradient_variance. rewrite zip_map_shared.
  apply gradient_variance_loop_ok. exact Hc.
Qed.

(** ** YellowFin: the closed-form solve *)

Lemma print_values_if (debug : bool) (x : texpr) :
  (if debug then theano_print_values x else x) = x.
Proof. destruct debug; reflexivity. Qed.

Lemma odict_get_update (d dm : list (SharedVariable * texpr)) (k : SharedVariable) :
  List.NoDup (key_ids dm) ->
  odict_get (odict_update d dm) k
  = match odict_get dm k with
    | Some v => Some v
    | None => odict_get d k
    end.
Proof.
  intros Hnd. unfold odict_update. rewrite odict_get_fold_set.
  rewrite odict_get_rev by exact Hnd. reflexivity.
Qed.

Section YellowFinFacts.

Variable differentiate : texpr -> variable -> texpr.

Lemma resolved_grads_length (lg : loss_or_grads) (ps : list SharedVariable) :
(forall gs, lg = Grads gs -> length gs = length ps) ->
length (resolved_grads differentiate lg ps) = length ps.
Proof.
intros H. destruct lg as [gs | l]; simpl.
- apply H. reflexivity.
- unfold theano_grad. rewrite !length_map. reflexivity.
Qed.

(** The part of [yellow_fin] after the estimators. *)
Lemma yellow_fin_finish (grads : list texpr) (ps : list SharedVariable)
    (alpha mu : SharedVariable) (ua um : texpr) (c : dref) (e : engine) :
List.NoDup (map sv_id ps) ->
(forall p, In p ps -> sv_id p < length (shared_values e)) ->
(forall p, In p ps -> sv_id p <> sv_id alpha /\ sv_id p <> sv_id mu) ->
sv_id alpha < length (shared_values e) ->
sv_id mu < length (shared_values e) ->
sv_id alpha <> sv_id mu ->
length grads = length ps ->
c < length (heap e) ->
exists e',
  (let! _ := dict_setitem c (OfShared mu) um in
   let! _ := dict_setitem c (OfShared alpha) ua in
   let! new_alpha := dict_getitem c (OfShared alpha) in
   let! new_mu := dict_getitem c (OfShared mu) in
   let! m := momentum differentiate (Grads grads) (map OfShared ps)
                      (PyVar (OfExpr new_alpha)) (new_mu, None)
                      default_decay_period default_decay_factor in
   let! _ := dict_update c m in
   ret c) e = (inr c, e') /\
  (exists new, shared_values e' = shared_values e ++ new) /\
  odict_get (deref e' c) mu = Some um /\
  odict_get (deref e' c) alpha = Some ua /\
  forall (i : nat) (p : SharedVariable) (g : texpr),
    ps !! i = Some p -> grads !! i = Some g ->
    exists v, sv_id v = length (shared_values e) + i /\
              odict_get (deref e' c) p
              = Some (um * v + (read p - ua * g))%th.
Proof.
intros Hnd Hold Hpk Ha Hm Ham Hlen Hc.
rewrite !bind_setitem.
set (h5 := alter (odict_set alpha ua) c (alter (odict_set mu um) c (heap e))).
set (e5 := Engine (shared_values e) h5).
assert (Hc5 : c < length h5) by (unfold h5; rewrite !length_alter; exact Hc).
assert (Hd5 : deref e5 c = odict_set alpha ua (odict_set mu um (deref e c))).
{ unfold e5, h5. rewrite !deref_alter_heap by (rewrite ?length_alter; exact Hc).
  reflexivity. }
cbn [shared_values heap]. fold h5. fold e5.
rewrite (bind_getitem_hit c alpha _ e5 ua)
  by (rewrite Hd5; apply odict_get_set_same).
rewrite (bind_getitem_hit c mu _ e5 um)
  by (rewrite Hd5, odict_get_set_other by exact Ham; apply odict_get_set_same).
destruct (momentum_run differentiate grads ps (PyVar (OfExpr ua)) um e5 Hnd Hold Hlen)
  as [dm [Hrun [Hnddm [Hnone Hent]]]].
unfold bind at 1. rewrite Hrun.
unfold bind, dict_update, ret. cbn [shared_values heap].
change (heap e5) with h5.
set (h6 := (h5 ++ [sgd_dict (as_expr (PyVar (OfExpr ua))) (zip ps grads)]) ++ [dm]).
set (sv6 := snd (new_velocities (shared_values e5) ps)).
assert (Hdm : deref (Engine sv6 h6) (S (length h5)) = dm).
{ unfold deref, h6. cbn [heap]. apply list_lookup_total_middle.
  rewrite length_app. simpl. lia. }
rewrite Hdm.
assert (Hc6 : c < length h6).
{ unfold h6. rewrite !length_app. lia. }
assert (Hfinal : deref (Engine sv6 (alter (fun d => odict_update d dm) c h6)) c
                 = odict_update (deref e5 c) dm).
{ rewrite deref_alter_heap by exact Hc6. f_equal.
  unfold deref, h6, e5. cbn [heap].
  rewrite !lookup_total_app_l; [reflexivity | exact Hc5 |].
  rewrite length_app. lia. }
eexists. split; [reflexivity |]. rewrite Hfinal.
split; [| split; [| split]].
- cbn [shared_values]. unfold sv6.
  rewrite new_velocities_store by exact Hold. eexists. reflexivity.
- rewrite odict_get_update by exact Hnddm.
  rewrite Hnone.
  + rewrite Hd5, odict_get_set_other by exact Ham. apply odict_get_set_same.
  + intros Hin. apply in_map_iff in Hin as [p [Hid Hp]].
    destruct (Hpk p Hp) as [_ H]. congruence.
  + exact Hm.
- rewrite odict_get_update by exact Hnddm.
  rewrite Hnone.
  + rewrite Hd5. apply odict_get_set_same.
  + intros Hin. apply in_map_iff in Hin as [p [Hid Hp]].
    destruct (Hpk p Hp) as [H _]. congruence.
  + exact Ha.
- intros i p g Hp Hg. destruct (Hent i p g Hp Hg) as [v [Hv Hget]].
  exists v. split; [exact Hv |].
  rewrite odict_get_update by exact Hnddm. rewrite Hget. reflexivity.
Qed.

End YellowFinFacts.

Lemma yellow_fin_mu_sqrt_value (d h_min h_max c : texpr) (st : list tensor)
      (idx : list nat) :
  at_ (yellow_fin_mu_sqrt d h_min h_max c) st idx
  = yf_mu_sqrt (at_ d st idx) (at_ h_min st idx) (at_ h_max st idx) (at_ c st idx).
Proof. reflexivity. Qed.

Lemma ema_plain_value (beta s x : texpr) (st : list tensor) (idx : list nat) :
  at_ (ema beta s x None None) st idx
  = ema_plain (at_ beta st idx) (at_ s st idx) (at_ x st idx).
Proof.
  unfold ema, exponential_moving_average, ema_plain, at_, th_fx. simpl. lra.
Qed.

Lemma bind_run {A B} (m : M A) (k : A -> M B) (e e1 : engine) (a : A) :
  m e = (inr a, e1) -> bind m k e = k a e1.
Proof. intros H. unfold bind. rewrite H. reflexivity. Qed.

Section YellowFinTheorem.

Variable differentiate : texpr -> variable -> texpr.

Lemma yellow_fin_prelude {B} (learning_rate_init momentum_init : R)
    (t : option texpr) (e : engine) (k : texpr -> M B) :
bind (match t with
      | None =>
          let! t := theano_shared (scalar 0%R) in
          let! _ := dict_setitem (length (heap e)) (OfShared t) (t + 1%R)%th in
          ret (read t)
      | Some t => ret t
      end) k
     (Engine ((shared_values e ++ [scalar learning_rate_init])
                ++ [scalar momentum_init])
             (heap e ++ [[]]))
= k (fst (yellow_fin_start learning_rate_init momentum_init t e))
    (snd (yellow_fin_start learning_rate_init momentum_init t e)).
Proof.
destruct t as [t |]; [reflexivity |].
unfold bind at 1. rewrite bind_theano_shared, bind_setitem.
cbn [shared_values heap]. rewrite alter_new. reflexivity.
Qed.

(** C6. [yellow_fin] calls its three estimators, which return the
  estimates [h_max], [h_min], [c] and [d], and from them maps the
  momentum cell [mu] to [ema(beta, mu, mu_t)] and the learning-rate
  cell [alpha] to [ema(beta, alpha, alpha_t)], where [mu_t] and
  [alpha_t] are the closed form [p = d^2 h_min^2 / (2c)],
  [w3 = p (sqrt(0.25 + p/27) - 0.5)], [w = w3^(1/3)],
  [y = w - p/(3w)], [mu_sqrt = max(y + 1, (sqrt h_max - sqrt h_min) /
  (sqrt h_max + sqrt h_min))], [alpha_t = (1 - mu_sqrt)^2 / h_min],
  [mu_t = mu_sqrt^2].  The two smoothed expressions are the momentum
  and the learning rate of the momentum rule: each parameter is mapped
  to [mu' * velocity + (param - alpha' * grad)]. *)
Theorem yellow_fin_closed_form (lg : loss_or_grads) (ps : list SharedVariable)
      (beta : texpr) (learning_rate_init momentum_init : R)
      (t : option texpr) (window_width : nat) (debug : bool) (e : engine) :
List.NoDup (map sv_id ps) ->
(forall p, In p ps -> sv_id p < length (shared_values e)) ->
(forall gs, lg = Grads gs -> length gs = length ps) ->
let alpha := length (shared_values e) in
let mu := S (length (shared_values e)) in
let c := length (heap e) in
let grads := resolved_grads differentiate lg ps in
let start := yellow_fin_start learning_rate_init momentum_init t e in
exists h_max h_min cc d e_b e_c e_d e' um ua,
  curvature_range grads beta (fst start) c window_width (snd start)
  = (inr (h_max, h_min), e_b) /\
  gradient_variance grads (map OfShared ps) beta c e_b = (inr cc, e_c) /\
  distance_to_optim grads beta c e_c = (inr d, e_d) /\
  yellow_fin differentiate lg (map OfShared ps) beta learning_rate_init
             momentum_init t window_width debug e = (inr c, e') /\
  shared_values e' !! alpha = Some (scalar learning_rate_init) /\
  shared_values e' !! mu = Some (scalar momentum_init) /\
  odict_get (deref e' c) (Shared mu 0) = Some um /\
  odict_get (deref e' c) (Shared alpha 0) = Some ua /\
  (forall st idx,
      at_ um st idx
      = ema_plain (at_ beta st idx) (data (st !!! mu) idx)
                  (yf_mu_t (at_ d st idx) (at_ h_min st idx)
                           (at_ h_max st idx) (at_ cc st idx)) /\
      at_ ua st idx
      = ema_plain (at_ beta st idx) (data (st !!! alpha) idx)
                  (yf_alpha_t (at_ d st idx) (at_ h_min st idx)
                              (at_ h_max st idx) (at_ cc st idx))) /\
  forall (i : nat) (p : SharedVariable) (g : texpr),
    ps !! i = Some p -> grads !! i = Some g ->
    exists up,
      odict_get (deref e' c) p = Some up /\
      forall st idx,
        at_ up st idx
        = (at_ um st idx * data (st !!! (length (shared_values e_d) + i)%nat) idx
           + (at_ p st idx - at_ ua st idx * at_ g st idx))%R.
Proof.
intros Hnd Hold Hlen alpha mu c grads start.
assert (Hstart_heap : c < length (heap (snd start))).
{ unfold start, yellow_fin_start. destruct t; cbn [snd heap];
    rewrite length_app; simpl; unfold c; lia. }
assert (Hstart_sv : exists new,
           shared_values (snd start)
           = ((shared_values e ++ [scalar learning_rate_init])
                ++ [scalar momentum_init]) ++ new).
{ unfold start, yellow_fin_start. destruct t; cbn [snd shared_values].
  - exists []. rewrite app_nil_r. reflexivity.
  - eexists. reflexivity. }
destruct (curvature_range_ok grads beta (fst start) c window_width (snd start)
                             Hstart_heap) as [[h_max h_min] [e_b [Hcr Hgb]]].
assert (Hcb : c < length (heap e_b)) by (destruct Hgb as [-> _]; exact Hstart_heap).
destruct (gradient_variance_ok grads ps beta c e_b Hcb) as [cc [e_c [Hgv Hgc]]].
assert (Hcc : c < length (heap e_c)) by (destruct Hgc as [-> _]; exact Hcb).
destruct (distance_to_optim_ok grads beta c e_c Hcc) as [d [e_d [Hdo Hgd]]].
assert (Hcd : c < length (heap e_d)) by (destruct Hgd as [-> _]; exact Hcc).
assert (Hsvd : exists new,
           shared_values e_d
           = ((shared_values e ++ [scalar learning_rate_init])
                ++ [scalar momentum_init]) ++ new).
{ destruct Hstart_sv as [n0 H0]. destruct Hgb as [_ [n1 H1]].
  destruct Hgc as [_ [n2 H2]]. destruct Hgd as [_ [n3 H3]].
  exists (((n0 ++ n1) ++ n2) ++ n3). rewrite H3, H2, H1, H0.
  rewrite <- !app_assoc. reflexivity. }
destruct Hsvd as [newd Hsvd].
assert (Hlend : S (S (length (shared_values e))) <= length (shared_values e_d)).
{ rewrite Hsvd, !length_app. simpl. lia. }
set (um := ema beta (read (Shared mu 0))
               (yellow_fin_mu_t d h_min h_max cc) None None).
set (ua := ema beta (read (Shared alpha 0))
               (yellow_fin_alpha_t d h_min h_max cc) None None).
destruct (yellow_fin_finish differentiate grads ps (Shared alpha 0) (Shared mu 0)
                            ua um c e_d Hnd)
  as [e' [Hfin [[new Hnew] [Hum [Hua Hent]]]]].
{ intros p Hp. specialize (Hold p Hp). lia. }
{ intros p Hp. specialize (Hold p Hp). simpl. unfold alpha, mu. lia. }
{ simpl. unfold alpha. lia. }
{ simpl. unfold mu. lia. }
{ simpl. unfold alpha, mu. lia. }
{ apply resolved_grads_length. exact Hlen. }
{ exact Hcd. }
exists h_max, h_min, cc, d, e_b, e_c, e_d, e', um, ua.
split; [exact Hcr |]. split; [exact Hgv |]. split; [exact Hdo |].
split; [| split; [| split; [| split; [| split; [| split]]]]].
- unfold yellow_fin.
  rewrite (bind_run _ _ e e _ (get_or_compute_grads_shared differentiate lg ps e Hlen)).
  fold grads.
  unfold bind at 1. unfold OrderedDict at 1. cbn [shared_values heap]. fold c.
  unfold floatX. unfold bind at 1. unfold ret at 1.
  rewrite bind_theano_shared. cbn [shared_values heap].
  unfold bind at 1. unfold ret at 1.
  rewrite bind_theano_shared. cbn [shared_values heap].
  unfold c at 1.
  rewrite (yellow_fin_prelude learning_rate_init momentum_init t e).
  fold start. fold c.
  rewrite (bind_run _ _ _ _ _ Hcr). cbn [fst snd].
  rewrite (bind_run _ _ _ _ _ Hgv).
  rewrite (bind_run _ _ _ _ _ Hdo).
  cbv zeta. rewrite !print_values_if.
  rewrite !length_app. cbn [length]. rewrite !Nat.add_1_r.
  exact Hfin.
- rewrite Hnew, Hsvd. rewrite <- !app_assoc. apply list_lookup_middle. reflexivity.
- rewrite Hnew, Hsvd.
  replace ((((shared_values e ++ [scalar learning_rate_init])
               ++ [scalar momentum_init]) ++ newd) ++ new)
    with ((shared_values e ++ [scalar learning_rate_init])
            ++ scalar momentum_init :: (newd ++ new))
    by (rewrite <- !app_assoc; reflexivity).
  apply list_lookup_middle. rewrite length_app. simpl. unfold mu. lia.
- exact Hum.
- exact Hua.
- intros st idx. unfold um, ua. rewrite !ema_plain_value. split; reflexivity.
- intros i p g Hp Hg. destruct (Hent i p g Hp Hg) as [v [Hv Hget]].
  eexists. split; [exact Hget |].
  intros st idx. unfold at_. simpl. rewrite Hv. reflexivity.
Qed.

End YellowFinTheorem.

Lemma yellow_fin_closed_form_witness :
  exists c e',
    yellow_fin (fun l _ => l) (Grads [T.constant 0.5%R]) (map OfShared [Shared 0 0])
               (T.constant 0.9%R) 0.01%R 0%R None 20 false example_engine
    = (inr c, e') /\
    shared_values e' !! 1 = Some (scalar 0.01%R) /\
    shared_values e' !! 2 = Some (scalar 0%R).
Proof.
  destruct (yellow_fin_closed_form (fun l _ => l) (Grads [T.constant 0.5%R])
              [Shared 0 0] (T.constant 0.9%R) 0.01%R 0%R None 20 false
              example_engine)
    as (h_max & h_min & cc & d & e_b & e_c & e_d & e' & um & ua
        & _ & _ & _ & Hrun & Ha & Hm & _).
  - simpl. constructor; [simpl; tauto | constructor].
  - simpl. intros p [<- | []]. simpl. lia.
  - intros gs [= <-]. reflexivity.
  - exists (length (heap example_engine)), e'.
    split; [exact Hrun |]. split; [exact Ha | exact Hm].
Defined.

(** * Further properties of the update rules *)

(** ** More on the exponential moving average *)

Lemma ramp_factor_ge_1 (T t : R) :
  (1 <= T)%R -> (T <= t)%R -> (1 <= (T - 1) * t / (T * T) + / T)%R.
Proof.
  intros HT Ht.
  assert (HT0 : (0 < T)%R) by lra.
  assert (Hinv : (0 < / T)%R) by (apply Rinv_0_lt_compat; exact HT0).
  assert (H1 : ((T - 1) * T <= (T - 1) * t)%R) by (apply Rmult_le_compat_l; lra).
  assert (H2 : ((T - 1) * T / (T * T) <= (T - 1) * t / (T * T))%R).
  { unfold Rdiv. apply Rmult_le_compat_r; [| exact H1].
    left. apply Rinv_0_lt_compat. nra. }
  replace ((T - 1) * T / (T * T))%R with ((T - 1) / T)%R in H2 by (field; lra).
  replace 1%R with ((T - 1) / T + / T)%R at 1 by (field; lra).
  lra.
Qed.

Lemma ema_value (alpha s_t x_t : texpr) (t : option texpr)
      (init_period : option Z) (st : store) (i : index) :
  at_ (ema alpha s_t x_t t init_period) st i
  = ema_code (at_ alpha st i) (at_ s_t st i) (at_ x_t st i)
             (option_map (fun t => at_ t st i) t) init_period.
Proof.
  unfold ema, exponential_moving_average, ema_code, at_, th_fx.
  destruct t as [t |]; [destruct init_period as [T |] |]; simpl.
  - destruct (0 <? T)%Z; simpl; [unfold ema_ramp; lra | reflexivity].
  - reflexivity.
  - unfold ema_plain. lra.
Qed.

(** X1.  In the ramp mode of [ema] (a step [t] and an [init_period = T > 0]) the
    smoothing coefficient starts at [alpha / T]: at [t = 0] the result is
    [(alpha/T) * s + (1 - alpha/T) * x].  From [t >= T] on the ramp has
    ended and the result is that of the plain mode,
    [alpha * s + (1 - alpha) * x]. *)
Theorem ema_ramp_endpoints (alpha s_t x_t t : texpr) (T : Z)
        (st : store) (i : index) :
  (0 < T)%Z ->
  (at_ t st i = 0%R ->
   at_ (ema alpha s_t x_t (Some t) (Some T)) st i
   = ema_plain (at_ alpha st i / IZR T) (at_ s_t st i) (at_ x_t st i)) /\
  ((IZR T <= at_ t st i)%R ->
   at_ (ema alpha s_t x_t (Some t) (Some T)) st i
   = at_ (ema alpha s_t x_t None None) st i).
Proof.
  intros HT.
  assert (HT1 : (1 <= IZR T)%R) by (apply IZR_le; lia).
  rewrite !ema_value. simpl. apply Z.ltb_lt in HT. rewrite HT.
  unfold ema_ramp, ema_plain. split.
  - intros ->.
    assert (Hinv : (0 < / IZR T)%R) by (apply Rinv_0_lt_compat; lra).
    assert (Hle : (/ IZR T <= 1)%R).
    { rewrite <- Rinv_1. apply Rinv_le_contravar; lra. }
    replace ((IZR T - 1) * 0 / (IZR T * IZR T) + / IZR T)%R with (/ IZR T)%R
      by (unfold Rdiv; ring).
    rewrite Rmin_right by exact Hle. unfold Rdiv. reflexivity.
  - intros Ht. rewrite Rmin_left by (apply ramp_factor_ge_1; assumption).
    rewrite Rmult_1_r. reflexivity.
Qed.

Lemma ema_ramp_endpoints_witness :
  (at_ (T.constant 0%R) [] [] = 0%R ->
   at_ (ema 0.9%R 0%R 1%R (Some (T.constant 0%R)) (Some 10%Z)) [] []
   = ema_plain (at_ (T.constant 0.9%R) [] [] / IZR 10) (at_ (T.constant 0%R) [] [])
               (at_ (T.constant 1%R) [] [])) /\
  ((IZR 10 <= at_ (T.constant 0%R) [] [])%R ->
   at_ (ema 0.9%R 0%R 1%R (Some (T.constant 0%R)) (Some 10%Z)) [] []
   = at_ (ema 0.9%R 0%R 1%R None None) [] []).
Proof.
  apply (ema_ramp_endpoints 0.9%R 0%R 1%R (T.constant 0%R) 10 [] []). lia.
Defined.

Lemma convex_between (a s x : R) :
  (0 <= a <= 1)%R ->
  (Rmin s x <= a * s + (1 - a) * x <= Rmax s x)%R.
Proof.
  intros [H0 H1].
  pose proof (Rmin_l s x). pose proof (Rmin_r s x).
  pose proof (Rmax_l s x). pose proof (Rmax_r s x).
  split; nra.
Qed.

(** X2.  With [0 <= alpha <= 1] the moving average is a convex combination
    of the state and the observation: in the plain mode (no step given),
    and in the ramp mode with [init_period > 0] at a step [t >= 0], the
    result lies between the smaller and the larger of the two. *)
Theorem ema_between (alpha s_t x_t : texpr) (st : store) (i : index) :
  (0 <= at_ alpha st i <= 1)%R ->
  let lo := Rmin (at_ s_t st i) (at_ x_t st i) in
  let hi := Rmax (at_ s_t st i) (at_ x_t st i) in
  (forall init_period : option Z,
      (lo <= at_ (ema alpha s_t x_t None init_period) st i <= hi)%R) /\
  (forall (t : texpr) (T : Z), (0 < T)%Z -> (0 <= at_ t st i)%R ->
      (lo <= at_ (ema alpha s_t x_t (Some t) (Some T)) st i <= hi)%R).
Proof.
  intros Ha lo hi. split.
  - intros init_period. rewrite ema_value. simpl. apply convex_between. exact Ha.
  - intros t T HT Ht. rewrite ema_value. simpl.
    assert (HT' := HT). apply Z.ltb_lt in HT'. rewrite HT'.
    unfold ema_ramp. apply convex_between.
    assert (HT1 : (1 <= IZR T)%R) by (apply IZR_le; lia).
    assert (Hinv : (0 < / IZR T)%R) by (apply Rinv_0_lt_compat; lra).
    assert (Hq : (0 <= (IZR T - 1) * at_ t st i / (IZR T * IZR T))%R).
    { unfold Rdiv. apply Rmult_le_pos.
      - apply Rmult_le_pos; lra.
      - left. apply Rinv_0_lt_compat. nra. }
    set (q := ((IZR T - 1) * at_ t st i / (IZR T * IZR T) + / IZR T)%R) in *.
    assert (Hm0 : (0 <= Rmin 1 q <= 1)%R).
    { split; [apply Rmin_glb; unfold q; lra | apply Rmin_l]. }
    split; nra.
Qed.

Lemma ema_between_witness :
  let lo := Rmin (at_ (T.constant 0%R) [] []) (at_ (T.constant 1%R) [] []) in
  let hi := Rmax (at_ (T.constant 0%R) [] []) (at_ (T.constant 1%R) [] []) in
  (forall init_period : option Z,
      (lo <= at_ (ema 0.9%R 0%R 1%R None init_period) [] [] <= hi)%R) /\
  (forall (t : texpr) (T : Z), (0 < T)%Z -> (0 <= at_ t [] [])%R ->
      (lo <= at_ (ema 0.9%R 0%R 1%R (Some t) (Some T)) [] [] <= hi)%R).
Proof.
  apply (ema_between 0.9%R 0%R 1%R [] []).
  unfold at_. simpl. lra.
Defined.

(** X3.  In the bias-corrected mode ([t] given, no [init_period]), from a
    state of value 0 at a step of value 0, the result is the observation
    itself, for every [alpha] other than 1: the correction undoes the
    bias of the zero start. *)
Theorem ema_bias_corrected_first_step (alpha s_t x_t t : texpr) (st : store)
        (i : index) :
  at_ alpha st i <> 1%R -> at_ s_t st i = 0%R -> at_ t st i = 0%R ->
  at_ (ema alpha s_t x_t (Some t) None) st i = at_ x_t st i.
Proof.
  intros Ha Hs Ht.
  rewrite ema_value. simpl. unfold ema_corrected, ema_plain. rewrite Hs, Ht.
  replace (0 + 1)%R with 1%R by lra. rewrite pow_real_1.
  field. lra.
Qed.

Lemma ema_bias_corrected_first_step_witness :
  at_ (ema 0.9%R 0%R 1%R (Some (T.constant 0%R)) None) [] []
  = at_ (T.constant 1%R) [] [].
Proof.
  apply (ema_bias_corrected_first_step 0.9%R 0%R 1%R (T.constant 0%R) [] []).
  - unfold at_. simpl. lra.
  - reflexivity.
  - reflexivity.
Defined.

(** ** Norm constraint: dimensions and bounds *)

(** X4.  When [norm_axes] is not given, [norm_constraint] raises [ValueError]
    for a tensor of fewer than 2 or more than 5 dimensions and returns for
    2 to 5 dimensions.  When [norm_axes] is given (distinct axes of the
    tensor) it returns whatever the number of dimensions.  The result has
    as many dimensions as the input. *)
Theorem norm_constraint_dimensions (x : texpr) (max_norm eps : R) :
  (ndim x < 2 \/ 5 < ndim x ->
   norm_constraint x max_norm None eps = inl ValueError) /\
  (2 <= ndim x <= 5 ->
   exists out, norm_constraint x max_norm None eps = inr out /\
               ndim out = ndim x) /\
  (forall axes : list nat,
      List.NoDup axes -> (forall a, In a axes -> a < ndim x) ->
      exists out, norm_constraint x max_norm (Some axes) eps = inr out /\
                  ndim out = ndim x).
Proof.
  unfold norm_constraint. split; [| split].
  - intros Hd.
    destruct (Nat.eqb_spec (ndim x) 2) as [E | _]; [lia |].
    simpl. destruct (Nat.eqb_spec (ndim x) 3) as [E | _]; [lia |].
    destruct (Nat.eqb_spec (ndim x) 4) as [E | _]; [lia |].
    destruct (Nat.eqb_spec (ndim x) 5) as [E | _]; [lia |].
    reflexivity.
  - intros Hd.
    assert (Hax : exists axes,
               (if Nat.eqb (ndim x) 2 then inr [0]
                else if existsb (Nat.eqb (ndim x)) [3; 4; 5]
                     then inr (seq 1 (ndim x - 1))
                     else inl ValueError) = (inr axes : exn + list nat)).
    { destruct (Nat.eqb_spec (ndim x) 2) as [E | N2]; [eexists; reflexivity |].
      simpl. destruct (Nat.eqb_spec (ndim x) 3) as [E | N3]; [eexists; reflexivity |].
      destruct (Nat.eqb_spec (ndim x) 4) as [E | N4]; [eexists; reflexivity |].
      destruct (Nat.eqb_spec (ndim x) 5) as [E | N5]; [eexists; reflexivity |].
      lia. }
    destruct Hax as [axes ->]. eexists. split; [reflexivity |].
    simpl. lia.
  - intros axes _ _. eexists. split; [reflexivity |]. simpl. lia.
Qed.

Section NormBounds.

Local Open Scope R_scope.

Lemma sum_upto_mult (n : nat) (f : nat -> R) (c : R) :
  sum_upto n (fun i => c * f i) = c * sum_upto n f.
Proof.
  induction n as [| n IH]; simpl; [ring |]. rewrite IH. ring.
Qed.

Lemma sum_upto_nonneg (n : nat) (f : nat -> R) :
  (forall i, 0 <= f i) -> 0 <= sum_upto n f.
Proof.
  intros Hf. induction n as [| n IH]; simpl; [lra |].
  specialize (Hf n). lra.
Qed.

(** The factor by which [norm_constraint] rescales a vector of norm [N]. *)
Lemma constraint_factor_bounds (N mx eps : R) :
  0 <= N -> 0 <= mx -> 0 <= eps ->
  let s := clip_real N 0 mx / (eps + N) in
  0 <= s /\ s * N <= mx /\ s * N <= N.
Proof.
  intros HN Hmx He s.
  assert (Hc : 0 <= clip_real N 0 mx <= mx /\ clip_real N 0 mx <= N).
  { unfold clip_real. destruct (Rlt_dec N 0); [lra |].
    destruct (Rlt_dec mx N); lra. }
  destruct Hc as [[Hc0 Hc1] Hc2].
  destruct (Req_dec_T (eps + N) 0) as [Hz | Hnz].
  - assert (N = 0) by lra. subst N. unfold s. rewrite Hz.
    unfold Rdiv. rewrite Rinv_0. rewrite !Rmult_0_r. lra.
  - assert (Hpos : 0 < eps + N) by lra.
    assert (Hinv : 0 < / (eps + N)) by (apply Rinv_0_lt_compat; exact Hpos).
    assert (Hs0 : 0 <= s) by (apply Rmult_le_pos; lra).
    assert (Hq : N / (eps + N) <= 1).
    { apply (Rmult_le_reg_r (eps + N)); [exact Hpos |].
      replace (N / (eps + N) * (eps + N)) with N by (field; exact Hnz). lra. }
    assert (Hq0 : 0 <= N / (eps + N)) by (apply Rmult_le_pos; lra).
    assert (HsN : s * N = clip_real N 0 mx * (N / (eps + N))).
    { unfold s. field. exact Hnz. }
    split; [exact Hs0 |]. rewrite HsN. split; nra.
Qed.

(** X5.  On a matrix, with the axes inferred, [max_norm >= 0] and
    [epsilon > 0], every column of the result has a norm of at most
    [max_norm] and of at most the norm the column had: the constraint
    never lengthens a column. *)
Theorem norm_constraint_rank2_bound (x : texpr) (max_norm eps : R) (st : store)
        (m n : nat) :
  ndim x = 2%nat -> shape (value x st) = [m; n] ->
  0 <= max_norm -> 0 < eps ->
  exists out,
    norm_constraint x max_norm None eps = inr out /\
    forall j,
      col_norm m (value out st) j <= max_norm /\
      col_norm m (value out st) j <= col_norm m (value x st) j.
Proof.
  intros Hnd Hsh Hmax Heps.
  destruct (norm_constraint_rank2_value x max_norm eps st m n Hnd Hsh)
    as [out [Hout [_ Hval]]].
  exists out. split; [exact Hout |]. intros j.
  set (N := col_norm m (value x st) j).
  pose proof (col_norm_nonneg m (value x st) j) as HN0. fold N in HN0.
  destruct (constraint_factor_bounds N max_norm eps HN0 Hmax (Rlt_le _ _ Heps))
    as [Hs0 [Hb1 Hb2]].
  set (s := clip_real N 0 max_norm / (eps + N)) in *.
  assert (HN' : col_norm m (value out st) j = s * N).
  { unfold col_norm.
    rewrite (sum_upto_ext m _
               (fun i => (data (value x st) [i; j] * s)
                         * (data (value x st) [i; j] * s))).
    - rewrite sqrt_sum_scaled by exact Hs0. reflexivity.
    - intros i _. fold (at_ out st [i; j]). rewrite Hval. reflexivity. }
  rewrite HN'. split; assumption.
Qed.

Lemma norm_constraint_rank2_bound_witness :
  exists out,
    norm_constraint (const_matrix 2 2 3) 1 None 1e-7 = inr out /\
    forall j,
      col_norm 2 (value out []) j <= 1 /\
      col_norm 2 (value out []) j <= col_norm 2 (value (const_matrix 2 2 3) []) j.
Proof.
  apply (norm_constraint_rank2_bound (const_matrix 2 2 3) 1 1e-7 [] 2 2).
  - reflexivity.
  - reflexivity.
  - lra.
  - lra.
Defined.

Lemma norm_constraint_rank3_value (x : texpr) (max_norm eps : R) (st : store)
      (a b c : nat) :
  ndim x = 3%nat -> shape (value x st) = [a; b; c] ->
  exists out,
    norm_constraint x max_norm None eps = inr out /\
    shape (value out st) = [a; b; c] /\
    forall i j k,
      at_ out st [i; j; k]
      = at_ x st [i; j; k]
        * (clip_real (filter_norm b c (value x st) i) 0 max_norm
           / (eps + filter_norm b c (value x st) i)).
Proof.
  intros Hnd Hsh. unfold norm_constraint. rewrite Hnd. simpl.
  eexists. split; [reflexivity |]. split.
  - simpl. rewrite Hsh. simpl. unfold broadcast_shape. simpl.
    unfold broadcast_dim. simpl.
    destruct (Nat.eqb a 1);
      destruct (Nat.eqb_spec b 1) as [-> | _];
      destruct (Nat.eqb_spec c 1) as [-> | _]; reflexivity.
  - intros i j k. unfold at_, filter_norm. simpl. rewrite Hsh. simpl.
    reflexivity.
Qed.

Lemma sqrt_sum2_scaled (b c : nat) (f : nat -> nat -> R) (s : R) :
  0 <= s ->
  sqrt (sum_upto b (fun j => sum_upto c (fun k => (f j k * s) * (f j k * s))))
  = s * sqrt (sum_upto b (fun j => sum_upto c (fun k => f j k * f j k))).
Proof.
  intros Hs.
  rewrite (sum_upto_ext b _
             (fun j => (s * s) * sum_upto c (fun k => f j k * f j k))).
  - rewrite sum_upto_mult. rewrite sqrt_mult_alt by nra.
    rewrite sqrt_square by exact Hs. reflexivity.
  - intros j _. apply sum_upto_scale.
Qed.

(** X6.  On a tensor of 3 dimensions, with the axes inferred, the norm is
    taken over the trailing axes 1 and 2, one norm for each index [i] of
    axis 0.  The result has the shape of the input, every entry of filter
    [i] is multiplied by [clip(N, 0, max_norm) / (epsilon + N)], [N] being
    the norm of the filter, and with [max_norm >= 0] and [epsilon > 0] the
    filter of the result has a norm of at most [max_norm]. *)
Theorem norm_constraint_rank3 (x : texpr) (max_norm eps : R) (st : store)
        (a b c : nat) :
  ndim x = 3%nat -> shape (value x st) = [a; b; c] ->
  0 <= max_norm -> 0 < eps ->
  exists out,
    norm_constraint x max_norm None eps = inr out /\
    shape (value out st) = [a; b; c] /\
    forall i,
      let N := filter_norm b c (value x st) i in
      (forall j k,
          at_ out st [i; j; k]
          = at_ x st [i; j; k] * (clip_real N 0 max_norm / (eps + N))) /\
      filter_norm b c (value out st) i <= max_norm.
Proof.
  intros Hnd Hsh Hmax Heps.
  destruct (norm_constraint_rank3_value x max_norm eps st a b c Hnd Hsh)
    as [out [Hout [Hshape Hval]]].
  exists out. split; [exact Hout |]. split; [exact Hshape |].
  intros i N. split; [intros j k; apply Hval |].
  assert (HN0 : 0 <= N) by (unfold N, filter_norm; apply sqrt_pos).
  destruct (constraint_factor_bounds N max_norm eps HN0 Hmax (Rlt_le _ _ Heps))
    as [Hs0 [Hb1 _]].
  set (s := clip_real N 0 max_norm / (eps + N)) in *.
  assert (HN' : filter_norm b c (value out st) i = s * N).
  { unfold filter_norm at 1.
    rewrite (sum_upto_ext b _
               (fun j => sum_upto c (fun k =>
                  (data (value x st) [i; j; k] * s)
                  * (data (value x st) [i; j; k] * s)))).
    - rewrite (sqrt_sum2_scaled b c (fun j k => data (value x st) [i; j; k]) s Hs0).
      reflexivity.
    - intros j _. apply sum_upto_ext. intros k _.
      fold (at_ out st [i; j; k]). rewrite Hval. reflexivity. }
  rewrite HN'. exact Hb1.
Qed.

Lemma norm_constraint_rank3_witness :
  exists out,
    norm_constraint (TExpr 3 (fun _ => Tensor [1; 1; 1]%nat (fun _ => 3))) 1 None 1e-7
    = inr out /\
    shape (value out []) = [1; 1; 1]%nat /\
    forall i,
      let N := filter_norm 1 1 (Tensor [1; 1; 1]%nat (fun _ => 3)) i in
      (forall j k,
          at_ out [] [i; j; k]
          = at_ (TExpr 3 (fun _ => Tensor [1; 1; 1]%nat (fun _ => 3))) [] [i; j; k]
            * (clip_real N 0 1 / (1e-7 + N))) /\
      filter_norm 1 1 (value out []) i <= 1.
Proof.
  apply (norm_constraint_rank3
           (TExpr 3 (fun _ => Tensor [1; 1; 1]%nat (fun _ => 3))) 1 1e-7 [] 1 1 1).
  - reflexivity.
  - reflexivity.
  - lra.
  - lra.
Defined.

(** X7.  With [norm_axes = (1,)] on a matrix the norm is taken along each
    row instead of each column: the result has the shape of the input,
    every entry of row [i] is multiplied by
    [clip(N, 0, max_norm) / (epsilon + N)], [N] being the norm of the row,
    and with [max_norm >= 0] and [epsilon > 0] the row of the result has a
    norm of at most [max_norm]. *)
Theorem norm_constraint_rows (x : texpr) (max_norm eps : R) (st : store)
        (m n : nat) :
  ndim x = 2%nat -> shape (value x st) = [m; n] ->
  0 <= max_norm -> 0 < eps ->
  exists out,
    norm_constraint x max_norm (Some [1%nat]) eps = inr out /\
    shape (value out st) = [m; n] /\
    forall i,
      let N := row_norm n (value x st) i in
      (forall j,
          at_ out st [i; j]
          = at_ x st [i; j] * (clip_real N 0 max_norm / (eps + N))) /\
      row_norm n (value out st) i <= max_norm.
Proof.
  intros Hnd Hsh Hmax Heps. unfold norm_constraint.
  eexists. split; [reflexivity |].
  assert (Hval : forall i j,
             at_ (x * (T.clip (T.sqrt (T.sum_keepdims (T.sqr x) [1%nat])) 0 max_norm
                       / (eps + T.sqrt (T.sum_keepdims (T.sqr x) [1%nat]))))%th
                 st [i; j]
             = at_ x st [i; j]
               * (clip_real (row_norm n (value x st) i) 0 max_norm
                  / (eps + row_norm n (value x st) i))).
  { intros i j. unfold at_, row_norm. simpl. rewrite Hsh. simpl. reflexivity. }
  split.
  - simpl. rewrite Hsh. simpl. unfold broadcast_shape. simpl.
    unfold broadcast_dim. simpl.
    destruct (Nat.eqb m 1); destruct (Nat.eqb_spec n 1) as [-> | _]; reflexivity.
  - intros i. cbv zeta. set (N := row_norm n (value x st) i).
    split; [intros j; apply Hval |].
    assert (HN0 : 0 <= N) by (unfold N, row_norm; apply sqrt_pos).
    destruct (constraint_factor_bounds N max_norm eps HN0 Hmax (Rlt_le _ _ Heps))
      as [Hs0 [Hb1 _]].
    set (s := clip_real N 0 max_norm / (eps + N)) in *.
    match goal with
    | |- row_norm n (value ?o st) i <= _ =>
        assert (HN' : row_norm n (value o st) i = s * N)
    end.
    { unfold row_norm at 1.
      rewrite (sum_upto_ext n _
                 (fun j => (data (value x st) [i; j] * s)
                           * (data (value x st) [i; j] * s))).
      - rewrite sqrt_sum_scaled by exact Hs0. reflexivity.
      - intros j _.
        match goal with
        | |- data (value ?o st) [i; j] * _ = _ =>
            change (data (value o st) [i; j]) with (at_ o st [i; j])
        end.
        rewrite Hval. reflexivity. }
    rewrite HN'. exact Hb1.
Qed.

Lemma norm_constraint_rows_witness :
  exists out,
    norm_constraint (const_matrix 2 2 3) 1 (Some [1%nat]) 1e-7 = inr out /\
    shape (value out []) = [2; 2]%nat.
Proof.
  destruct (norm_constraint_rows (const_matrix 2 2 3) 1 1e-7 [] 2 2)
    as [out [Hout [Hsh _]]].
  - reflexivity.
  - reflexivity.
  - lra.
  - lra.
  - exists out. split; [exact Hout | exact Hsh].
Defined.

End NormBounds.

(** ** Total norm constraint *)

Section TotalNorm.

Local Open Scope R_scope.

Lemma rsum_nil : rsum [] = 0.
Proof. reflexivity. Qed.

Lemma rsum_cons (a : R) (l : list R) : rsum (a :: l) = a + rsum l.
Proof. reflexivity. Qed.

Lemma rsum_app (l1 l2 : list R) : rsum (l1 ++ l2) = rsum l1 + rsum l2.
Proof.
  induction l1 as [| a l1 IH]; simpl; rewrite ?rsum_nil, ?rsum_cons; [lra |].
  rewrite IH. lra.
Qed.

Lemma rsum_flat_map {A} (g : A -> list R) (l : list A) :
  rsum (flat_map g l) = rsum (map (fun a => rsum (g a)) l).
Proof.
  induction l as [| a l IH]; simpl; [reflexivity |].
  rewrite rsum_app, rsum_cons, IH. reflexivity.
Qed.

Lemma rsum_map_ext {A} (f g : A -> R) (l : list A) :
  (forall a, f a = g a) -> rsum (map f l) = rsum (map g l).
Proof.
  intros H. induction l as [| a l IH]; simpl; [reflexivity |].
  rewrite !rsum_cons, H, IH. reflexivity.
Qed.

Lemma rsum_map_mult {A} (f : A -> R) (c : R) (l : list A) :
  rsum (map (fun a => c * f a) l) = c * rsum (map f l).
Proof.
  induction l as [| a l IH]; simpl; rewrite ?rsum_nil, ?rsum_cons; [ring |].
  rewrite IH. ring.
Qed.

Lemma rsum_map_nonneg {A} (f : A -> R) (l : list A) :
  (forall a, 0 <= f a) -> 0 <= rsum (map f l).
Proof.
  intros H. induction l as [| a l IH]; simpl; rewrite ?rsum_nil, ?rsum_cons; [lra |].
  specialize (H a). lra.
Qed.

Lemma rsum_elements_ext (s : list nat) (f g : list nat -> R) :
  (forall i, f i = g i) -> rsum (elements s f) = rsum (elements s g).
Proof.
  revert f g. induction s as [| n s IH]; intros f g H; simpl.
  - rewrite H. reflexivity.
  - rewrite !rsum_flat_map. apply rsum_map_ext. intros a.
    apply IH. intros i. apply H.
Qed.

Lemma rsum_elements_mult (s : list nat) (f : list nat -> R) (c : R) :
  rsum (elements s (fun i => c * f i)) = c * rsum (elements s f).
Proof.
  revert f. induction s as [| n s IH]; intros f; simpl.
  - rewrite !rsum_cons, rsum_nil. ring.
  - rewrite !rsum_flat_map. rewrite <- rsum_map_mult.
    apply rsum_map_ext. intros a. apply IH.
Qed.

Lemma rsum_elements_nonneg (s : list nat) (f : list nat -> R) :
  (forall i, 0 <= f i) -> 0 <= rsum (elements s f).
Proof.
  revert f. induction s as [| n s IH]; intros f H; simpl.
  - rewrite rsum_cons, rsum_nil. specialize (H []). lra.
  - rewrite rsum_flat_map. apply rsum_map_nonneg. intros a.
    apply IH. intros i. apply H.
Qed.

Lemma sum_sq_nonneg (v : tensor) : 0 <= sum_sq v.
Proof.
  unfold sum_sq. apply rsum_elements_nonneg. intros i.
  pose proof (Rle_0_sqr (data v i)) as H. unfold Rsqr in H. exact H.
Qed.

Lemma broadcast_shape_nil_r (s : list nat) : broadcast_shape s [] = s.
Proof.
  unfold broadcast_shape.
  assert (H : broadcast_rev (rev s) (rev []) = rev s)
    by (destruct (rev s); reflexivity).
  rewrite H. apply rev_involutive.
Qed.

(** [sum(gen)]: its value is the sum of the values, and it is a scalar
    when the summands are. *)
Lemma py_sum_fold (xs : list texpr) (acc : texpr) (st : store) (i : index) :
  at_ (fold_left T.add xs acc) st i
  = at_ acc st i + rsum (map (fun x => at_ x st i) xs).
Proof.
  revert acc. induction xs as [| x xs IH]; intros acc; simpl.
  - rewrite rsum_nil. lra.
  - rewrite IH, rsum_cons. unfold at_. simpl. lra.
Qed.

Lemma py_sum_value (xs : list texpr) (st : store) (i : index) :
  at_ (py_sum xs) st i = rsum (map (fun x => at_ x st i) xs).
Proof.
  unfold py_sum. rewrite py_sum_fold. unfold at_. simpl. lra.
Qed.

Lemma py_sum_shape_fold (xs : list texpr) (acc : texpr) (st : store) :
  shape (value acc st) = [] ->
  (forall x, In x xs -> shape (value x st) = []) ->
  shape (value (fold_left T.add xs acc) st) = [].
Proof.
  revert acc. induction xs as [| x xs IH]; intros acc Ha Hx; simpl; [exact Ha |].
  apply IH.
  - simpl. rewrite Ha, (Hx x) by (left; reflexivity). reflexivity.
  - intros y Hy. apply Hx. right. exact Hy.
Qed.

Lemma sum_of_squares_value (x : texpr) (st : store) (i : index) :
  at_ (T.sum (x ** 2%R)%th) st i = sum_sq (value x st).
Proof.
  unfold at_, sum_sq. simpl. rewrite broadcast_shape_nil_r.
  apply (rsum_elements_ext (shape (value x st))). intros idx. apply pow_real_2.
Qed.

Lemma total_norm_value (tensor_vars : list texpr) (st : store) (i : index) :
  at_ (T.sqrt (py_sum (map (fun tensor => T.sum (tensor ** 2%R)%th) tensor_vars)))
      st i
  = total_norm (map (fun x => value x st) tensor_vars).
Proof.
  change (at_ (T.sqrt ?e) st i) with (sqrt (at_ e st i)).
  rewrite py_sum_value. unfold total_norm. f_equal.
  rewrite !map_map. apply rsum_map_ext. intros x. apply sum_of_squares_value.
Qed.

Lemma total_norm_nonneg (vs : list tensor) : 0 <= total_norm vs.
Proof. unfold total_norm. apply sqrt_pos. Qed.

(** Scaling every tensor by [c >= 0] scales the combined norm by [c]. *)
Lemma total_norm_scaled (vs ws : list tensor) (c : R) :
  0 <= c ->
  Forall2 (fun v w => shape w = shape v /\ forall i, data w i = data v i * c) vs ws ->
  total_norm ws = c * total_norm vs.
Proof.
  intros Hc H. unfold total_norm.
  assert (Hs : rsum (map sum_sq ws) = (c * c) * rsum (map sum_sq vs)).
  { induction H as [| v w vs ws [Hsh Hd] _ IH]; simpl.
    - rewrite rsum_nil. ring.
    - rewrite !rsum_cons, IH.
      assert (Hw : sum_sq w = c * c * sum_sq v).
      { unfold sum_sq. rewrite Hsh.
        rewrite <- rsum_elements_mult. apply rsum_elements_ext.
        intros i. rewrite Hd. ring. }
      rewrite Hw. ring. }
  rewrite Hs. rewrite sqrt_mult_alt by nra.
  rewrite sqrt_square by exact Hc. reflexivity.
Qed.

Lemma Forall2_map_self {A B} (P : A -> B -> Prop) (f : A -> B) (l : list A) :
  (forall x, P x (f x)) -> Forall2 P l (map f l).
Proof.
  intros H. induction l as [| x l IH]; simpl; constructor; auto.
Qed.

(** X8.  [total_norm_constraint] without targets keeps the shape of every
    tensor and, [N] being the Euclidean norm of all the tensors taken
    together and [N > 0], multiplies every tensor by one and the same
    scalar, [min(1, max_norm / N)].  With [0 < N <= max_norm]
    every tensor is returned with its values; with [0 <= max_norm < N]
    the joint norm of the results is exactly [max_norm].  The norm is
    returned beside the tensors exactly when [return_norm] is set, and its
    value is [N], the norm before the scaling. *)
Theorem total_norm_constraint_scaling (tensor_vars : list texpr) (max_norm : R)
        (return_norm : bool) (st : store) :
  let N := total_norm (map (fun x => value x st) tensor_vars) in
  let res := total_norm_constraint tensor_vars max_norm None return_norm in
  Forall2 (fun x y =>
             shape (value y st) = shape (value x st) /\
             (0 < N ->
              forall idx, at_ y st idx = at_ x st idx * Rmin 1 (max_norm / N)))
          tensor_vars (fst res) /\
  (0 < N <= max_norm ->
   Forall2 (fun x y => forall idx, at_ y st idx = at_ x st idx)
           tensor_vars (fst res)) /\
  (0 <= max_norm < N ->
   total_norm (map (fun y => value y st) (fst res)) = max_norm) /\
  match snd res with
  | Some norm => return_norm = true /\ forall idx, at_ norm st idx = N
  | None => return_norm = false
  end.
Proof.
  intros N res.
  set (norm := T.sqrt (py_sum (map (fun tensor => T.sum (tensor ** 2%R)%th)
                                   tensor_vars))).
  set (multiplier := T.minimum (T.constant 1%R) (max_norm / norm)%th).
  assert (Hres : res = (map (fun step => (step * multiplier)%th) tensor_vars,
                        if return_norm then Some norm else None)).
  { unfold res, total_norm_constraint. fold norm. fold multiplier.
    destruct return_norm; reflexivity. }
  assert (Hnorm : forall idx, at_ norm st idx = N).
  { intros idx. apply total_norm_value. }
  assert (Hmshape : shape (value multiplier st) = []).
  { assert (Hps : shape (value (py_sum (map (fun tensor => T.sum (tensor ** 2%R)%th)
                                            tensor_vars)) st) = []).
    { unfold py_sum. apply py_sum_shape_fold; [reflexivity |].
      intros x Hx. apply in_map_iff in Hx as [y [<- _]]. reflexivity. }
    unfold multiplier, norm.
    cbn [T.minimum T.true_div T.sqrt T.elemwise2 T.elemwise1 value tmap tmap2
         shape T.constant scalar].
    rewrite Hps. reflexivity. }
  assert (Hmval : forall idx, at_ multiplier st idx = Rmin 1 (max_norm / N)).
  { intros idx. unfold multiplier.
    change (at_ (T.minimum (T.constant 1) (max_norm / norm)%th) st idx)
      with (Rmin 1 (max_norm / at_ norm st idx)).
    rewrite Hnorm. reflexivity. }
  assert (Hall : Forall2 (fun x y =>
                   shape (value y st) = shape (value x st) /\
                   forall idx, at_ y st idx = at_ x st idx * Rmin 1 (max_norm / N))
                   tensor_vars (fst res)).
  { rewrite Hres. simpl fst. apply Forall2_map_self. intros x. split.
    - change (shape (value (x * multiplier)%th st))
        with (broadcast_shape (shape (value x st)) (shape (value multiplier st))).
      rewrite Hmshape. apply broadcast_shape_nil_r.
    - intros idx.
      change (at_ (x * multiplier)%th st idx)
        with (at_ x st idx * at_ multiplier st idx).
      rewrite Hmval. reflexivity. }
  split.
  { eapply Forall2_impl; [exact Hall |].
    intros x y [Hsh Hv]. split; [exact Hsh | intros _; exact Hv]. }
  split; [| split].
  - intros [HN0 HNm].
    assert (Hm1 : Rmin 1 (max_norm / N) = 1).
    { apply Rmin_left. apply (Rmult_le_reg_r N); [exact HN0 |].
      replace (max_norm / N * N) with max_norm by (field; lra). lra. }
    eapply Forall2_impl; [exact Hall |].
    intros x y [_ Hv] idx. rewrite Hv, Hm1. ring.
  - intros [Hm0 HmN].
    assert (HN0 : 0 < N) by lra.
    assert (Hq : max_norm / N < 1).
    { apply (Rmult_lt_reg_r N); [exact HN0 |].
      replace (max_norm / N * N) with max_norm by (field; lra). lra. }
    assert (Hq0 : 0 <= max_norm / N).
    { apply Rmult_le_pos; [exact Hm0 |]. left. apply Rinv_0_lt_compat. exact HN0. }
    assert (Hm1 : Rmin 1 (max_norm / N) = max_norm / N) by (apply Rmin_right; lra).
    rewrite (total_norm_scaled (map (fun x => value x st) tensor_vars)
                               (map (fun y => value y st) (fst res))
                               (max_norm / N) Hq0).
    + fold N. field. lra.
    + apply Forall2_fmap. eapply Forall2_impl; [exact Hall |].
      intros x y [Hsh Hv]. split; [exact Hsh |].
      intros i. specialize (Hv i). unfold at_ in Hv. rewrite Hv, Hm1. reflexivity.
  - rewrite Hres. simpl snd. destruct return_norm; [| reflexivity].
    split; [reflexivity | exact Hnorm].
Qed.

End TotalNorm.

(** ** One step of SGD *)

Section SgdStep.

Variable differentiate : texpr -> variable -> texpr.

Lemma sgd_rule_run (lg : loss_or_grads) (ps : list SharedVariable)
      (learning_rate : pyval) (e : engine) :
  List.NoDup (map sv_id ps) ->
  (forall gs, lg = Grads gs -> length gs = length ps) ->
  sgd_rule differentiate lg (map OfShared ps) learning_rate tt e
  = (inr (length (heap e)),
     Engine (shared_values e)
            (heap e ++ [sgd_dict (as_expr learning_rate)
                                 (zip ps (resolved_grads differentiate lg ps))])).
Proof.
  intros Hnd Hlen. unfold sgd_rule. unfold bind at 1.
  rewrite get_or_compute_grads_shared by exact Hlen.
  unfold bind at 1. unfold OrderedDict at 1. simpl.
  unfold bind at 1. rewrite zip_map_shared.
  rewrite (for_each_map_pure
             (fun pg : SharedVariable * texpr => (OfShared (fst pg), snd pg))
             _ (sgd_round (length (heap e)) (as_expr learning_rate))
             (zip ps (resolved_grads differentiate lg ps)));
    [| intros [p g] e0; reflexivity].
  rewrite sgd_rounds by (simpl; rewrite length_app; simpl; lia).
  simpl. rewrite alter_new. rewrite sgd_fold.
  - reflexivity.
  - simpl. apply NoDup_zip_ids. exact Hnd.
Qed.

(** X9.  [sgd] allocates no shared variable and returns a dictionary whose
    keys are the parameters, in their order.  One call of the compiled
    function moves every parameter to [param - learning_rate * grad],
    all gradients taken at the values before the call, and leaves every
    other shared variable as it was.  Parameters are distinct; a list of
    gradients has the length of the list of parameters. *)
Theorem sgd_step (lg : loss_or_grads) (ps : list SharedVariable)
        (learning_rate : pyval) (e : engine) (st : store) :
  List.NoDup (map sv_id ps) ->
  (forall gs, lg = Grads gs -> length gs = length ps) ->
  (forall p, In p ps -> sv_id p < length st) ->
  exists c e',
    sgd differentiate lg (map OfShared ps) learning_rate tt
        default_decay_period default_decay_factor e = (inr c, e') /\
    shared_values e' = shared_values e /\
    odict_keys (deref e' c) = ps /\
    (forall (i : nat) (p : SharedVariable) (g : texpr),
        ps !! i = Some p -> resolved_grads differentiate lg ps !! i = Some g ->
        forall idx,
          data (apply_updates (deref e' c) st !!! sv_id p) idx
          = (data (st !!! sv_id p) idx
             - at_ learning_rate st idx * at_ g st idx)%R) /\
    (forall k : nat, k < length st -> ~ In k (map sv_id ps) ->
                     apply_updates (deref e' c) st !!! k = st !!! k).
Proof.
  intros Hnd Hlen Hst.
  set (gs := resolved_grads differentiate lg ps).
  set (d := sgd_dict (as_expr learning_rate) (zip ps gs)).
  assert (Hgl : length gs = length ps).
  { unfold gs. apply resolved_grads_length. exact Hlen. }
  exists (length (heap e)), (Engine (shared_values e) (heap e ++ [d])).
  assert (Hd : deref (Engine (shared_values e) (heap e ++ [d])) (length (heap e)) = d).
  { unfold deref. simpl. apply list_lookup_total_middle. reflexivity. }
  rewrite Hd. split; [| split; [| split; [| split]]].
  - unfold sgd. rewrite lr_decay_default. apply sgd_rule_run; assumption.
  - reflexivity.
  - apply sgd_dict_keys. exact Hgl.
  - intros i p g Hp Hg idx.
    assert (Hpin : In p ps).
    { apply list_elem_of_In. apply list_elem_of_lookup. eauto. }
    rewrite apply_updates_lookup by (apply Hst; exact Hpin).
    unfold d. rewrite (sgd_dict_get _ ps gs i p g Hnd Hp Hg). reflexivity.
  - intros k Hk Hnot.
    change k with (sv_id (Shared k 0)).
    rewrite apply_updates_lookup by exact Hk.
    destruct (odict_get d (Shared k 0)) as [u |] eqn:E; [| reflexivity].
    exfalso. apply Hnot.
    destruct (odict_get_In d _ u E) as [k' [Hin Hid]]. simpl in Hid.
    rewrite <- Hid.
    assert (Hk' : In k' (odict_keys d)).
    { unfold odict_keys. apply (in_map fst d (k', u)). exact Hin. }
    unfold d in Hk'. rewrite sgd_dict_keys in Hk' by exact Hgl.
    apply in_map. exact Hk'.
Qed.

End SgdStep.

Lemma sgd_step_witness :
  exists c e',
    sgd (fun l _ => l) (Grads [T.constant 0.5%R]) (map OfShared [Shared 0 0])
        (PyFloat 0.1%R) tt default_decay_period default_decay_factor example_engine
    = (inr c, e') /\
    shared_values e' = shared_values example_engine /\
    odict_keys (deref e' c) = [Shared 0 0].
Proof.
  destruct (sgd_step (fun l _ => l) (Grads [T.constant 0.5%R]) [Shared 0 0]
                     (PyFloat 0.1%R) example_engine [scalar 1%R])
    as [c [e' [Hrun [Hsv [Hkeys _]]]]].
  - simpl. constructor; [simpl; tauto | constructor].
  - intros gs [= <-]. reflexivity.
  - simpl. intros p [<- | []]. simpl. lia.
  - exists c, e'. split; [exact Hrun |]. split; [exact Hsv | exact Hkeys].
Defined.

(** ** The schedule of the learning-rate decay *)

Lemma apply_decay_shared (updates : dref) (p : SharedVariable) (period : Z)
      (factor : R) (e : engine) :
  (0 < period)%Z ->
  let count := Shared (length (shared_values e)) 0 in
  apply_decay updates [OfShared p] period factor e
  = (inr updates,
     Engine (shared_values e ++ [scalar 1%R])
            (alter (odict_set p (decay_update count p period factor)) updates
               (alter (odict_set count (decay_count_update count period)) updates
                      (heap e)))).
Proof.
  intros Hp count. unfold apply_decay.
  assert (Hle : (period <=? 0)%Z = false) by (apply Z.leb_gt; exact Hp).
  rewrite Hle. reflexivity.
Qed.

Lemma ge_real_INR (a b : nat) :
  ge_real (INR a) (INR b) = if Nat.leb b a then 1%R else 0%R.
Proof.
  unfold ge_real. destruct (Nat.leb_spec b a) as [H | H].
  - destruct (Rle_dec (INR b) (INR a)) as [_ | N]; [reflexivity |].
    exfalso. apply N. apply le_INR. exact H.
  - destruct (Rle_dec (INR b) (INR a)) as [L | _]; [| reflexivity].
    apply INR_le in L. lia.
Qed.

(** One call of the compiled function on the two cells of the decay. *)
Lemma decay_step (u : odict) (count p : SharedVariable) (P : nat) (factor : R)
      (st : store) (r : nat) :
  0 < P -> r < P ->
  odict_get u count = Some (decay_count_update count (Z.of_nat P)) ->
  odict_get u p = Some (decay_update count p (Z.of_nat P) factor) ->
  sv_id count < length st -> sv_id p < length st ->
  data (st !!! sv_id count) [] = (1 + INR r)%R ->
  let st' := apply_updates u st in
  if Nat.eqb (S r) P
  then data (st' !!! sv_id count) [] = (1 + INR 0)%R /\
       forall idx, data (st' !!! sv_id p) idx = (data (st !!! sv_id p) idx * factor)%R
  else data (st' !!! sv_id count) [] = (1 + INR (S r))%R /\
       forall idx, data (st' !!! sv_id p) idx = data (st !!! sv_id p) idx.
Proof.
  intros HP Hr Hc Hp Hlc Hlp Hcount st'. unfold st'.
  rewrite !apply_updates_lookup by assumption. rewrite Hc, Hp.
  assert (Hcond : data (value (T.ge count (IZR (Z.of_nat P))) st) []
                  = if Nat.leb P (S r) then 1%R else 0%R).
  { change (data (value (T.ge count (IZR (Z.of_nat P))) st) [])
      with (ge_real (data (st !!! sv_id count) []) (IZR (Z.of_nat P))).
    rewrite Hcount, <- INR_IZR_INZ.
    replace (1 + INR r)%R with (INR (S r)) by (rewrite S_INR; lra).
    apply ge_real_INR. }
  unfold decay_count_update, decay_update, ifelse. cbn [value].
  rewrite Hcond.
  destruct (Nat.eqb_spec (S r) P) as [E | E].
  - assert (HL : Nat.leb P (S r) = true) by (apply Nat.leb_le; lia).
    rewrite HL. destruct (Req_dec_T 1 0) as [H | _]; [lra |].
    split; [simpl; lra | intros idx; reflexivity].
  - assert (HL : Nat.leb P (S r) = false) by (apply Nat.leb_gt; lia).
    rewrite HL. destruct (Req_dec_T 0 0) as [_ | H]; [| contradiction].
    split; [| intros idx; reflexivity].
    simpl. rewrite Hcount. destruct r; simpl; lra.
Qed.

Lemma decay_run (u : odict) (count p : SharedVariable) (P : nat) (factor : R)
      (st0 : store) (n : nat) :
  0 < P ->
  odict_get u count = Some (decay_count_update count (Z.of_nat P)) ->
  odict_get u p = Some (decay_update count p (Z.of_nat P) factor) ->
  sv_id count < length st0 -> sv_id p < length st0 ->
  data (st0 !!! sv_id count) [] = 1%R ->
  data (run n u st0 !!! sv_id count) [] = (1 + INR (n mod P))%R /\
  forall idx, data (run n u st0 !!! sv_id p) idx
              = (data (st0 !!! sv_id p) idx * factor ^ (n / P))%R.
Proof.
  intros HP Hc Hp Hlc Hlp H0.
  assert (Hinv : exists q r, n = P * q + r /\ r < P /\
             data (run n u st0 !!! sv_id count) [] = (1 + INR r)%R /\
             forall idx, data (run n u st0 !!! sv_id p) idx
                         = (data (st0 !!! sv_id p) idx * factor ^ q)%R).
  { induction n as [| n IH].
    - exists 0, 0. split; [lia |]. split; [exact HP |]. simpl. split; [lra |].
      intros idx. lra.
    - destruct IH as [q [r [Hn [Hr [Hcnt Hval]]]]].
      change (run (S n) u st0) with (apply_updates u (run n u st0)).
      pose proof (decay_step u count p P factor (run n u st0) r HP Hr Hc Hp) as Hs.
      rewrite run_length in Hs. specialize (Hs Hlc Hlp Hcnt). cbv zeta in Hs.
      destruct (Nat.eqb_spec (S r) P) as [E | E].
      + destruct Hs as [Hc' Hv']. exists (S q), 0.
        split; [lia |]. split; [exact HP |]. split; [exact Hc' |].
        intros idx. rewrite Hv', Hval. simpl. ring.
      + destruct Hs as [Hc' Hv']. exists q, (S r).
        split; [lia |]. split; [lia |]. split; [exact Hc' |].
        intros idx. rewrite Hv', Hval. reflexivity. }
  destruct Hinv as [q [r [Hn [Hr [Hcnt Hval]]]]].
  assert (Hq : q = n / P) by (apply (Nat.div_unique n P q r); assumption).
  assert (Hm : r = n mod P) by (apply (Nat.mod_unique n P q r); assumption).
  subst q r. split; assumption.
Qed.

(** X10.  A rule decorated with [lr_decay], called with a numeric learning
    rate, [decay_period = P > 0] and [decay_factor <> 1]: the rule is run
    with a new shared variable that holds the learning rate; a counter
    with initial value 1 is allocated after the rule's own variables; the
    dictionary the rule returned is the one returned, extended in place,
    its entries for other keys kept.  After [n] calls of the compiled
    function the learning rate is its initial value times
    [decay_factor ^ (n / P)] (integer division): it is multiplied by the
    factor once every [P] calls. *)
Theorem lr_decay_schedule {Args} (updates_fn : rule Args) (lg : loss_or_grads)
        (params : list variable) (lr0 : R) (args : Args)
        (decay_period : Z) (decay_factor : R) (e e2 : engine) (c : dref) :
  (0 < decay_period)%Z -> decay_factor <> 1%R ->
  let lr := Shared (length (shared_values e)) 0 in
  let count := Shared (length (shared_values e2)) 0 in
  updates_fn lg params (PyVar (OfShared lr)) args
             (Engine (shared_values e ++ [scalar lr0]) (heap e)) = (inr c, e2) ->
  c < length (heap e2) ->
  length (shared_values e) < length (shared_values e2) ->
  exists e',
    lr_decay updates_fn lg params (PyFloat lr0) args decay_period decay_factor e
    = (inr c, e') /\
    shared_values e' = shared_values e2 ++ [scalar 1%R] /\
    (forall k, sv_id k <> sv_id lr -> sv_id k <> sv_id count ->
               odict_get (deref e' c) k = odict_get (deref e2 c) k) /\
    forall st0 : store,
      length (shared_values e2) < length st0 ->
      data (st0 !!! sv_id count) [] = 1%R ->
      forall (n : nat) (idx : index),
        data (run n (deref e' c) st0 !!! sv_id lr) idx
        = (data (st0 !!! sv_id lr) idx
           * decay_factor ^ (n / Z.to_nat decay_period))%R.
Proof.
  intros Hper Hfac lr count Hrule Hc Hlen.
  set (e' := Engine (shared_values e2 ++ [scalar 1%R])
               (alter (odict_set lr (decay_update count lr decay_period decay_factor)) c
                  (alter (odict_set count (decay_count_update count decay_period)) c
                         (heap e2)))).
  assert (Hd : deref e' c
               = odict_set lr (decay_update count lr decay_period decay_factor)
                   (odict_set count (decay_count_update count decay_period)
                              (deref e2 c))).
  { unfold e', deref. simpl.
    rewrite !list_lookup_total_alter_eq; [reflexivity | exact Hc |].
    rewrite length_alter. exact Hc. }
  assert (Hne : sv_id lr <> sv_id count) by (simpl; lia).
  exists e'. split; [| split; [| split]].
  - unfold lr_decay.
    assert (Hoff : (decay_period <=? 0)%Z || float_eqb decay_factor 1 = false).
    { apply orb_false_iff. split; [apply Z.leb_gt; exact Hper |].
      unfold float_eqb. destruct (Req_dec_T decay_factor 1); [contradiction | reflexivity]. }
    rewrite Hoff. unfold floatX. unfold bind at 1. unfold ret at 1.
    rewrite bind_theano_shared. change (length (shape (scalar lr0))) with 0. fold lr.
    rewrite (bind_run _ _ _ _ _ Hrule).
    unfold bind. rewrite (apply_decay_shared c lr decay_period decay_factor e2 Hper).
    reflexivity.
  - reflexivity.
  - intros k Hk1 Hk2. rewrite Hd. rewrite !odict_get_set_other by congruence.
    reflexivity.
  - intros st0 Hst H0 n idx.
    assert (HP : 0 < Z.to_nat decay_period) by lia.
    assert (HZ : Z.of_nat (Z.to_nat decay_period) = decay_period) by lia.
    destruct (decay_run (deref e' c) count lr (Z.to_nat decay_period) decay_factor
                        st0 n HP) as [_ Hval].
    + rewrite HZ, Hd. rewrite odict_get_set_other by congruence.
      apply odict_get_set_same.
    + rewrite HZ, Hd. apply odict_get_set_same.
    + simpl. exact Hst.
    + simpl. lia.
    + exact H0.
    + apply Hval.
Qed.

Lemma lr_decay_schedule_witness :
  exists e',
    lr_decay (sgd_rule (fun l _ => l)) (Grads [T.constant 0.5%R])
             (map OfShared [Shared 0 0]) (PyFloat 0.1%R) tt 2%Z 0.5%R example_engine
    = (inr 1, e') /\
    shared_values e' = [scalar 1%R; scalar 0.1%R] ++ [scalar 1%R].
Proof.
  destruct (lr_decay_schedule (sgd_rule (fun l _ => l)) (Grads [T.constant 0.5%R])
              (map OfShared [Shared 0 0]) 0.1%R tt 2%Z 0.5%R example_engine
              (Engine [scalar 1%R; scalar 0.1%R]
                      [[(Shared 0 0, T.constant 2%R)];
                       [(Shared 0 0,
                         (read (Shared 0 0) - read (Shared 1 0) * T.constant 0.5%R)%th)]])
              1)
    as [e' [Hrun [Hsv _]]].
  - lia.
  - lra.
  - reflexivity.
  - simpl. lia.
  - simpl. lia.
  - exists e'. split; [exact Hrun | exact Hsv].
Defined.

(** ** SGD with momentum: the update equations *)

Section MomentumEquations.

Variable differentiate : texpr -> variable -> texpr.

Lemma sgd_dict_NoDup (learning_rate : texpr) (ps : list SharedVariable)
      (gs : list texpr) :
  List.NoDup (map sv_id ps) ->
  List.NoDup (key_ids (sgd_dict learning_rate (zip ps gs))).
Proof.
  intros Hnd. unfold key_ids, sgd_dict. rewrite map_map. simpl.
  apply NoDup_zip_ids. exact Hnd.
Qed.

Lemma new_velocities_lookup (sv : store) (ps : list SharedVariable) (i : nat)
      (p : SharedVariable) :
  ps !! i = Some p ->
  exists v, fst (new_velocities sv ps) !! i = Some v /\ sv_id v = length sv + i.
Proof.
  intros Hp.
  pose proof (new_velocities_ids sv ps) as Hids.
  assert (Hlen : length (fst (new_velocities sv ps)) = length ps).
  { rewrite <- (length_map sv_id), Hids. apply length_seq. }
  destruct (lookup_lt_is_Some_2 (fst (new_velocities sv ps)) i) as [v Hv].
  { rewrite Hlen. apply lookup_lt_is_Some. eauto. }
  exists v. split; [exact Hv |].
  assert (Hm : map sv_id (fst (new_velocities sv ps)) !! i = Some (sv_id v)).
  { rewrite lookup_map, Hv. reflexivity. }
  rewrite Hids in Hm. apply lookup_seq in Hm. lia.
Qed.

(** X11.  [momentum] allocates one velocity for each parameter, with zeros
    of the parameter's shape, and its dictionary follows the equations
    [velocity' = momentum * velocity - learning_rate * grad] and
    [param' = param + velocity'], for distinct existing parameters. *)
Theorem momentum_equations (lg : loss_or_grads) (ps : list SharedVariable)
        (learning_rate : pyval) (mom : texpr) (e : engine) :
  List.NoDup (map sv_id ps) ->
  (forall p, In p ps -> sv_id p < length (shared_values e)) ->
  (forall gs, lg = Grads gs -> length gs = length ps) ->
  let n0 := length (shared_values e) in
  exists c e',
    momentum differentiate lg (map OfShared ps) learning_rate (mom, None)
             default_decay_period default_decay_factor e = (inr c, e') /\
    shared_values e'
    = shared_values e
      ++ map (fun p => np_zeros_like (shared_values e !!! sv_id p)) ps /\
    forall (i : nat) (p : SharedVariable) (g : texpr),
      ps !! i = Some p -> resolved_grads differentiate lg ps !! i = Some g ->
      exists uv up,
        odict_get (deref e' c) (Shared (n0 + i) 0) = Some uv /\
        odict_get (deref e' c) p = Some up /\
        forall st idx,
          at_ uv st idx
          = (at_ mom st idx * data (st !!! (n0 + i)%nat) idx
             - at_ learning_rate st idx * at_ g st idx)%R /\
          at_ up st idx = (at_ p st idx + at_ uv st idx)%R.
Proof.
  intros Hnd Hold Hlen n0.
  set (gs := resolved_grads differentiate lg ps).
  assert (Hgl : length gs = length ps).
  { unfold gs. apply resolved_grads_length. exact Hlen. }
  set (ds := sgd_dict (as_expr learning_rate) (zip ps gs)).
  set (e1 := Engine (shared_values e) (heap e ++ [ds])).
  set (vs := fst (new_velocities (shared_values e) ps)).
  assert (Hids : map sv_id vs = seq (length (shared_values e)) (length ps))
    by apply new_velocities_ids.
  assert (Hds : deref e1 (length (heap e)) = ds).
  { unfold deref, e1. simpl. apply list_lookup_total_middle. reflexivity. }
  assert (Hkeys : odict_keys ds = ps) by (apply sgd_dict_keys; exact Hgl).
  assert (Hndds : List.NoDup (key_ids ds)) by (apply sgd_dict_NoDup; exact Hnd).
  assert (Hcopy : forall k, odict_get (odict_of_items ds) k = odict_get ds k).
  { intros k. apply odict_get_of_items. exact Hndds. }
  destruct (momentum_fold_distinct mom ps vs (odict_of_items ds))
    as [dm [Hfold [_ [Hent _]]]].
  { exact Hnd. }
  { rewrite Hids. apply List.seq_NoDup. }
  { intros p v Hp Hv Heq.
    assert (Hin : In (sv_id v) (map sv_id vs)) by (apply in_map; exact Hv).
    rewrite Hids in Hin. apply in_seq in Hin. specialize (Hold p Hp). lia. }
  { intros p Hp. rewrite Hcopy.
    apply list_elem_of_In in Hp. apply list_elem_of_lookup in Hp as [i Hi].
    destruct (lookup_lt_is_Some_2 gs i) as [g Hg].
    { rewrite Hgl. apply lookup_lt_is_Some. eauto. }
    unfold ds. rewrite (sgd_dict_get _ ps gs i p g Hnd Hi Hg). discriminate. }
  exists (S (length (heap e))),
         (Engine (snd (new_velocities (shared_values e) ps))
                 ((heap e ++ [ds]) ++ [dm])).
  assert (Hdm : deref (Engine (snd (new_velocities (shared_values e) ps))
                              ((heap e ++ [ds]) ++ [dm])) (S (length (heap e))) = dm).
  { unfold deref. simpl. apply list_lookup_total_middle.
    rewrite length_app. simpl. lia. }
  rewrite Hdm. split; [| split].
  - unfold momentum. rewrite lr_decay_default.
    unfold momentum_rule. simpl fst. simpl snd.
    unfold sgd. unfold bind. rewrite lr_decay_default.
    rewrite (sgd_rule_run differentiate lg ps learning_rate e Hnd Hlen).
    fold gs. fold ds. fold e1.
    pose proof (apply_momentum_run (length (heap e)) None mom e1 dm) as Hrun.
    cbv zeta in Hrun. rewrite Hds, Hkeys in Hrun.
    simpl option_map in Hrun. rewrite Hrun by exact Hfold.
    unfold e1. simpl. rewrite length_app. simpl.
    replace (length (heap e) + 1) with (S (length (heap e))) by lia.
    reflexivity.
  - simpl. apply new_velocities_store. exact Hold.
  - intros i p g Hp Hg.
    destruct (new_velocities_lookup (shared_values e) ps i p Hp) as [v [Hv Hvid]].
    fold vs in Hv.
    destruct (Hent i p v Hp Hv) as [u [Hu [Hpu Hvu]]].
    rewrite Hcopy in Hu. unfold ds in Hu.
    rewrite (sgd_dict_get _ ps gs i p g Hnd Hp Hg) in Hu.
    injection Hu as <-.
    eexists _, _. split; [| split; [exact Hpu |]].
    + rewrite <- Hvu. apply odict_get_id. simpl. fold n0 in Hvid. lia.
    + intros st idx. unfold at_. simpl. rewrite Hvid. fold n0. split; lra.
Qed.

End MomentumEquations.

Lemma momentum_equations_witness :
  exists c e',
    momentum (fun l _ => l) (Grads [T.constant 0.5%R]) (map OfShared [Shared 0 0])
             (PyFloat 0.1%R) (T.constant 0.9%R, None)
             default_decay_period default_decay_factor example_engine
    = (inr c, e') /\
    shared_values e' = [scalar 1%R; np_zeros_like (scalar 1%R)].
Proof.
  destruct (momentum_equations (fun l _ => l) (Grads [T.constant 0.5%R])
              [Shared 0 0] (PyFloat 0.1%R) (T.constant 0.9%R) example_engine)
    as [c [e' [Hrun [Hsv _]]]].
  - simpl. constructor; [simpl; tauto | constructor].
  - simpl. intros p [<- | []]. simpl. lia.
  - intros gs [= <-]. reflexivity.
  - exists c, e'. split; [exact Hrun | exact Hsv].
Defined.

(** ** Nesterov momentum: the update equations *)

Lemma nesterov_body_run (momentum : texpr) (c : dref) (p v : SharedVariable)
      (e : engine) (u u' : texpr) :
  c < length (heap e) ->
  odict_get (deref e c) p = Some u ->
  odict_get (odict_set v (momentum * v + u - p)%th (deref e c)) p = Some u' ->
  nesterov_body momentum c (OfShared p, OfShared v) e
  = (inr tt,
     Engine (shared_values e)
            (alter (odict_set p (momentum * (momentum * v + u - p) + u')%th) c
                   (alter (odict_set v (momentum * v + u - p)%th) c (heap e)))).
Proof.
  intros Hc Hu Hu'. unfold nesterov_body. cbn [fst snd].
  rewrite (bind_getitem_hit c p _ e u Hu).
  rewrite bind_setitem.
  rewrite (bind_getitem_hit c p _ _ u').
  - reflexivity.
  - rewrite deref_alter_heap by exact Hc. exact Hu'.
Qed.

Lemma nesterov_loop_run (momentum : texpr) (c : dref)
      (ps vs : list SharedVariable) (e : engine) (d' : odict) :
  c < length (heap e) ->
  nesterov_fold momentum (zip ps vs) (deref e c) = Some d' ->
  for_each (zip (map OfShared ps) (map OfShared vs)) (nesterov_body momentum c) e
  = (inr tt, Engine (shared_values e) (alter (fun _ => d') c (heap e))).
Proof.
  revert vs e. induction ps as [| p ps IH]; intros vs e Hc Hfold.
  - simpl in *. injection Hfold as <-. unfold ret. f_equal.
    destruct e as [sv h]. simpl. f_equal. unfold deref. simpl.
    symmetry. apply alter_const_self.
  - destruct vs as [| v vs].
    + simpl in *. injection Hfold as <-. unfold ret. f_equal.
      destruct e as [sv h]. simpl. f_equal. unfold deref. simpl.
      symmetry. apply alter_const_self.
    + simpl in Hfold.
      destruct (odict_get (deref e c) p) as [u |] eqn:Hu; [| discriminate].
      destruct (odict_get (odict_set v (momentum * v + u - p)%th (deref e c)) p)
        as [u' |] eqn:Hu'; [| discriminate].
      change (zip (map OfShared (p :: ps)) (map OfShared (v :: vs)))
        with ((OfShared p, OfShared v) :: zip (map OfShared ps) (map OfShared vs)).
      rewrite for_each_cons, (nesterov_body_run momentum c p v e u u' Hc Hu Hu').
      set (e1 := Engine (shared_values e) _).
      assert (Hd1 : deref e1 c
                    = odict_set p (momentum * (momentum * v + u - p) + u')%th
                        (odict_set v (momentum * v + u - p)%th (deref e c))).
      { unfold e1, deref. simpl.
        rewrite !list_lookup_total_alter_eq; [reflexivity | exact Hc |].
        rewrite length_alter. exact Hc. }
      rewrite (IH vs e1).
      * unfold e1. simpl. rewrite !list_alter_alter_eq. reflexivity.
      * unfold e1. simpl. rewrite !length_alter. exact Hc.
      * rewrite Hd1. exact Hfold.
Qed.

Lemma nesterov_fold_distinct (momentum : texpr) (ps vs : list SharedVariable)
      (d : odict) :
  List.NoDup (map sv_id ps) -> List.NoDup (map sv_id vs) ->
  (forall p v, In p ps -> In v vs -> sv_id p <> sv_id v) ->
  (forall p, In p ps -> odict_get d p <> None) ->
  exists d',
    nesterov_fold momentum (zip ps vs) d = Some d' /\
    (forall k, ~ In (sv_id k) (map sv_id ps) -> ~ In (sv_id k) (map sv_id vs) ->
               odict_get d' k = odict_get d k) /\
    (forall (i : nat) (p v : SharedVariable),
       ps !! i = Some p -> vs !! i = Some v ->
       exists u,
         odict_get d p = Some u /\
         odict_get d' v = Some (momentum * v + u - p)%th /\
         odict_get d' p = Some (momentum * (momentum * v + u - p) + u)%th).
Proof.
  revert vs d. induction ps as [| p ps IH]; intros vs d Hndp Hndv Hdisj Hkeys.
  - exists d. split; [reflexivity |]. split; [auto |].
    intros i p v Hp. destruct i; discriminate Hp.
  - destruct vs as [| v vs].
    + exists d. split; [reflexivity |]. split; [auto |].
      intros i q w _ Hw. destruct i; discriminate Hw.
    + simpl map in Hndp, Hndv.
      apply List.NoDup_cons_iff in Hndp as [Hp Hndp].
      apply List.NoDup_cons_iff in Hndv as [Hv Hndv].
      destruct (odict_get d p) as [u |] eqn:Hu;
        [| exfalso; apply (Hkeys p); [left; reflexivity | exact Hu]].
      assert (Hpv : sv_id p <> sv_id v) by (apply Hdisj; left; reflexivity).
      set (x := (momentum * v + u - p)%th).
      assert (Hu' : odict_get (odict_set v x d) p = Some u).
      { rewrite odict_get_set_other by congruence. exact Hu. }
      set (d1 := odict_set p (momentum * x + u)%th (odict_set v x d)).
      assert (Hd1 : forall k, odict_get d1 k
                              = if key_eqb p k then Some (momentum * x + u)%th
                                else if key_eqb v k then Some x
                                     else odict_get d k).
      { intros k. unfold d1. rewrite !odict_get_set. reflexivity. }
      destruct (IH vs d1) as [d' [Hfold [Hkeep Hent]]].
      * exact Hndp.
      * exact Hndv.
      * intros q w Hq Hw. apply Hdisj; right; assumption.
      * intros q Hq. rewrite Hd1. destruct (key_eqb p q); [discriminate |].
        destruct (key_eqb v q); [discriminate |]. apply Hkeys. right. exact Hq.
      * exists d'. split.
        { simpl. rewrite Hu. fold x. rewrite Hu'. exact Hfold. }
        assert (Hp_vs : ~ In (sv_id p) (map sv_id vs)).
        { intros Hin. apply in_map_iff in Hin as [w [Hid Hw]].
          apply (Hdisj p w); [left; reflexivity | right; exact Hw | congruence]. }
        assert (Hv_ps : ~ In (sv_id v) (map sv_id ps)).
        { intros Hin. apply in_map_iff in Hin as [q [Hid Hq]].
          apply (Hdisj q v); [right; exact Hq | left; reflexivity | congruence]. }
        split.
        -- intros k Hkp Hkv. simpl in Hkp, Hkv.
           rewrite Hkeep by tauto. rewrite Hd1.
           assert (E1 : key_eqb p k = false) by (apply key_eqb_neq; tauto).
           assert (E2 : key_eqb v k = false) by (apply key_eqb_neq; tauto).
           rewrite E1, E2. reflexivity.
        -- intros i q w Hq Hw. destruct i as [| i].
           ++ simpl in Hq, Hw. injection Hq as <-. injection Hw as <-.
              exists u. split; [exact Hu |].
              rewrite !Hkeep by assumption. rewrite !Hd1.
              rewrite !key_eqb_refl.
              assert (E1 : key_eqb p v = false) by (apply key_eqb_neq; exact Hpv).
              rewrite E1. split; reflexivity.
           ++ simpl in Hq, Hw.
              destruct (Hent i q w Hq Hw) as [u1 [Hu1 [Hw' Hq']]].
              exists u1. split; [| split; assumption].
              rewrite Hd1 in Hu1.
              assert (Hqin : In q ps).
              { apply list_elem_of_In. apply list_elem_of_lookup. eauto. }
              assert (E1 : key_eqb p q = false).
              { apply key_eqb_neq. intros E. apply Hp. rewrite E.
                apply in_map. exact Hqin. }
              assert (E2 : key_eqb v q = false).
              { apply key_eqb_neq. intros E. symmetry in E. revert E.
                apply Hdisj; [right; exact Hqin | left; reflexivity]. }
              rewrite E1, E2 in Hu1. exact Hu1.
Qed.

Lemma apply_nesterov_momentum_run (updates : dref)
      (params : option (list SharedVariable)) (momentum : texpr) (e : engine)
      (d' : odict) :
  let d := deref e updates in
  let ps := match params with
            | Some ps => ps
            | None => odict_keys d
            end in
  let vs := fst (new_velocities (shared_values e) ps) in
  nesterov_fold momentum (zip ps vs) (odict_of_items d) = Some d' ->
  apply_nesterov_momentum updates (option_map (map OfShared) params) momentum None e
  = (inr (length (heap e)),
     Engine (snd (new_velocities (shared_values e) ps)) (heap e ++ [d'])).
Proof.
  intros d ps vs Hfold. unfold apply_nesterov_momentum.
  assert (Hps : forall B (k : list variable -> M B),
             bind (match option_map (map OfShared) params with
                   | Some ps => ret ps
                   | None => dict_keys updates
                   end) k e = k (map OfShared ps) e).
  { intros B k. unfold ps, d. destruct params; reflexivity. }
  rewrite Hps. unfold bind at 1 2. unfold dict_items, OrderedDict. simpl.
  fold d. unfold bind at 1.
  rewrite list_comp_make_velocity. simpl. fold vs.
  unfold bind.
  change (for_each (zip (map OfShared ps) (map OfShared vs)) _)
    with (for_each (zip (map OfShared ps) (map OfShared vs))
                   (nesterov_body momentum (length (heap e)))).
  rewrite (nesterov_loop_run momentum (length (heap e)) ps vs _ d').
  - simpl. rewrite alter_new. reflexivity.
  - simpl. rewrite length_app. simpl. lia.
  - unfold deref. simpl. rewrite list_lookup_total_middle by reflexivity.
    exact Hfold.
Qed.

Section NesterovEquations.

Variable differentiate : texpr -> variable -> texpr.

(** X12.  [nesterov_momentum] allocates one velocity for each parameter,
    with zeros of the parameter's shape, and its dictionary follows the
    equations [velocity' = momentum * velocity - learning_rate * grad] and
    [param' = param + momentum * velocity' - learning_rate * grad], for
    distinct existing parameters. *)
Theorem nesterov_momentum_equations (lg : loss_or_grads)
        (ps : list SharedVariable) (learning_rate : pyval) (mom : texpr)
        (e : engine) :
  List.NoDup (map sv_id ps) ->
  (forall p, In p ps -> sv_id p < length (shared_values e)) ->
  (forall gs, lg = Grads gs -> length gs = length ps) ->
  let n0 := length (shared_values e) in
  exists c e',
    nesterov_momentum differentiate lg (map OfShared ps) learning_rate (mom, None)
                      default_decay_period default_decay_factor e = (inr c, e') /\
    shared_values e'
    = shared_values e
      ++ map (fun p => np_zeros_like (shared_values e !!! sv_id p)) ps /\
    forall (i : nat) (p : SharedVariable) (g : texpr),
      ps !! i = Some p -> resolved_grads differentiate lg ps !! i = Some g ->
      exists uv up,
        odict_get (deref e' c) (Shared (n0 + i) 0) = Some uv /\
        odict_get (deref e' c) p = Some up /\
        forall st idx,
          at_ uv st idx
          = (at_ mom st idx * data (st !!! (n0 + i)%nat) idx
             - at_ learning_rate st idx * at_ g st idx)%R /\
          at_ up st idx
          = (at_ p st idx + at_ mom st idx * at_ uv st idx
             - at_ learning_rate st idx * at_ g st idx)%R.
Proof.
  intros Hnd Hold Hlen n0.
  set (gs := resolved_grads differentiate lg ps).
  assert (Hgl : length gs = length ps).
  { unfold gs. apply resolved_grads_length. exact Hlen. }
  set (ds := sgd_dict (as_expr learning_rate) (zip ps gs)).
  set (e1 := Engine (shared_values e) (heap e ++ [ds])).
  set (vs := fst (new_velocities (shared_values e) ps)).
  assert (Hids : map sv_id vs = seq (length (shared_values e)) (length ps))
    by apply new_velocities_ids.
  assert (Hds : deref e1 (length (heap e)) = ds).
  { unfold deref, e1. simpl. apply list_lookup_total_middle. reflexivity. }
  assert (Hkeys : odict_keys ds = ps) by (apply sgd_dict_keys; exact Hgl).
  assert (Hndds : List.NoDup (key_ids ds)) by (apply sgd_dict_NoDup; exact Hnd).
  assert (Hcopy : forall k, odict_get (odict_of_items ds) k = odict_get ds k).
  { intros k. apply odict_get_of_items. exact Hndds. }
  destruct (nesterov_fold_distinct mom ps vs (odict_of_items ds))
    as [dm [Hfold [_ Hent]]].
  { exact Hnd. }
  { rewrite Hids. apply List.seq_NoDup. }
  { intros p v Hp Hv Heq.
    assert (Hin : In (sv_id v) (map sv_id vs)) by (apply in_map; exact Hv).
    rewrite Hids in Hin. apply in_seq in Hin. specialize (Hold p Hp). lia. }
  { intros p Hp. rewrite Hcopy.
    apply list_elem_of_In in Hp. apply list_elem_of_lookup in Hp as [i Hi].
    destruct (lookup_lt_is_Some_2 gs i) as [g Hg].
    { rewrite Hgl. apply lookup_lt_is_Some. eauto. }
    unfold ds. rewrite (sgd_dict_get _ ps gs i p g Hnd Hi Hg). discriminate. }
  exists (S (length (heap e))),
         (Engine (snd (new_velocities (shared_values e) ps))
                 ((heap e ++ [ds]) ++ [dm])).
  assert (Hdm : deref (Engine (snd (new_velocities (shared_values e) ps))
                              ((heap e ++ [ds]) ++ [dm])) (S (length (heap e))) = dm).
  { unfold deref. simpl. apply list_lookup_total_middle.
    rewrite length_app. simpl. lia. }
  rewrite Hdm. split; [| split].
  - unfold nesterov_momentum. rewrite lr_decay_default.
    unfold nesterov_momentum_rule. simpl fst. simpl snd.
    unfold sgd. unfold bind. rewrite lr_decay_default.
    rewrite (sgd_rule_run differentiate lg ps learning_rate e Hnd Hlen).
    fold gs. fold ds. fold e1.
    pose proof (apply_nesterov_momentum_run (length (heap e)) None mom e1 dm) as Hrun.
    cbv zeta in Hrun. rewrite Hds, Hkeys in Hrun.
    simpl option_map in Hrun. rewrite Hrun by exact Hfold.
    unfold e1. simpl. rewrite length_app. simpl.
    replace (length (heap e) + 1) with (S (length (heap e))) by lia.
    reflexivity.
  - simpl. apply new_velocities_store. exact Hold.
  - intros i p g Hp Hg.
    destruct (new_velocities_lookup (shared_values e) ps i p Hp) as [v [Hv Hvid]].
    fold vs in Hv.
    destruct (Hent i p v Hp Hv) as [u [Hu [Hvu Hpu]]].
    rewrite Hcopy in Hu. unfold ds in Hu.
    rewrite (sgd_dict_get _ ps gs i p g Hnd Hp Hg) in Hu.
    injection Hu as <-.
    eexists _, _. split; [| split; [exact Hpu |]].
    + rewrite <- Hvu. apply odict_get_id. simpl. fold n0 in Hvid. lia.
    + intros st idx. unfold at_. simpl. rewrite Hvid. fold n0. split; lra.
Qed.

End NesterovEquations.

Lemma nesterov_momentum_equations_witness :
  exists c e',
    nesterov_momentum (fun l _ => l) (Grads [T.constant 0.5%R])
                      (map OfShared [Shared 0 0]) (PyFloat 0.1%R)
                      (T.constant 0.9%R, None)
                      default_decay_period default_decay_factor example_engine
    = (inr c, e') /\
    shared_values e' = [scalar 1%R; np_zeros_like (scalar 1%R)].
Proof.
  destruct (nesterov_momentum_equations (fun l _ => l) (Grads [T.constant 0.5%R])
              [Shared 0 0] (PyFloat 0.1%R) (T.constant 0.9%R) example_engine)
    as [c [e' [Hrun [Hsv _]]]].
  - simpl. constructor; [simpl; tauto | constructor].
  - simpl. intros p [<- | []]. simpl. lia.
  - intros gs [= <-]. reflexivity.
  - exists c, e'. split; [exact Hrun | exact Hsv].
Defined.

(** ** A parameter that is not a key *)

Lemma odict_get_not_key (d : odict) (k : SharedVariable) :
  ~ In (sv_id k) (key_ids d) -> odict_get d k = None.
Proof.
  intros H. destruct (odict_get d k) as [v |] eqn:E; [| reflexivity].
  exfalso. apply H. destruct (odict_get_In d k v E) as [k' [Hin Hid]].
  rewrite <- Hid. apply (in_map (fun kv => sv_id (fst kv)) d (k', v)). exact Hin.
Qed.

Lemma odict_of_items_missing (d : odict) (k : SharedVariable) :
  odict_get d k = None -> odict_get (odict_of_items d) k = None.
Proof.
  intros H. unfold odict_of_items. rewrite odict_get_fold_set.
  rewrite (odict_get_not_key (rev d) k); [reflexivity |].
  rewrite key_ids_rev. intros Hin. apply in_rev in Hin.
  apply odict_get_None in H. contradiction.
Qed.

Lemma momentum_fold_missing (momentum : texpr) (ps vs : list SharedVariable)
      (d : odict) (p : SharedVariable) :
  In p ps -> length ps <= length vs ->
  odict_get d p = None ->
  (forall v, In v vs -> sv_id v <> sv_id p) ->
  momentum_fold momentum (zip ps vs) d = None.
Proof.
  revert vs d. induction ps as [| q ps IH]; intros vs d Hin Hlen Hp Hv;
    [contradiction |].
  destruct vs as [| v vs]; [simpl in Hlen; lia |].
  simpl. destruct (odict_get d q) as [u |] eqn:Hu; [| reflexivity].
  assert (Hqp : sv_id q <> sv_id p).
  { intros E. rewrite (odict_get_id d q p E) in Hu. congruence. }
  apply IH.
  - destruct Hin as [-> | Hin]; [contradiction | exact Hin].
  - simpl in Hlen. lia.
  - rewrite !odict_get_set_other; [exact Hp | | exact Hqp].
    apply Hv. left. reflexivity.
  - intros w Hw. apply Hv. right. exact Hw.
Qed.

Lemma nesterov_fold_missing (momentum : texpr) (ps vs : list SharedVariable)
      (d : odict) (p : SharedVariable) :
  In p ps -> length ps <= length vs ->
  odict_get d p = None ->
  (forall v, In v vs -> sv_id v <> sv_id p) ->
  nesterov_fold momentum (zip ps vs) d = None.
Proof.
  revert vs d. induction ps as [| q ps IH]; intros vs d Hin Hlen Hp Hv;
    [contradiction |].
  destruct vs as [| v vs]; [simpl in Hlen; lia |].
  simpl. destruct (odict_get d q) as [u |] eqn:Hu; [| reflexivity].
  destruct (odict_get (odict_set v _ d) q) as [u' |] eqn:Hu'; [| reflexivity].
  assert (Hqp : sv_id q <> sv_id p).
  { intros E. rewrite (odict_get_id d q p E) in Hu. congruence. }
  apply IH.
  - destruct Hin as [-> | Hin]; [contradiction | exact Hin].
  - simpl in Hlen. lia.
  - rewrite !odict_get_set_other; [exact Hp | | exact Hqp].
    apply Hv. left. reflexivity.
  - intros w Hw. apply Hv. right. exact Hw.
Qed.

Lemma momentum_loop_fail (momentum : texpr) (c : dref)
      (ps vs : list SharedVariable) (e : engine) :
  c < length (heap e) ->
  momentum_fold momentum (zip ps vs) (deref e c) = None ->
  exists e',
    for_each (zip (map OfShared ps) (map OfShared vs)) (momentum_body momentum c) e
    = (inl KeyError, e').
Proof.
  revert vs e. induction ps as [| p ps IH]; intros vs e Hc Hfold;
    [discriminate |].
  destruct vs as [| v vs]; [discriminate |].
  simpl in Hfold.
  change (zip (map OfShared (p :: ps)) (map OfShared (v :: vs)))
    with ((OfShared p, OfShared v) :: zip (map OfShared ps) (map OfShared vs)).
  rewrite for_each_cons.
  destruct (odict_get (deref e c) p) as [u |] eqn:Hu.
  - rewrite (momentum_body_run momentum c p v e u Hu).
    set (e1 := Engine (shared_values e) _).
    apply (IH vs e1).
    + unfold e1. simpl. rewrite !length_alter. exact Hc.
    + unfold e1, deref. simpl.
      rewrite !list_lookup_total_alter_eq; [exact Hfold | exact Hc |].
      rewrite length_alter. exact Hc.
  - exists e. unfold momentum_body, bind, dict_getitem. simpl. rewrite Hu.
    reflexivity.
Qed.

Lemma nesterov_loop_fail (momentum : texpr) (c : dref)
      (ps vs : list SharedVariable) (e : engine) :
  c < length (heap e) ->
  nesterov_fold momentum (zip ps vs) (deref e c) = None ->
  exists e',
    for_each (zip (map OfShared ps) (map OfShared vs)) (nesterov_body momentum c) e
    = (inl KeyError, e').
Proof.
  revert vs e. induction ps as [| p ps IH]; intros vs e Hc Hfold;
    [discriminate |].
  destruct vs as [| v vs]; [discriminate |].
  simpl in Hfold.
  change (zip (map OfShared (p :: ps)) (map OfShared (v :: vs)))
    with ((OfShared p, OfShared v) :: zip (map OfShared ps) (map OfShared vs)).
  rewrite for_each_cons.
  destruct (odict_get (deref e c) p) as [u |] eqn:Hu.
  - destruct (odict_get (odict_set v (momentum * v + u - p)%th (deref e c)) p)
      as [u' |] eqn:Hu'.
    + rewrite (nesterov_body_run momentum c p v e u u' Hc Hu Hu').
      set (e1 := Engine (shared_values e) _).
      apply (IH vs e1).
      * unfold e1. simpl. rewrite !length_alter. exact Hc.
      * unfold e1, deref. simpl.
        rewrite !list_lookup_total_alter_eq; [exact Hfold | exact Hc |].
        rewrite length_alter. exact Hc.
    + exfalso. rewrite odict_get_set in Hu'.
      destruct (key_eqb v p); [discriminate | congruence].
  - exists e. unfold nesterov_body, bind, dict_getitem. simpl. rewrite Hu.
    reflexivity.
Qed.

(** X13.  [apply_momentum] and [apply_nesterov_momentum], with the
    velocities left to the function, raise [KeyError] when one of the
    given parameters is not a key of the update dictionary. *)
Theorem momentum_missing_key (updates : dref) (ps : list SharedVariable)
        (momentum : texpr) (e : engine) (p : SharedVariable) :
  (forall q, In q ps -> sv_id q < length (shared_values e)) ->
  In p ps ->
  odict_get (deref e updates) p = None ->
  exists e1 e2,
    apply_momentum updates (Some (map OfShared ps)) momentum None e
    = (inl KeyError, e1) /\
    apply_nesterov_momentum updates (Some (map OfShared ps)) momentum None e
    = (inl KeyError, e2).
Proof.
  intros Hold Hin Hp.
  set (vs := fst (new_velocities (shared_values e) ps)).
  set (e1 := Engine (snd (new_velocities (shared_values e) ps))
                    (heap e ++ [odict_of_items (deref e updates)])).
  assert (Hids : map sv_id vs = seq (length (shared_values e)) (length ps))
    by apply new_velocities_ids.
  assert (Hlen : length ps <= length vs).
  { rewrite <- (length_map sv_id vs), Hids, length_seq. lia. }
  assert (Hfresh : forall v, In v vs -> sv_id v <> sv_id p).
  { intros v Hv E.
    assert (Hi : In (sv_id v) (map sv_id vs)) by (apply in_map; exact Hv).
    rewrite Hids in Hi. apply in_seq in Hi. specialize (Hold p Hin). lia. }
  assert (Hc : length (heap e) < length (heap e1)).
  { unfold e1. simpl. rewrite length_app. simpl. lia. }
  assert (Hd : deref e1 (length (heap e)) = odict_of_items (deref e updates)).
  { unfold e1, deref. simpl. apply list_lookup_total_middle. reflexivity. }
  assert (Hmiss : odict_get (deref e1 (length (heap e))) p = None).
  { rewrite Hd. apply odict_of_items_missing. exact Hp. }
  destruct (momentum_loop_fail momentum (length (heap e)) ps vs e1 Hc) as [ea Ha].
  { apply (momentum_fold_missing momentum ps vs _ p); assumption. }
  destruct (nesterov_loop_fail momentum (length (heap e)) ps vs e1 Hc) as [eb Hb].
  { apply (nesterov_fold_missing momentum ps vs _ p); assumption. }
  exists ea, eb. split.
  - unfold apply_momentum. unfold bind at 1. unfold ret at 1.
    unfold bind at 1 2. unfold dict_items, OrderedDict. simpl.
    unfold bind at 1. rewrite list_comp_make_velocity. simpl.
    fold vs. fold e1. unfold bind.
    change (for_each (zip (map OfShared ps) (map OfShared vs)) _)
      with (for_each (zip (map OfShared ps) (map OfShared vs))
                     (momentum_body momentum (length (heap e)))).
    rewrite Ha. reflexivity.
  - unfold apply_nesterov_momentum. unfold bind at 1. unfold ret at 1.
    unfold bind at 1 2. unfold dict_items, OrderedDict. simpl.
    unfold bind at 1. rewrite list_comp_make_velocity. simpl.
    fold vs. fold e1. unfold bind.
    change (for_each (zip (map OfShared ps) (map OfShared vs)) _)
      with (for_each (zip (map OfShared ps) (map OfShared vs))
                     (nesterov_body momentum (length (heap e)))).
    rewrite Hb. reflexivity.
Qed.

Lemma momentum_missing_key_witness :
  exists e1 e2,
    apply_momentum 0 (Some (map OfShared [Shared 1 0])) (T.constant 0.9%R) None
                   (Engine [scalar 1%R; scalar 2%R] [[(Shared 0 0, T.constant 2%R)]])
    = (inl KeyError, e1) /\
    apply_nesterov_momentum 0 (Some (map OfShared [Shared 1 0])) (T.constant 0.9%R)
                   None
                   (Engine [scalar 1%R; scalar 2%R] [[(Shared 0 0, T.constant 2%R)]])
    = (inl KeyError, e2).
Proof.
  apply (momentum_missing_key 0 [Shared 1 0] (T.constant 0.9%R)
           (Engine [scalar 1%R; scalar 2%R] [[(Shared 0 0, T.constant 2%R)]])
           (Shared 1 0)).
  - simpl. intros q [<- | []]. simpl. lia.
  - left. reflexivity.
  - reflexivity.
Defined.

(** ** Momentum works on a copy *)

(** The two functions on velocities supplied by the caller. *)
Lemma apply_momentum_given_run (updates : dref)
      (params : option (list SharedVariable)) (vs : list SharedVariable)
      (momentum : texpr) (e : engine) (d' : odict) :
  let d := deref e updates in
  let ps := match params with
            | Some ps => ps
            | None => odict_keys d
            end in
  momentum_fold momentum (zip ps vs) (odict_of_items d) = Some d' ->
  apply_momentum updates (option_map (map OfShared) params) momentum
                 (Some (map OfShared vs)) e
  = (inr (length (heap e)), Engine (shared_values e) (heap e ++ [d'])).
Proof.
  intros d ps Hfold. unfold apply_momentum.
  assert (Hps : forall B (k : list variable -> M B),
             bind (match option_map (map OfShared) params with
                   | Some ps => ret ps
                   | None => dict_keys updates
                   end) k e = k (map OfShared ps) e).
  { intros B k. unfold ps, d. destruct params; reflexivity. }
  rewrite Hps. unfold bind at 1 2. unfold dict_items, OrderedDict. simpl.
  fold d. unfold bind at 1. unfold ret at 1. unfold bind.
  change (for_each (zip (map OfShared ps) (map OfShared vs)) _)
    with (for_each (zip (map OfShared ps) (map OfShared vs))
                   (momentum_body momentum (length (heap e)))).
  rewrite (momentum_loop_run momentum (length (heap e)) ps vs _ d').
  - simpl. rewrite alter_new. reflexivity.
  - simpl. rewrite length_app. simpl. lia.
  - unfold deref. simpl. rewrite list_lookup_total_middle by reflexivity.
    exact Hfold.
Qed.

Lemma apply_nesterov_momentum_given_run (updates : dref)
      (params : option (list SharedVariable)) (vs : list SharedVariable)
      (momentum : texpr) (e : engine) (d' : odict) :
  let d := deref e updates in
  let ps := match params with
            | Some ps => ps
            | None => odict_keys d
            end in
  nesterov_fold momentum (zip ps vs) (odict_of_items d) = Some d' ->
  apply_nesterov_momentum updates (option_map (map OfShared) params) momentum
                          (Some (map OfShared vs)) e
  = (inr (length (heap e)), Engine (shared_values e) (heap e ++ [d'])).
Proof.
  intros d ps Hfold. unfold apply_nesterov_momentum.
  assert (Hps : forall B (k : list variable -> M B),
             bind (match option_map (map OfShared) params with
                   | Some ps => ret ps
                   | None => dict_keys updates
                   end) k e = k (map OfShared ps) e).
  { intros B k. unfold ps, d. destruct params; reflexivity. }
  rewrite Hps. unfold bind at 1 2. unfold dict_items, OrderedDict. simpl.
  fold d. unfold bind at 1. unfold ret at 1. unfold bind.
  change (for_each (zip (map OfShared ps) (map OfShared vs)) _)
    with (for_each (zip (map OfShared ps) (map OfShared vs))
                   (nesterov_body momentum (length (heap e)))).
  rewrite (nesterov_loop_run momentum (length (heap e)) ps vs _ d').
  - simpl. rewrite alter_new. reflexivity.
  - simpl. rewrite length_app. simpl. lia.
  - unfold deref. simpl. rewrite list_lookup_total_middle by reflexivity.
    exact Hfold.
Qed.

(** C10.  [apply_momentum] and [apply_nesterov_momentum] do not mutate
    the dictionary they are given: they work on a copy of it.

    Whatever the arguments, and whether the call returns or raises, the
    caller's dictionary object (and every other dictionary that existed)
    holds afterwards what it held before; a returned dictionary is a new
    object, and it has every key of the caller's dictionary.

    For a dictionary with distinct keys and distinct parameters that are
    keys of it (all keys when no list is given), the call returns the
    copy with the velocity entries added and the parameter entries
    rewritten.  The velocities [vs] are the ones the caller supplies
    (distinct, and none of them a parameter) or, by default, new
    variables, one for each parameter, which then has to exist.  For the
    [i]-th parameter [p] and the [i]-th velocity [v], with [u] the
    expression the caller's dictionary has for [p], the copy maps [v] to
    [momentum * v + u - p] and [p] to [momentum * v + u], and for the
    Nesterov variant [p] to [momentum * (momentum * v + u - p) + u].
    Every key that is no parameter and no velocity has in the copy the
    expression it has in the caller's dictionary. *)
Theorem momentum_does_not_mutate_input (updates : dref) (momentum : texpr)
        (e : engine) :
  updates < length (heap e) ->
  let d := deref e updates in
  let n0 := length (shared_values e) in
  (forall params velocities : option (list variable),
      returns_fresh_copy updates e
        (apply_momentum updates params momentum velocities e) /\
      returns_fresh_copy updates e
        (apply_nesterov_momentum updates params momentum velocities e)) /\
  (forall params velocities : option (list SharedVariable),
      let ps := match params with
                | Some ps => ps
                | None => odict_keys d
                end in
      List.NoDup (key_ids d) -> List.NoDup (map sv_id ps) ->
      (forall p, In p ps -> odict_get d p <> None) ->
      match velocities with
      | Some vs => List.NoDup (map sv_id vs) /\
                   (forall p v, In p ps -> In v vs -> sv_id p <> sv_id v)
      | None => forall p, In p ps -> sv_id p < n0
      end ->
      exists (c : dref) (e1 e2 : engine) (vs : list SharedVariable),
        apply_momentum updates (option_map (map OfShared) params) momentum
                       (option_map (map OfShared) velocities) e
        = (inr c, e1) /\
        apply_nesterov_momentum updates (option_map (map OfShared) params)
                                momentum (option_map (map OfShared) velocities) e
        = (inr c, e2) /\
        deref e1 updates = d /\ deref e2 updates = d /\
        match velocities with
        | Some vs' => vs = vs'
        | None => map sv_id vs = seq n0 (length ps)
        end /\
        (forall (i : nat) (p v : SharedVariable),
            ps !! i = Some p -> vs !! i = Some v ->
            exists u : texpr,
              odict_get d p = Some u /\
              odict_get (deref e1 c) v = Some (momentum * v + u - p)%th /\
              odict_get (deref e1 c) p = Some (momentum * v + u)%th /\
              odict_get (deref e2 c) v = Some (momentum * v + u - p)%th /\
              odict_get (deref e2 c) p
              = Some (momentum * (momentum * v + u - p) + u)%th) /\
        (forall k : SharedVariable,
            ~ In (sv_id k) (map sv_id ps) -> ~ In (sv_id k) (map sv_id vs) ->
            odict_get (deref e1 c) k = odict_get d k /\
            odict_get (deref e2 c) k = odict_get d k)).
Proof.
  intros Hlt d n0. split.
  - intros params velocities.
    set (ps := match params with
               | Some ps => ps
               | None => map OfShared (odict_keys (deref e updates))
               end).
    assert (Hps : forall B (k : list variable -> M B),
               bind (match params with
                     | Some ps => ret ps
                     | None => dict_keys updates
                     end) k e = k ps e).
    { intros B k. unfold ps. destruct params; reflexivity. }
    split.
    + unfold apply_momentum. rewrite Hps.
      apply fresh_copy_frame; [exact Hlt | |].
      * intros c. apply touches_only_bind.
        -- destruct velocities; [apply touches_only_ret |].
           apply touches_only_list_comp. intros p. apply touches_only_make_velocity.
        -- intros vs. apply touches_only_bind;
             [apply momentum_loop_touches_copy | intros _; apply touches_only_ret].
      * intros c. apply returns_bind. intros vs. apply returns_bind. intros _.
        apply returns_ret.
    + unfold apply_nesterov_momentum. rewrite Hps.
      apply fresh_copy_frame; [exact Hlt | |].
      * intros c. apply touches_only_bind.
        -- destruct velocities; [apply touches_only_ret |].
           apply touches_only_list_comp. intros p. apply touches_only_make_velocity.
        -- intros vs. apply touches_only_bind;
             [apply nesterov_loop_touches_copy | intros _; apply touches_only_ret].
      * intros c. apply returns_bind. intros vs. apply returns_bind. intros _.
        apply returns_ret.
  - intros params velocities ps Hnd Hndp Hkeys Hvel.
    set (copy := odict_of_items d).
    set (vs := match velocities with
               | Some vs => vs
               | None => fst (new_velocities (shared_values e) ps)
               end).
    set (sv' := match velocities with
                | Some _ => shared_values e
                | None => snd (new_velocities (shared_values e) ps)
                end).
    assert (Hcopy : forall k, odict_get copy k = odict_get d k).
    { intros k. apply odict_get_of_items. exact Hnd. }
    assert (Hkeys' : forall p, In p ps -> odict_get copy p <> None).
    { intros p Hp. rewrite Hcopy. apply Hkeys. exact Hp. }
    assert (Hvs : List.NoDup (map sv_id vs) /\
                  (forall p v, In p ps -> In v vs -> sv_id p <> sv_id v)).
    { unfold vs. destruct velocities as [vs0 |]; [exact Hvel |].
      pose proof (new_velocities_ids (shared_values e) ps) as Hids.
      split.
      - rewrite Hids. apply List.seq_NoDup.
      - intros p v Hp Hv Heq.
        assert (Hin : In (sv_id v)
                         (map sv_id (fst (new_velocities (shared_values e) ps))))
          by (apply in_map; exact Hv).
        rewrite Hids in Hin. apply in_seq in Hin.
        specialize (Hvel p Hp). unfold n0 in Hvel. lia. }
    destruct Hvs as [Hndv Hdisj].
    destruct (momentum_fold_distinct momentum ps vs copy Hndp Hndv Hdisj Hkeys')
      as [d1 [Hf1 [Hkeep1 [Hent1 _]]]].
    destruct (nesterov_fold_distinct momentum ps vs copy Hndp Hndv Hdisj Hkeys')
      as [d2 [Hf2 [Hkeep2 Hent2]]].
    exists (length (heap e)), (Engine sv' (heap e ++ [d1])),
           (Engine sv' (heap e ++ [d2])), vs.
    assert (Hd1 : deref (Engine sv' (heap e ++ [d1])) (length (heap e)) = d1).
    { unfold deref. simpl. apply list_lookup_total_middle. reflexivity. }
    assert (Hd2 : deref (Engine sv' (heap e ++ [d2])) (length (heap e)) = d2).
    { unfold deref. simpl. apply list_lookup_total_middle. reflexivity. }
    rewrite Hd1, Hd2.
    split.
    { unfold vs, sv' in *. destruct velocities as [vs0 |]; simpl option_map.
      - apply (apply_momentum_given_run updates params vs0 momentum e d1). exact Hf1.
      - apply (apply_momentum_run updates params momentum e d1). exact Hf1. }
    split.
    { unfold vs, sv' in *. destruct velocities as [vs0 |]; simpl option_map.
      - apply (apply_nesterov_momentum_given_run updates params vs0 momentum e d2).
        exact Hf2.
      - apply (apply_nesterov_momentum_run updates params momentum e d2). exact Hf2. }
    split; [unfold deref; simpl; apply lookup_total_app_l; exact Hlt |].
    split; [unfold deref; simpl; apply lookup_total_app_l; exact Hlt |].
    split.
    { unfold vs. destruct velocities as [vs0 |]; [reflexivity |].
      apply new_velocities_ids. }
    split.
    + intros i p v Hp Hv.
      destruct (Hent1 i p v Hp Hv) as [u [Hu [Hp1 Hv1]]].
      destruct (Hent2 i p v Hp Hv) as [u' [Hu' [Hv2 Hp2]]].
      rewrite Hu in Hu'. injection Hu' as <-.
      exists u. split; [rewrite <- Hcopy; exact Hu |].
      repeat split; assumption.
    + intros k Hnk Hnv.
      rewrite Hkeep1, Hkeep2 by assumption.
      rewrite Hcopy. split; reflexivity.
Qed.

Lemma momentum_does_not_mutate_input_witness :
  exists (c : dref) (e1 e2 : engine) (vs : list SharedVariable),
    apply_momentum 0 None (T.constant 0.9%R) None example_engine = (inr c, e1) /\
    apply_nesterov_momentum 0 None (T.constant 0.9%R) None example_engine
    = (inr c, e2) /\
    deref e1 0 = deref example_engine 0 /\
    deref e2 0 = deref example_engine 0 /\
    map sv_id vs = seq 1 1 /\
    (forall (i : nat) (p v : SharedVariable),
        odict_keys (deref example_engine 0) !! i = Some p -> vs !! i = Some v ->
        exists u : texpr,
          odict_get (deref example_engine 0) p = Some u /\
          odict_get (deref e1 c) v = Some (T.constant 0.9%R * v + u - p)%th /\
          odict_get (deref e1 c) p = Some (T.constant 0.9%R * v + u)%th /\
          odict_get (deref e2 c) v = Some (T.constant 0.9%R * v + u - p)%th /\
          odict_get (deref e2 c) p
          = Some (T.constant 0.9%R * (T.constant 0.9%R * v + u - p) + u)%th) /\
    (forall k : SharedVariable,
        ~ In (sv_id k) (map sv_id (odict_keys (deref example_engine 0))) ->
        ~ In (sv_id k) (map sv_id vs) ->
        odict_get (deref e1 c) k = odict_get (deref example_engine 0) k /\
        odict_get (deref e2 c) k = odict_get (deref example_engine 0) k).
Proof.
  destruct (momentum_does_not_mutate_input 0 (T.constant 0.9%R) example_engine)
    as [_ Hcopy].
  - simpl. lia.
  - apply (Hcopy None None).
    + simpl. constructor; [simpl; tauto | constructor].
    + simpl. constructor; [simpl; tauto | constructor].
    + simpl. intros p [<- | []]. discriminate.
    + simpl. intros p [<- | []]. simpl. lia.
Defined.

(** ** Momentum on velocities supplied by the caller *)

Lemma zip_take_l {A B} (xs : list A) (ys : list B) :
  zip xs ys = zip (take (length ys) xs) ys.
Proof.
  revert ys. induction xs as [| x xs IH]; intros [| y ys]; simpl; try reflexivity.
  rewrite <- IH. reflexivity.
Qed.

Lemma NoDup_lookup_eq {A} (l : list A) (i j : nat) (x : A) :
  List.NoDup l -> l !! i = Some x -> l !! j = Some x -> i = j.
Proof.
  intros Hnd. revert i j. induction Hnd as [| a l Ha Hnd IH]; intros i j Hi Hj.
  - destruct i; discriminate Hi.
  - destruct i as [| i], j as [| j]; simpl in Hi, Hj.
    + reflexivity.
    + exfalso. apply Ha. injection Hi as ->.
      apply list_elem_of_In. apply list_elem_of_lookup. eauto.
    + exfalso. apply Ha. injection Hj as ->.
      apply list_elem_of_In. apply list_elem_of_lookup. eauto.
    + f_equal. apply IH; assumption.
Qed.

(** X14.  With velocities supplied by the caller, [apply_momentum] allocates
    no shared variable and pairs the i-th parameter with the i-th
    velocity: the parameter is mapped to [momentum * velocity + u] and the
    velocity to [momentum * velocity + u - param], [u] being the update
    the parameter had.  A parameter beyond the end of a shorter list of
    velocities keeps the update it had. *)
Theorem apply_momentum_given_velocities (updates : dref)
        (ps vs : list SharedVariable) (momentum : texpr) (e : engine) :
  let d := deref e updates in
  List.NoDup (key_ids d) ->
  List.NoDup (map sv_id ps) -> List.NoDup (map sv_id vs) ->
  (forall p v, In p ps -> In v vs -> sv_id p <> sv_id v) ->
  (forall p, In p ps -> odict_get d p <> None) ->
  exists c e',
    apply_momentum updates (Some (map OfShared ps)) momentum
                   (Some (map OfShared vs)) e = (inr c, e') /\
    shared_values e' = shared_values e /\
    (forall (i : nat) (p v : SharedVariable),
        ps !! i = Some p -> vs !! i = Some v ->
        exists u,
          odict_get d p = Some u /\
          odict_get (deref e' c) p = Some (momentum * v + u)%th /\
          odict_get (deref e' c) v = Some (momentum * v + u - p)%th) /\
    (forall (i : nat) (p : SharedVariable),
        ps !! i = Some p -> length vs <= i ->
        odict_get (deref e' c) p = odict_get d p).
Proof.
  intros d Hndd Hndp Hndv Hdisj Hkeys.
  set (ps' := take (length vs) ps).
  assert (Hsub : forall p, In p ps' -> In p ps).
  { intros p Hp. apply list_elem_of_In in Hp. apply list_elem_of_In.
    apply elem_of_take in Hp as [i [Hi _]]. apply list_elem_of_lookup. eauto. }
  assert (Hndp' : List.NoDup (map sv_id ps')).
  { unfold ps'. rewrite <- (take_drop (length vs) ps) in Hndp.
    rewrite map_app in Hndp. apply List.NoDup_app_remove_r in Hndp. exact Hndp. }
  assert (Hcopy : forall k, odict_get (odict_of_items d) k = odict_get d k).
  { intros k. apply odict_get_of_items. exact Hndd. }
  destruct (momentum_fold_distinct momentum ps' vs (odict_of_items d))
    as [dm [Hfold [Hkeep [Hent _]]]].
  { exact Hndp'. }
  { exact Hndv. }
  { intros p v Hp Hv. apply Hdisj; [apply Hsub; exact Hp | exact Hv]. }
  { intros p Hp. rewrite Hcopy. apply Hkeys. apply Hsub. exact Hp. }
  set (e1 := Engine (shared_values e) (heap e ++ [odict_of_items d])).
  exists (length (heap e)),
         (Engine (shared_values e) (heap e ++ [dm])).
  assert (Hdm : deref (Engine (shared_values e) (heap e ++ [dm])) (length (heap e)) = dm).
  { unfold deref. simpl. apply list_lookup_total_middle. reflexivity. }
  rewrite Hdm. split; [| split; [| split]].
  - unfold apply_momentum. unfold bind at 1. unfold ret at 1.
    unfold bind at 1 2. unfold dict_items, OrderedDict. simpl. fold d.
    unfold bind at 1. unfold ret at 1. unfold bind.
    change (for_each (zip (map OfShared ps) (map OfShared vs)) _)
      with (for_each (zip (map OfShared ps) (map OfShared vs))
                     (momentum_body momentum (length (heap e)))).
    fold e1.
    rewrite (momentum_loop_run momentum (length (heap e)) ps vs e1 dm).
    + unfold e1. simpl. rewrite alter_new. reflexivity.
    + unfold e1. simpl. rewrite length_app. simpl. lia.
    + unfold e1, deref. simpl. rewrite list_lookup_total_middle by reflexivity.
      rewrite zip_take_l. exact Hfold.
  - reflexivity.
  - intros i p v Hp Hv.
    assert (Hp' : ps' !! i = Some p).
    { unfold ps'. rewrite lookup_take_lt; [exact Hp |].
      apply lookup_lt_is_Some. eauto. }
    destruct (Hent i p v Hp' Hv) as [u [Hu [Hpu Hvu]]].
    exists u. rewrite <- Hcopy. split; [exact Hu |]. split; assumption.
  - intros i p Hp Hi. rewrite Hkeep; [apply Hcopy | |].
    + intros Hin. apply in_map_iff in Hin as [q [Hid Hq]].
      apply list_elem_of_In in Hq. apply list_elem_of_lookup in Hq as [j Hj].
      assert (Hjl : j < length vs).
      { unfold ps' in Hj. apply lookup_lt_Some in Hj. rewrite length_take in Hj. lia. }
      unfold ps' in Hj. rewrite lookup_take_lt in Hj by exact Hjl.
      assert (Hij : i = j).
      { apply (NoDup_lookup_eq (map sv_id ps) i j (sv_id p) Hndp).
        - rewrite lookup_map, Hp. reflexivity.
        - rewrite lookup_map, Hj. simpl. rewrite Hid. reflexivity. }
      lia.
    + intros Hin. apply in_map_iff in Hin as [v [Hid Hv]].
      apply (Hdisj p v); [| exact Hv | congruence].
      apply list_elem_of_In. apply list_elem_of_lookup. eauto.
Qed.

Lemma apply_momentum_given_velocities_witness :
  exists c e',
    apply_momentum 0 (Some (map OfShared [Shared 0 0])) (T.constant 0.9%R)
                   (Some (map OfShared [Shared 1 0]))
                   (Engine [scalar 1%R; scalar 0%R] [[(Shared 0 0, T.constant 2%R)]])
    = (inr c, e') /\
    shared_values e' = [scalar 1%R; scalar 0%R].
Proof.
  destruct (apply_momentum_given_velocities 0 [Shared 0 0] [Shared 1 0]
              (T.constant 0.9%R)
              (Engine [scalar 1%R; scalar 0%R] [[(Shared 0 0, T.constant 2%R)]]))
    as [c [e' [Hrun [Hsv _]]]].
  - simpl. constructor; [simpl; tauto | constructor].
  - simpl. constructor; [simpl; tauto | constructor].
  - simpl. constructor; [simpl; tauto | constructor].
  - simpl. intros p v [<- | []] [<- | []]. simpl. lia.
  - simpl. intros p [<- | []]. discriminate.
  - exists c, e'. split; [exact Hrun | exact Hsv].
Defined.

(** ** Burnout: keys that only one of the two rules updates *)

Lemma odict_get_map_values_None (F : SharedVariable * texpr -> texpr) (d : odict)
      (k : SharedVariable) :
  odict_get d k = None -> odict_get (map (fun kv => (fst kv, F kv)) d) k = None.
Proof.
  induction d as [| [k0 v0] d IH]; simpl; [reflexivity |].
  destruct (key_eqb k0 k); [discriminate | exact IH].
Qed.

(** A key of the long dictionary that the initial dictionary does not
    have is mapped to a choice between the long expression and the
    variable itself. *)
Lemma burnout_dict_get_default (long_d initial_d : odict) (t : SharedVariable)
      (burnout : Z) (k : SharedVariable) (lv : texpr) :
  List.NoDup (key_ids long_d) ->
  odict_get long_d k = Some lv -> odict_get initial_d k = None ->
  sv_id k <> sv_id t ->
  exists k', sv_id k' = sv_id k /\
    odict_get (burnout_dict long_d initial_d t burnout) k
    = Some (ifelse (T.ge t (IZR burnout)) lv (read k')).
Proof.
  intros Hnd Hl Hi Hne. unfold burnout_dict.
  rewrite odict_get_set_other by congruence.
  rewrite odict_get_of_items by (rewrite key_ids_map_values; exact Hnd).
  destruct (odict_get_map_values
              (fun kv => ifelse (T.ge t (IZR burnout)) (snd kv)
                                (match odict_get initial_d (fst kv) with
                                 | Some x => x
                                 | None => read (fst kv)
                                 end)) long_d k lv Hnd Hl) as [k' [Hid Hget]].
  exists k'. split; [exact Hid |].
  rewrite Hget. simpl. rewrite (odict_get_id initial_d k' k Hid), Hi. reflexivity.
Qed.

(** X15.  A key of the long dictionary that the initial dictionary does not
    have (such as a state variable of the long rule) is held during the
    burnout: with [burnout = N > 0] its value does not change during the
    first [N] calls of the compiled function, and from then on every call
    gives it the value of the long dictionary's expression. *)
Theorem apply_burnout_frozen_state (long_updates initial_updates : dref)
        (burnout : Z) (e : engine) (k : SharedVariable) (lv : texpr)
        (st0 : store) :
  (0 < burnout)%Z ->
  List.NoDup (key_ids (deref e long_updates)) ->
  odict_get (deref e long_updates) k = Some lv ->
  odict_get (deref e initial_updates) k = None ->
  sv_id k < length (shared_values e) ->
  length (shared_values e) < length st0 ->
  data (st0 !!! length (shared_values e)) [] = 0%R ->
  exists r e',
    apply_burnout long_updates initial_updates burnout e = (inr r, e') /\
    forall n : nat,
      ((Z.of_nat n <= burnout)%Z ->
       run n (deref e' r) st0 !!! sv_id k = st0 !!! sv_id k) /\
      ((burnout <= Z.of_nat n)%Z ->
       run (S n) (deref e' r) st0 !!! sv_id k
       = value lv (run n (deref e' r) st0)).
Proof.
  intros Hpos Hnd Hl Hi Hk Hlen Hzero.
  set (t := Shared (length (shared_values e)) 0).
  set (u := burnout_dict (deref e long_updates) (deref e initial_updates) t burnout).
  exists (length (heap e)),
         (Engine (shared_values e ++ [scalar 0%R]) (heap e ++ [u])).
  assert (Hderef : deref (Engine (shared_values e ++ [scalar 0%R]) (heap e ++ [u]))
                         (length (heap e)) = u).
  { unfold deref. simpl. apply list_lookup_total_middle. reflexivity. }
  rewrite Hderef.
  split; [apply apply_burnout_positive; exact Hpos |].
  destruct (burnout_dict_get_default (deref e long_updates)
              (deref e initial_updates) t burnout k lv Hnd Hl Hi)
    as [k' [Hid Hget]]; [simpl; lia |].
  fold u in Hget.
  assert (Hstep : forall n,
             run (S n) u st0 !!! sv_id k
             = if (Z.of_nat n <? burnout)%Z then run n u st0 !!! sv_id k
               else value lv (run n u st0)).
  { intros n. change (run (S n) u st0) with (apply_updates u (run n u st0)).
    rewrite apply_updates_lookup by (rewrite run_length; lia).
    rewrite Hget.
    rewrite (ifelse_ge_value t burnout lv (read k') (run n u st0) n).
    - simpl. rewrite Hid. reflexivity.
    - rewrite (run_counter u t st0 n).
      + simpl. rewrite Hzero. lra.
      + apply burnout_dict_get_counter.
      + exact Hlen. }
  intros n. split.
  - induction n as [| n IH]; intros Hn; [reflexivity |].
    rewrite Hstep.
    assert (Hlt : (Z.of_nat n <? burnout)%Z = true) by (apply Z.ltb_lt; lia).
    rewrite Hlt. apply IH. lia.
  - intros Hn. rewrite Hstep.
    assert (Hge : (Z.of_nat n <? burnout)%Z = false) by (apply Z.ltb_ge; exact Hn).
    rewrite Hge. reflexivity.
Qed.

Lemma apply_burnout_frozen_state_witness :
  exists r e',
    apply_burnout 0 1 3%Z
      (Engine [scalar 5%R] [[(Shared 0 0, T.constant 2%R)]; []])
    = (inr r, e') /\
    forall n : nat,
      ((Z.of_nat n <= 3)%Z ->
       run n (deref e' r) [scalar 5%R; scalar 0%R] !!! 0 = scalar 5%R) /\
      ((3 <= Z.of_nat n)%Z ->
       run (S n) (deref e' r) [scalar 5%R; scalar 0%R] !!! 0
       = value (T.constant 2%R) (run n (deref e' r) [scalar 5%R; scalar 0%R])).
Proof.
  apply (apply_burnout_frozen_state 0 1 3%Z
           (Engine [scalar 5%R] [[(Shared 0 0, T.constant 2%R)]; []])
           (Shared 0 0) (T.constant 2%R) [scalar 5%R; scalar 0%R]).
  - lia.
  - simpl. constructor; [simpl; tauto | constructor].
  - reflexivity.
  - reflexivity.
  - simpl. lia.
  - simpl. lia.
  - reflexivity.
Defined.

(** X16.  With [burnout > 0], [apply_burnout] returns a new dictionary and
    leaves the existing ones as they are.  Apart from the counter it adds,
    the keys of the result are exactly the keys of the long dictionary: an
    update that only the initial dictionary has is dropped. *)
Theorem apply_burnout_keys (long_updates initial_updates : dref)
        (burnout : Z) (e : engine) :
  (0 < burnout)%Z ->
  exists r e',
    apply_burnout long_updates initial_updates burnout e = (inr r, e') /\
    r = length (heap e) /\
    (forall r0, r0 < length (heap e) -> deref e' r0 = deref e r0) /\
    forall k : SharedVariable,
      sv_id k <> length (shared_values e) ->
      (odict_get (deref e' r) k = None
       <-> odict_get (deref e long_updates) k = None).
Proof.
  intros Hpos.
  set (t := Shared (length (shared_values e)) 0).
  set (u := burnout_dict (deref e long_updates) (deref e initial_updates) t burnout).
  exists (length (heap e)),
         (Engine (shared_values e ++ [scalar 0%R]) (heap e ++ [u])).
  split; [apply apply_burnout_positive; exact Hpos |].
  split; [reflexivity |]. split.
  - intros r0 Hr0. unfold deref. simpl. apply lookup_total_app_l. exact Hr0.
  - intros k Hk.
    assert (Hderef : deref (Engine (shared_values e ++ [scalar 0%R]) (heap e ++ [u]))
                           (length (heap e)) = u).
    { unfold deref. simpl. apply list_lookup_total_middle. reflexivity. }
    rewrite Hderef. unfold u, burnout_dict.
    rewrite odict_get_set_other by (simpl; lia).
    set (F := fun kv : SharedVariable * texpr =>
                ifelse (T.ge t (IZR burnout)) (snd kv)
                       (match odict_get (deref e initial_updates) (fst kv) with
                        | Some x => x
                        | None => read (fst kv)
                        end)).
    split.
    + intros Hnone.
      destruct (odict_get (deref e long_updates) k) as [lv |] eqn:E; [| reflexivity].
      exfalso. revert Hnone. apply odict_of_items_keeps_keys.
      clear -E. induction (deref e long_updates) as [| [k0 v0] d IH];
        simpl in *; [discriminate |].
      destruct (key_eqb k0 k); [discriminate | apply IH; exact E].
    + intros Hnone. apply odict_of_items_missing.
      apply (odict_get_map_values_None F). exact Hnone.
Qed.

Lemma apply_burnout_keys_witness :
  exists r e',
    apply_burnout 0 1 3%Z
      (Engine [scalar 5%R]
              [[(Shared 0 0, T.constant 2%R)]; [(Shared 0 0, T.constant 3%R)]])
    = (inr r, e') /\
    r = 2.
Proof.
  destruct (apply_burnout_keys 0 1 3%Z
              (Engine [scalar 5%R]
                      [[(Shared 0 0, T.constant 2%R)]; [(Shared 0 0, T.constant 3%R)]]))
    as [r [e' [Hrun [Hr _]]]].
  - lia.
  - exists r, e'. split; [exact Hrun | exact Hr].
Defined.

(** ** Wrapping a rule with a burnout period of SGD *)

Section WrapWithBurnout.

Variable differentiate : texpr -> variable -> texpr.

(** X17.  A rule wrapped by [wrap_with_burnout] with [burnout = N > 0]
    updates a parameter as plain SGD does, by
    [param - learning_rate * grad], during the first [N] calls of the
    compiled function, and as the wrapped rule does from then on.  Stated
    for every rule that returns a dictionary with distinct keys and leaves
    the dictionary of SGD, built before it runs, as it is. *)
Theorem wrap_with_burnout_switch {Args} (updates_fn : rule Args) (burnout : Z)
        (lg : loss_or_grads) (ps : list SharedVariable) (learning_rate : pyval)
        (kwargs : Args) (e e2 : engine) (r : dref)
        (i : nat) (p : SharedVariable) (g lv : texpr) (st0 : store) (n : nat) :
  (0 < burnout)%Z ->
  List.NoDup (map sv_id ps) ->
  (forall gs, lg = Grads gs -> length gs = length ps) ->
  let sgd_d := sgd_dict (as_expr learning_rate)
                        (zip ps (resolved_grads differentiate lg ps)) in
  updates_fn lg (map OfShared ps) learning_rate kwargs
             (Engine (shared_values e) (heap e ++ [sgd_d])) = (inr r, e2) ->
  deref e2 (length (heap e)) = sgd_d ->
  List.NoDup (key_ids (deref e2 r)) ->
  ps !! i = Some p -> resolved_grads differentiate lg ps !! i = Some g ->
  odict_get (deref e2 r) p = Some lv ->
  sv_id p < length (shared_values e2) ->
  length (shared_values e2) < length st0 ->
  data (st0 !!! length (shared_values e2)) [] = 0%R ->
  exists c e' v,
    wrap_with_burnout differentiate updates_fn burnout lg (map OfShared ps)
                      learning_rate kwargs e = (inr c, e') /\
    odict_get (deref e' c) p = Some v /\
    value v (run n (deref e' c) st0)
    = if (Z.of_nat n <? burnout)%Z
      then value (read p - as_expr learning_rate * g)%th (run n (deref e' c) st0)
      else value lv (run n (deref e' c) st0).
Proof.
  intros Hpos Hnd Hlen sgd_d Hrule Hsgd Hndl Hp Hg Hlv Hpl Hst Hzero.
  set (t := Shared (length (shared_values e2)) 0).
  set (u := burnout_dict (deref e2 r) (deref e2 (length (heap e))) t burnout).
  exists (length (heap e2)),
         (Engine (shared_values e2 ++ [scalar 0%R]) (heap e2 ++ [u])),
         (ifelse (T.ge t (IZR burnout)) lv (read p - as_expr learning_rate * g)%th).
  assert (Hderef : deref (Engine (shared_values e2 ++ [scalar 0%R]) (heap e2 ++ [u]))
                         (length (heap e2)) = u).
  { unfold deref. simpl. apply list_lookup_total_middle. reflexivity. }
  rewrite Hderef. split; [| split].
  - unfold wrap_with_burnout. unfold bind at 1. unfold sgd.
    rewrite lr_decay_default.
    rewrite (sgd_rule_run differentiate lg ps learning_rate e Hnd Hlen).
    fold sgd_d. rewrite (bind_run _ _ _ _ _ Hrule).
    apply apply_burnout_positive. exact Hpos.
  - unfold u. apply burnout_dict_get; try assumption.
    + rewrite Hsgd. unfold sgd_d. apply (sgd_dict_get _ ps _ i p g Hnd Hp Hg).
    + simpl. lia.
  - apply ifelse_ge_value.
    rewrite (run_counter u t st0 n).
    + simpl. rewrite Hzero. lra.
    + apply burnout_dict_get_counter.
    + exact Hst.
Qed.

End WrapWithBurnout.

Lemma wrap_with_burnout_switch_witness :
  exists c e' v,
    wrap_with_burnout (fun l _ => l) (sgd_rule (fun l _ => l)) 3%Z
                      (Grads [T.constant 0.5%R]) (map OfShared [Shared 0 0])
                      (PyFloat 0.1%R) tt example_engine = (inr c, e') /\
    odict_get (deref e' c) (Shared 0 0) = Some v /\
    value v (run 1 (deref e' c) [scalar 1%R; scalar 0%R])
    = if (Z.of_nat 1 <? 3)%Z
      then value (read (Shared 0 0) - as_expr (PyFloat 0.1%R) * T.constant 0.5%R)%th
                 (run 1 (deref e' c) [scalar 1%R; scalar 0%R])
      else value (read (Shared 0 0) - T.constant 0.1%R * T.constant 0.5%R)%th
                 (run 1 (deref e' c) [scalar 1%R; scalar 0%R]).
Proof.
  apply (wrap_with_burnout_switch (fun l _ => l) (sgd_rule (fun l _ => l)) 3%Z
           (Grads [T.constant 0.5%R]) [Shared 0 0] (PyFloat 0.1%R) tt
           example_engine
           (Engine [scalar 1%R]
                   [[(Shared 0 0, T.constant 2%R)];
                    [(Shared 0 0,
                      (read (Shared 0 0) - T.constant 0.1%R * T.constant 0.5%R)%th)];
                    [(Shared 0 0,
                      (read (Shared 0 0) - T.constant 0.1%R * T.constant 0.5%R)%th)]])
           2 0 (Shared 0 0) (T.constant 0.5%R)
           (read (Shared 0 0) - T.constant 0.1%R * T.constant 0.5%R)%th
           [scalar 1%R; scalar 0%R] 1).
  - lia.
  - simpl. constructor; [simpl; tauto | constructor].
  - intros gs [= <-]. reflexivity.
  - reflexivity.
  - reflexivity.
  - simpl. constructor; [simpl; tauto | constructor].
  - reflexivity.
  - reflexivity.
  - reflexivity.
  - simpl. lia.
  - simpl. lia.
  - reflexivity.
Defined.

(** ** Rules with state variables for each parameter *)

Lemma alloc_state_cells (k : nat) (z : tensor) (sv : store) :
  fst (alloc_state k z sv) = cells_at k (length sv) (length (shape z)).
Proof.
  revert sv. induction k as [| k IH]; intros sv; simpl; [reflexivity |].
  rewrite IH, length_app. simpl. rewrite Nat.add_1_r. reflexivity.
Qed.

Lemma alloc_state_store (k : nat) (z : tensor) (sv : store) :
  snd (alloc_state k z sv) = sv ++ replicate k z.
Proof.
  revert sv. induction k as [| k IH]; intros sv; simpl.
  - rewrite app_nil_r. reflexivity.
  - rewrite IH, <- app_assoc. reflexivity.
Qed.

Lemma cells_at_ids (k n d : nat) : map sv_id (cells_at k n d) = seq n k.
Proof.
  revert n. induction k as [| k IH]; intros n; simpl; [reflexivity |].
  rewrite IH. reflexivity.
Qed.

Lemma set_items_alter (c : dref) (items : odict) (h : list odict) :
  set_items c items h = alter (fun d => odict_update d items) c h.
Proof.
  revert h. induction items as [| kv items IH]; intros h; simpl.
  - symmetry. apply list_alter_id. reflexivity.
  - unfold set_items in *. simpl. rewrite IH, list_alter_alter_eq. reflexivity.
Qed.

Section StateRule.

Variable k : nat.
Variable entries : list SharedVariable -> SharedVariable -> texpr -> odict.
Variable c : dref.

Hypothesis entries_keys :
  forall cells p g kv,
    In kv (entries cells p g) ->
    sv_id (fst kv) = sv_id p \/ In (sv_id (fst kv)) (map sv_id cells).

Lemma state_round_store (pg : SharedVariable * texpr) (e : engine) :
  shared_values (state_round k entries c pg e)
  = shared_values e
    ++ replicate k (np_zeros_like (shared_values e !!! sv_id (fst pg))).
Proof. unfold state_round. simpl. apply alloc_state_store. Qed.

Lemma state_round_deref (pg : SharedVariable * texpr) (e : engine) :
  c < length (heap e) ->
  deref (state_round k entries c pg e) c
  = odict_update (deref e c)
      (entries (cells_at k (length (shared_values e))
                  (length (shape (np_zeros_like
                                    (shared_values e !!! sv_id (fst pg))))))
               (fst pg) (snd pg)).
Proof.
  intros Hc. unfold state_round, deref. simpl.
  rewrite set_items_alter, alloc_state_cells.
  apply list_lookup_total_alter_eq. exact Hc.
Qed.

Lemma state_round_heap (pg : SharedVariable * texpr) (e : engine) :
  length (heap (state_round k entries c pg e)) = length (heap e).
Proof.
  unfold state_round. simpl. rewrite set_items_alter. apply length_alter.
Qed.

(** The state after the loop: what the dictionary holds for the keys of
    the [i]-th round, and the initial values of its state variables. *)
Lemma state_rounds (pgs : list (SharedVariable * texpr)) (e : engine) :
  c < length (heap e) ->
  List.NoDup (map (fun pg => sv_id (fst pg)) pgs) ->
  (forall pg, In pg pgs -> sv_id (fst pg) < length (shared_values e)) ->
  let e' := fold_left (fun e pg => state_round k entries c pg e) pgs e in
  let n0 := length (shared_values e) in
  length (heap e') = length (heap e) /\
  length (shared_values e') = n0 + k * length pgs /\
  (exists new, shared_values e' = shared_values e ++ new) /\
  (forall key, sv_id key < n0 ->
               ~ In (sv_id key) (map (fun pg => sv_id (fst pg)) pgs) ->
               odict_get (deref e' c) key = odict_get (deref e c) key) /\
  (forall (i : nat) (p : SharedVariable) (g : texpr),
      pgs !! i = Some (p, g) ->
      let z := np_zeros_like (shared_values e !!! sv_id p) in
      (forall j, j < k -> shared_values e' !! (n0 + k * i + j) = Some z) /\
      forall key v,
        odict_get (rev (entries (cells_at k (n0 + k * i) (length (shape z))) p g))
                  key = Some v ->
        odict_get (deref e' c) key = Some v).
Proof.
  revert e. induction pgs as [| [p g] pgs IH]; intros e Hc Hnd Hold.
  - simpl. repeat split; try lia.
    + exists []. rewrite app_nil_r. reflexivity.
    + destruct i; discriminate H.
    + destruct i; discriminate H.
  - simpl map in Hnd. apply List.NoDup_cons_iff in Hnd as [Hp Hnd].
    simpl fold_left.
    set (e1 := state_round k entries c (p, g) e).
    assert (Hpold : sv_id p < length (shared_values e)).
    { apply (Hold (p, g)). left. reflexivity. }
    assert (Hsv1 : shared_values e1
                   = shared_values e
                     ++ replicate k (np_zeros_like (shared_values e !!! sv_id p))).
    { apply state_round_store. }
    assert (Hlen1 : length (shared_values e1) = length (shared_values e) + k).
    { rewrite Hsv1, length_app, length_replicate. reflexivity. }
    assert (Hheap1 : length (heap e1) = length (heap e)) by apply state_round_heap.
    assert (Hd1 : deref e1 c
                  = odict_update (deref e c)
                      (entries (cells_at k (length (shared_values e))
                                  (length (shape (np_zeros_like
                                     (shared_values e !!! sv_id p))))) p g)).
    { apply (state_round_deref (p, g) e Hc). }
    assert (Hkeys1 : forall key v,
               odict_get (rev (entries (cells_at k (length (shared_values e))
                                  (length (shape (np_zeros_like
                                     (shared_values e !!! sv_id p))))) p g))
                         key = Some v ->
               sv_id key = sv_id p \/
               length (shared_values e) <= sv_id key < length (shared_values e) + k).
    { intros key v Hget.
      destruct (odict_get_In _ key v Hget) as [k' [Hin Hid]].
      apply in_rev in Hin.
      destruct (entries_keys _ _ _ _ Hin) as [E | E]; simpl in E.
      - left. congruence.
      - right. rewrite cells_at_ids in E. apply in_seq in E. lia. }
    destruct (IH e1) as [Hh [Hs [[new Hnew] [Hkeep Hent]]]].
    + rewrite Hheap1. exact Hc.
    + exact Hnd.
    + intros pg Hpg. rewrite Hlen1.
      assert (sv_id (fst pg) < length (shared_values e)) by (apply Hold; right; exact Hpg).
      lia.
    + cbv zeta in Hh, Hs, Hnew, Hkeep, Hent. cbv zeta.
      assert (Hfresh : forall n, length (shared_values e) <= n ->
                 ~ In n (map (fun pg : SharedVariable * texpr => sv_id (fst pg)) pgs)).
      { intros n Hn Hin. apply in_map_iff in Hin as [pg [Hid Hpg]].
        assert (sv_id (fst pg) < length (shared_values e)) by (apply Hold; right; exact Hpg).
        lia. }
      split; [rewrite Hh; exact Hheap1 |].
      split; [rewrite Hs, Hlen1; simpl; lia |].
      split; [eexists; rewrite Hnew, Hsv1, <- app_assoc; reflexivity |].
      split.
      * intros key Hk Hnk. simpl in Hnk.
        rewrite Hkeep; [| rewrite Hlen1; lia | tauto].
        rewrite Hd1. unfold odict_update. rewrite odict_get_fold_set.
        destruct (odict_get (rev _) key) as [v |] eqn:E; [| reflexivity].
        exfalso. destruct (Hkeys1 key v E) as [E1 | E1]; [| lia].
        apply Hnk. left. congruence.
      * intros i q h Hq. destruct i as [| i].
        -- simpl in Hq. injection Hq as <- <-.
           replace (length (shared_values e) + k * 0) with (length (shared_values e))
             by lia.
           split.
           ++ intros j Hj. rewrite Hnew, Hsv1.
              rewrite lookup_app_l
                by (rewrite length_app, length_replicate; lia).
              rewrite lookup_app_r by lia.
              apply lookup_replicate_2. lia.
           ++ intros key v Hget.
              destruct (Hkeys1 key v Hget) as [E1 | E1].
              ** rewrite Hkeep; [| rewrite Hlen1; lia | rewrite E1; exact Hp].
                 rewrite Hd1. unfold odict_update. rewrite odict_get_fold_set, Hget.
                 reflexivity.
              ** rewrite Hkeep; [| rewrite Hlen1; lia | apply Hfresh; lia].
                 rewrite Hd1. unfold odict_update. rewrite odict_get_fold_set, Hget.
                 reflexivity.
        -- simpl in Hq. specialize (Hent i q h Hq).
           assert (Hqold : sv_id q < length (shared_values e)).
           { apply (Hold (q, h)). right.
             apply list_elem_of_In. apply list_elem_of_lookup. eauto. }
           assert (Hz : shared_values e1 !!! sv_id q = shared_values e !!! sv_id q).
           { rewrite Hsv1. apply lookup_total_app_l. exact Hqold. }
           rewrite Hz in Hent.
           replace (length (shared_values e) + k * S i)
             with (length (shared_values e1) + k * i) by (rewrite Hlen1; lia).
           exact Hent.
Qed.

End StateRule.

Lemma adagrad_entries_keys (learning_rate epsilon : texpr)
      (cells : list SharedVariable) (p : SharedVariable) (g : texpr)
      (kv : SharedVariable * texpr) :
  In kv (adagrad_entries learning_rate epsilon cells p g) ->
  sv_id (fst kv) = sv_id p \/ In (sv_id (fst kv)) (map sv_id cells).
Proof.
  destruct cells as [| a [| b l]]; simpl; try tauto.
  intros [<- | [<- | []]]; simpl; auto.
Qed.

Lemma rmsprop_entries_keys (learning_rate rho epsilon : texpr)
      (cells : list SharedVariable) (p : SharedVariable) (g : texpr)
      (kv : SharedVariable * texpr) :
  In kv (rmsprop_entries learning_rate rho epsilon cells p g) ->
  sv_id (fst kv) = sv_id p \/ In (sv_id (fst kv)) (map sv_id cells).
Proof.
  destruct cells as [| a [| b l]]; simpl; try tauto.
  intros [<- | [<- | []]]; simpl; auto.
Qed.

Lemma adadelta_entries_keys (learning_rate rho epsilon : texpr)
      (cells : list SharedVariable) (p : SharedVariable) (g : texpr)
      (kv : SharedVariable * texpr) :
  In kv (adadelta_entries learning_rate rho epsilon cells p g) ->
  sv_id (fst kv) = sv_id p \/ In (sv_id (fst kv)) (map sv_id cells).
Proof.
  destruct cells as [| a [| b [| b' l]]]; simpl; try tauto.
  intros [<- | [<- | [<- | []]]]; simpl; auto.
Qed.

Lemma adamax_entries_keys (a_t beta1 beta2 epsilon : texpr)
      (cells : list SharedVariable) (p : SharedVariable) (g : texpr)
      (kv : SharedVariable * texpr) :
  In kv (adamax_entries a_t beta1 beta2 epsilon cells p g) ->
  sv_id (fst kv) = sv_id p \/ In (sv_id (fst kv)) (map sv_id cells).
Proof.
  destruct cells as [| a [| b [| b' l]]]; simpl; try tauto.
  intros [<- | [<- | [<- | []]]]; simpl; auto.
Qed.

(** Looking a key up in a short list of items with known identities. *)
Ltac lookup_item :=
  unfold key_eqb; cbn [sv_id fst snd];
  repeat first [ rewrite Nat.eqb_refl
               | rewrite (proj2 (Nat.eqb_neq _ _)) by lia ];
  reflexivity.

Section StateRules.

Variable differentiate : texpr -> variable -> texpr.

(** X18.  [adagrad] allocates one accumulator for each parameter, with zeros
    of the parameter's shape, and its dictionary follows
    [accu' = accu + grad^2] and
    [param' = param - learning_rate * grad / sqrt(accu' + epsilon)]; the
    accumulator never decreases. *)
Theorem adagrad_update (lg : loss_or_grads) (ps : list SharedVariable)
        (learning_rate : pyval) (epsilon : texpr) (e : engine) :
  List.NoDup (map sv_id ps) ->
  (forall p, In p ps -> sv_id p < length (shared_values e)) ->
  (forall gs, lg = Grads gs -> length gs = length ps) ->
  let n0 := length (shared_values e) in
  exists c e',
    adagrad differentiate lg (map OfShared ps) learning_rate epsilon
            default_decay_period default_decay_factor e = (inr c, e') /\
    forall (i : nat) (p : SharedVariable) (g : texpr),
      ps !! i = Some p -> resolved_grads differentiate lg ps !! i = Some g ->
      shared_values e' !! (n0 + i)
      = Some (np_zeros_like (shared_values e !!! sv_id p)) /\
      exists ua up,
        odict_get (deref e' c) (Shared (n0 + i) 0) = Some ua /\
        odict_get (deref e' c) p = Some up /\
        forall st idx,
          at_ ua st idx
          = (data (st !!! (n0 + i)%nat) idx + at_ g st idx * at_ g st idx)%R /\
          at_ up st idx
          = (at_ p st idx
             - at_ learning_rate st idx * at_ g st idx
               / sqrt (at_ ua st idx + at_ epsilon st idx))%R /\
          (data (st !!! (n0 + i)%nat) idx <= at_ ua st idx)%R.
Proof.
  intros Hnd Hold Hlen n0.
  set (c := length (heap e)).
  set (pgs := zip ps (resolved_grads differentiate lg ps)).
  set (entries := adagrad_entries (as_expr learning_rate) epsilon).
  set (e2 := Engine (shared_values e) (heap e ++ [[]])).
  set (e3 := fold_left (fun e pg => state_round 1 entries c pg e) pgs e2).
  assert (Hc2 : c < length (heap e2)).
  { unfold e2. simpl. rewrite length_app. simpl. unfold c. lia. }
  destruct (state_rounds 1 entries c (adagrad_entries_keys _ _) pgs e2 Hc2)
    as [_ [_ [_ [_ Hent]]]].
  { apply NoDup_zip_ids. exact Hnd. }
  { intros pg Hpg. apply in_zip_fst in Hpg. apply Hold. exact Hpg. }
  fold e3 in Hent. cbv zeta in Hent.
  exists c, e3. split.
  - unfold adagrad. rewrite lr_decay_default.
    unfold adagrad_rule. unfold bind at 1.
    rewrite get_or_compute_grads_shared by exact Hlen.
    unfold bind at 1. unfold OrderedDict at 1. simpl.
    fold c. fold e2. unfold bind at 1.
    rewrite zip_map_shared. fold pgs.
    rewrite (for_each_map_pure
               (fun pg : SharedVariable * texpr => (OfShared (fst pg), snd pg))
               _ (state_round 1 entries c) pgs e2);
      [| intros [p g] e0; reflexivity].
    fold e3. reflexivity.
  - intros i p g Hp Hg.
    assert (Hpg : pgs !! i = Some (p, g)).
    { unfold pgs. apply lookup_zip_Some. split; assumption. }
    assert (Hpin : In p ps).
    { apply list_elem_of_In. apply list_elem_of_lookup. eauto. }
    specialize (Hold p Hpin).
    destruct (Hent i p g Hpg) as [Hcell Hget].
    change (shared_values e2) with (shared_values e) in Hcell, Hget.
    fold n0 in Hcell, Hget.
    replace (n0 + 1 * i) with (n0 + i) in Hget by lia.
    split.
    { specialize (Hcell 0). replace (n0 + 1 * i + 0) with (n0 + i) in Hcell by lia.
      apply Hcell. lia. }
    cbn [cells_at] in Hget. unfold entries, adagrad_entries in Hget.
    cbn [rev app] in Hget.
    eexists _, _. split; [| split].
    + erewrite <- Hget; [apply odict_get_id; reflexivity |].
      cbn [odict_get]. unfold n0 in *. lookup_item.
    + apply Hget. cbn [odict_get]. lookup_item.
    + intros st idx. unfold at_, n0. simpl. rewrite pow_real_2.
      split; [reflexivity |]. split; [reflexivity |].
      pose proof (Rle_0_sqr (data (value g st) idx)) as H. unfold Rsqr in H. lra.
Qed.

(** X19.  [rmsprop] allocates one accumulator for each parameter, with zeros
    of the parameter's shape, and its dictionary follows
    [accu' = rho * accu + (1 - rho) * grad^2] and
    [param' = param - learning_rate * grad / sqrt(accu' + epsilon)]. *)
Theorem rmsprop_update (lg : loss_or_grads) (ps : list SharedVariable)
        (learning_rate : pyval) (rho epsilon : texpr) (e : engine) :
  List.NoDup (map sv_id ps) ->
  (forall p, In p ps -> sv_id p < length (shared_values e)) ->
  (forall gs, lg = Grads gs -> length gs = length ps) ->
  let n0 := length (shared_values e) in
  exists c e',
    rmsprop differentiate lg (map OfShared ps) learning_rate (rho, epsilon)
            default_decay_period default_decay_factor e = (inr c, e') /\
    forall (i : nat) (p : SharedVariable) (g : texpr),
      ps !! i = Some p -> resolved_grads differentiate lg ps !! i = Some g ->
      shared_values e' !! (n0 + i)
      = Some (np_zeros_like (shared_values e !!! sv_id p)) /\
      exists ua up,
        odict_get (deref e' c) (Shared (n0 + i) 0) = Some ua /\
        odict_get (deref e' c) p = Some up /\
        forall st idx,
          at_ ua st idx
          = (at_ rho st idx * data (st !!! (n0 + i)%nat) idx
             + (1 - at_ rho st idx) * (at_ g st idx * at_ g st idx))%R /\
          at_ up st idx
          = (at_ p st idx
             - at_ learning_rate st idx * at_ g st idx
               / sqrt (at_ ua st idx + at_ epsilon st idx))%R.
Proof.
  intros Hnd Hold Hlen n0.
  set (c := length (heap e)).
  set (pgs := zip ps (resolved_grads differentiate lg ps)).
  set (entries := rmsprop_entries (as_expr learning_rate) rho epsilon).
  set (e2 := Engine (shared_values e) (heap e ++ [[]])).
  set (e3 := fold_left (fun e pg => state_round 1 entries c pg e) pgs e2).
  assert (Hc2 : c < length (heap e2)).
  { unfold e2. simpl. rewrite length_app. simpl. unfold c. lia. }
  destruct (state_rounds 1 entries c (rmsprop_entries_keys _ _ _) pgs e2 Hc2)
    as [_ [_ [_ [_ Hent]]]].
  { apply NoDup_zip_ids. exact Hnd. }
  { intros pg Hpg. apply in_zip_fst in Hpg. apply Hold. exact Hpg. }
  fold e3 in Hent. cbv zeta in Hent.
  exists c, e3. split.
  - unfold rmsprop. rewrite lr_decay_default.
    unfold rmsprop_rule. cbn [fst snd]. unfold bind at 1.
    rewrite get_or_compute_grads_shared by exact Hlen.
    unfold bind at 1. unfold OrderedDict at 1. simpl.
    fold c. fold e2. unfold bind at 1.
    rewrite zip_map_shared. fold pgs.
    rewrite (for_each_map_pure
               (fun pg : SharedVariable * texpr => (OfShared (fst pg), snd pg))
               _ (state_round 1 entries c) pgs e2);
      [| intros [p g] e0; reflexivity].
    fold e3. reflexivity.
  - intros i p g Hp Hg.
    assert (Hpg : pgs !! i = Some (p, g)).
    { unfold pgs. apply lookup_zip_Some. split; assumption. }
    assert (Hpin : In p ps).
    { apply list_elem_of_In. apply list_elem_of_lookup. eauto. }
    specialize (Hold p Hpin).
    destruct (Hent i p g Hpg) as [Hcell Hget].
    change (shared_values e2) with (shared_values e) in Hcell, Hget.
    fold n0 in Hcell, Hget.
    replace (n0 + 1 * i) with (n0 + i) in Hget by lia.
    split.
    { specialize (Hcell 0). replace (n0 + 1 * i + 0) with (n0 + i) in Hcell by lia.
      apply Hcell. lia. }
    cbn [cells_at] in Hget. unfold entries, rmsprop_entries in Hget.
    cbn [rev app] in Hget.
    eexists _, _. split; [| split].
    + erewrite <- Hget; [apply odict_get_id; reflexivity |].
      cbn [odict_get]. unfold n0 in *. lookup_item.
    + apply Hget. cbn [odict_get]. lookup_item.
    + intros st idx. unfold at_, n0. simpl. rewrite pow_real_2.
      split; reflexivity.
Qed.

(** X20.  [adadelta] allocates two accumulators for each parameter, with
    zeros of the parameter's shape, and its dictionary follows
    [accu' = rho * accu + (1 - rho) * grad^2],
    [update = grad * sqrt(delta_accu + epsilon) / sqrt(accu' + epsilon)]
    (the old [delta_accu] over the new [accu']),
    [param' = param - learning_rate * update] and
    [delta_accu' = rho * delta_accu + (1 - rho) * update^2]. *)
Theorem adadelta_update (lg : loss_or_grads) (ps : list SharedVariable)
        (learning_rate : pyval) (rho epsilon : texpr) (e : engine) :
  List.NoDup (map sv_id ps) ->
  (forall p, In p ps -> sv_id p < length (shared_values e)) ->
  (forall gs, lg = Grads gs -> length gs = length ps) ->
  let n0 := length (shared_values e) in
  exists c e',
    adadelta differentiate lg (map OfShared ps) learning_rate (rho, epsilon)
             default_decay_period default_decay_factor e = (inr c, e') /\
    forall (i : nat) (p : SharedVariable) (g : texpr),
      ps !! i = Some p -> resolved_grads differentiate lg ps !! i = Some g ->
      let accu := n0 + 2 * i in
      let delta_accu := n0 + 2 * i + 1 in
      shared_values e' !! accu
      = Some (np_zeros_like (shared_values e !!! sv_id p)) /\
      shared_values e' !! delta_accu
      = Some (np_zeros_like (shared_values e !!! sv_id p)) /\
      exists ua ud up,
        odict_get (deref e' c) (Shared accu 0) = Some ua /\
        odict_get (deref e' c) (Shared delta_accu 0) = Some ud /\
        odict_get (deref e' c) p = Some up /\
        forall st idx,
          let update :=
            (at_ g st idx
             * sqrt (data (st !!! delta_accu) idx + at_ epsilon st idx)
             / sqrt (at_ ua st idx + at_ epsilon st idx))%R in
          at_ ua st idx
          = (at_ rho st idx * data (st !!! accu) idx
             + (1 - at_ rho st idx) * (at_ g st idx * at_ g st idx))%R /\
          at_ up st idx
          = (at_ p st idx - at_ learning_rate st idx * update)%R /\
          at_ ud st idx
          = (at_ rho st idx * data (st !!! delta_accu) idx
             + (1 - at_ rho st idx) * (update * update))%R.
Proof.
  intros Hnd Hold Hlen n0.
  set (c := length (heap e)).
  set (pgs := zip ps (resolved_grads differentiate lg ps)).
  set (entries := adadelta_entries (as_expr learning_rate) rho epsilon).
  set (e2 := Engine (shared_values e) (heap e ++ [[]])).
  set (e3 := fold_left (fun e pg => state_round 2 entries c pg e) pgs e2).
  assert (Hc2 : c < length (heap e2)).
  { unfold e2. simpl. rewrite length_app. simpl. unfold c. lia. }
  destruct (state_rounds 2 entries c (adadelta_entries_keys _ _ _) pgs e2 Hc2)
    as [_ [_ [_ [_ Hent]]]].
  { apply NoDup_zip_ids. exact Hnd. }
  { intros pg Hpg. apply in_zip_fst in Hpg. apply Hold. exact Hpg. }
  fold e3 in Hent. cbv zeta in Hent.
  exists c, e3. split.
  - unfold adadelta. rewrite lr_decay_default.
    unfold adadelta_rule. cbn [fst snd]. unfold bind at 1.
    rewrite get_or_compute_grads_shared by exact Hlen.
    unfold bind at 1. unfold OrderedDict at 1. simpl.
    fold c. fold e2. unfold bind at 1.
    rewrite zip_map_shared. fold pgs.
    rewrite (for_each_map_pure
               (fun pg : SharedVariable * texpr => (OfShared (fst pg), snd pg))
               _ (state_round 2 entries c) pgs e2);
      [| intros [p g] e0; reflexivity].
    fold e3. reflexivity.
  - intros i p g Hp Hg accu delta_accu.
    assert (Hpg : pgs !! i = Some (p, g)).
    { unfold pgs. apply lookup_zip_Some. split; assumption. }
    assert (Hpin : In p ps).
    { apply list_elem_of_In. apply list_elem_of_lookup. eauto. }
    specialize (Hold p Hpin).
    destruct (Hent i p g Hpg) as [Hcell Hget].
    change (shared_values e2) with (shared_values e) in Hcell, Hget.
    fold n0 in Hcell, Hget. fold accu in Hcell, Hget.
    split; [| split].
    { specialize (Hcell 0). replace (accu + 0) with accu in Hcell by lia.
      apply Hcell. lia. }
    { apply Hcell. lia. }
    cbn [cells_at] in Hget. unfold entries, adadelta_entries in Hget.
    cbn [rev app] in Hget.
    assert (Hacc : accu = n0 + 2 * i) by reflexivity.
    assert (Hdel : delta_accu = S accu) by (unfold delta_accu, accu; lia).
    clearbody accu delta_accu. subst delta_accu.
    eexists _, _, _. split; [| split; [| split]].
    + erewrite <- Hget; [apply odict_get_id; reflexivity |].
      cbn [odict_get]. unfold n0 in *. lookup_item.
    + erewrite <- Hget; [apply odict_get_id; reflexivity |].
      cbn [odict_get]. unfold n0 in *. lookup_item.
    + apply Hget. cbn [odict_get]. unfold n0 in *. lookup_item.
    + intros st idx. unfold at_. simpl. rewrite !pow_real_2.
      split; [reflexivity |]. split; reflexivity.
Qed.

(** X21.  [adamax] keeps one step counter for all parameters, allocated at 0
    and mapped to [t + 1], and two moments for each parameter, allocated
    with zeros.  Its dictionary follows
    [m' = beta1 * m + (1 - beta1) * grad],
    [u' = max(beta2 * u, |grad|)] and
    [param' = param - a_t * m' / (u' + epsilon)] with
    [a_t = learning_rate / (1 - beta1^(t+1))]. *)
Theorem adamax_update (lg : loss_or_grads) (ps : list SharedVariable)
        (learning_rate : pyval) (beta1 beta2 epsilon : texpr) (e : engine) :
  List.NoDup (map sv_id ps) ->
  (forall p, In p ps -> sv_id p < length (shared_values e)) ->
  (forall gs, lg = Grads gs -> length gs = length ps) ->
  let t_prev := length (shared_values e) in
  exists c e' ut,
    adamax differentiate lg (map OfShared ps) learning_rate
           (beta1, beta2, epsilon) default_decay_period default_decay_factor e
    = (inr c, e') /\
    shared_values e' !! t_prev = Some (scalar 0%R) /\
    odict_get (deref e' c) (Shared t_prev 0) = Some ut /\
    (forall st idx, at_ ut st idx = (data (st !!! t_prev) idx + 1)%R) /\
    forall (i : nat) (p : SharedVariable) (g : texpr),
      ps !! i = Some p -> resolved_grads differentiate lg ps !! i = Some g ->
      let m_prev := t_prev + 1 + 2 * i in
      let u_prev := t_prev + 1 + 2 * i + 1 in
      shared_values e' !! m_prev
      = Some (np_zeros_like (shared_values e !!! sv_id p)) /\
      shared_values e' !! u_prev
      = Some (np_zeros_like (shared_values e !!! sv_id p)) /\
      exists um uu up,
        odict_get (deref e' c) (Shared m_prev 0) = Some um /\
        odict_get (deref e' c) (Shared u_prev 0) = Some uu /\
        odict_get (deref e' c) p = Some up /\
        forall st idx,
          let a_t := (at_ learning_rate st idx
                      / (1 - pow_real (at_ beta1 st idx)
                                      (data (st !!! t_prev) idx + 1)))%R in
          at_ um st idx
          = (at_ beta1 st idx * data (st !!! m_prev) idx
             + (1 - at_ beta1 st idx) * at_ g st idx)%R /\
          at_ uu st idx
          = Rmax (at_ beta2 st idx * data (st !!! u_prev) idx)
                 (Rabs (at_ g st idx)) /\
          at_ up st idx
          = (at_ p st idx
             - a_t * at_ um st idx / (at_ uu st idx + at_ epsilon st idx))%R.
Proof.
  intros Hnd Hold Hlen t_prev.
  set (sv1 := shared_values e ++ [scalar 0%R]).
  set (c := length (heap e)).
  set (t := (read (Shared t_prev 0) + T.constant 1%R)%th).
  set (a_t := (as_expr learning_rate / (T.constant 1%R - beta1 ** t))%th).
  set (pgs := zip ps (resolved_grads differentiate lg ps)).
  set (entries := adamax_entries a_t beta1 beta2 epsilon).
  set (e2 := Engine sv1 (heap e ++ [[]])).
  set (e3 := fold_left (fun e pg => state_round 2 entries c pg e) pgs e2).
  assert (Hc2 : c < length (heap e2)).
  { unfold e2. simpl. rewrite length_app. simpl. unfold c. lia. }
  assert (Hl2 : length (shared_values e2) = t_prev + 1).
  { unfold e2, sv1. simpl. rewrite length_app. reflexivity. }
  destruct (state_rounds 2 entries c (adamax_entries_keys _ _ _ _) pgs e2 Hc2)
    as [Hh [_ [[new Hnew] [Hkeep Hent]]]].
  { apply NoDup_zip_ids. exact Hnd. }
  { intros pg Hpg. rewrite Hl2. apply in_zip_fst in Hpg.
    specialize (Hold (fst pg) Hpg). lia. }
  fold e3 in Hh, Hnew, Hkeep, Hent. cbv zeta in Hent.
  exists c, (Engine (shared_values e3)
                    (alter (odict_set (Shared t_prev 0) t) c (heap e3))), t.
  assert (Hfinal : forall k,
             odict_get (deref (Engine (shared_values e3)
                                      (alter (odict_set (Shared t_prev 0) t) c (heap e3))) c) k
             = if Nat.eqb t_prev (sv_id k) then Some t
               else odict_get (deref e3 c) k).
  { intros k0. rewrite deref_alter by (rewrite Hh; exact Hc2).
    rewrite odict_get_set. reflexivity. }
  split; [| split; [| split; [| split]]].
  - unfold adamax. rewrite lr_decay_default.
    unfold adamax_rule. unfold bind at 1.
    rewrite get_or_compute_grads_shared by exact Hlen.
    unfold bind at 1. unfold theano_shared at 1. simpl.
    unfold bind at 1. unfold OrderedDict at 1. simpl.
    fold t_prev. fold sv1. fold c. fold t. fold a_t. fold e2.
    unfold bind at 1.
    rewrite zip_map_shared. fold pgs.
    rewrite (for_each_map_pure
               (fun pg : SharedVariable * texpr => (OfShared (fst pg), snd pg))
               _ (state_round 2 entries c) pgs e2);
      [| intros [p g] e0; reflexivity].
    fold e3. reflexivity.
  - simpl. rewrite Hnew. unfold e2, sv1. simpl. rewrite <- app_assoc.
    apply list_lookup_middle. reflexivity.
  - rewrite Hfinal. simpl. rewrite Nat.eqb_refl. reflexivity.
  - intros st idx. reflexivity.
  - intros i p g Hp Hg m_prev u_prev.
    assert (Hpg : pgs !! i = Some (p, g)).
    { unfold pgs. apply lookup_zip_Some. split; assumption. }
    assert (Hpin : In p ps).
    { apply list_elem_of_In. apply list_elem_of_lookup. eauto. }
    specialize (Hold p Hpin).
    destruct (Hent i p g Hpg) as [Hcell Hget].
    rewrite Hl2 in Hcell, Hget. fold m_prev in Hcell, Hget.
    assert (Hz : shared_values e2 !!! sv_id p = shared_values e !!! sv_id p).
    { unfold e2, sv1. simpl. apply lookup_total_app_l. exact Hold. }
    rewrite Hz in Hcell, Hget.
    split; [| split].
    { specialize (Hcell 0). replace (m_prev + 0) with m_prev in Hcell by lia.
      apply Hcell. lia. }
    { apply Hcell. lia. }
    cbn [cells_at] in Hget. unfold entries, adamax_entries in Hget.
    cbn [rev app] in Hget.
    assert (Hm : t_prev < m_prev) by (unfold m_prev; lia).
    assert (Hu : u_prev = S m_prev) by (unfold u_prev, m_prev; lia).
    clearbody m_prev u_prev. subst u_prev.
    rewrite !Hfinal. cbn [sv_id].
    destruct (Nat.eqb_spec t_prev m_prev) as [E | _]; [lia |].
    destruct (Nat.eqb_spec t_prev (S m_prev)) as [E | _]; [lia |].
    destruct (Nat.eqb_spec t_prev (sv_id p)) as [E | _]; [unfold t_prev in E; lia |].
    eexists _, _, _. split; [| split; [| split]].
    + erewrite <- Hget; [apply odict_get_id; reflexivity |].
      cbn [odict_get]. unfold t_prev in *. lookup_item.
    + erewrite <- Hget; [apply odict_get_id; reflexivity |].
      cbn [odict_get]. unfold t_prev in *. lookup_item.
    + apply Hget. cbn [odict_get]. unfold t_prev in *. lookup_item.
    + intros st idx. unfold at_. simpl.
      split; [reflexivity |]. split; reflexivity.
Qed.

End StateRules.

Lemma adagrad_update_witness :
  exists c e',
    adagrad (fun l _ => l) (Grads [T.constant 0.5%R]) (map OfShared [Shared 0 0])
            (PyFloat 1%R) (T.constant 1e-6%R)
            default_decay_period default_decay_factor example_engine
    = (inr c, e') /\
    shared_values e' !! 1 = Some (np_zeros_like (scalar 1%R)).
Proof.
  destruct (adagrad_update (fun l _ => l) (Grads [T.constant 0.5%R]) [Shared 0 0]
              (PyFloat 1%R) (T.constant 1e-6%R) example_engine)
    as [c [e' [Hrun Hall]]].
  - simpl. constructor; [simpl; tauto | constructor].
  - simpl. intros p [<- | []]. simpl. lia.
  - intros gs [= <-]. reflexivity.
  - exists c, e'. split; [exact Hrun |].
    destruct (Hall 0 (Shared 0 0) (T.constant 0.5%R) eq_refl eq_refl) as [H _].
    exact H.
Defined.

Lemma rmsprop_update_witness :
  exists c e',
    rmsprop (fun l _ => l) (Grads [T.constant 0.5%R]) (map OfShared [Shared 0 0])
            (PyFloat 1%R) (T.constant 0.9%R, T.constant 1e-6%R)
            default_decay_period default_decay_factor example_engine
    = (inr c, e') /\
    shared_values e' !! 1 = Some (np_zeros_like (scalar 1%R)).
Proof.
  destruct (rmsprop_update (fun l _ => l) (Grads [T.constant 0.5%R]) [Shared 0 0]
              (PyFloat 1%R) (T.constant 0.9%R) (T.constant 1e-6%R) example_engine)
    as [c [e' [Hrun Hall]]].
  - simpl. constructor; [simpl; tauto | constructor].
  - simpl. intros p [<- | []]. simpl. lia.
  - intros gs [= <-]. reflexivity.
  - exists c, e'. split; [exact Hrun |].
    destruct (Hall 0 (Shared 0 0) (T.constant 0.5%R) eq_refl eq_refl) as [H _].
    exact H.
Defined.

Lemma adadelta_update_witness :
  exists c e',
    adadelta (fun l _ => l) (Grads [T.constant 0.5%R]) (map OfShared [Shared 0 0])
             (PyFloat 1%R) (T.constant 0.95%R, T.constant 1e-6%R)
             default_decay_period default_decay_factor example_engine
    = (inr c, e') /\
    shared_values e' !! 1 = Some (np_zeros_like (scalar 1%R)) /\
    shared_values e' !! 2 = Some (np_zeros_like (scalar 1%R)).
Proof.
  destruct (adadelta_update (fun l _ => l) (Grads [T.constant 0.5%R]) [Shared 0 0]
              (PyFloat 1%R) (T.constant 0.95%R) (T.constant 1e-6%R) example_engine)
    as [c [e' [Hrun Hall]]].
  - simpl. constructor; [simpl; tauto | constructor].
  - simpl. intros p [<- | []]. simpl. lia.
  - intros gs [= <-]. reflexivity.
  - exists c, e'. split; [exact Hrun |].
    destruct (Hall 0 (Shared 0 0) (T.constant 0.5%R) eq_refl eq_refl)
      as [H1 [H2 _]].
    split; [exact H1 | exact H2].
Defined.

Lemma adamax_update_witness :
  exists c e',
    adamax (fun l _ => l) (Grads [T.constant 0.5%R]) (map OfShared [Shared 0 0])
           (PyFloat 0.002%R) (T.constant 0.9%R, T.constant 0.999%R, T.constant 1e-8%R)
           default_decay_period default_decay_factor example_engine
    = (inr c, e') /\
    shared_values e' !! 1 = Some (scalar 0%R).
Proof.
  destruct (adamax_update (fun l _ => l) (Grads [T.constant 0.5%R]) [Shared 0 0]
              (PyFloat 0.002%R) (T.constant 0.9%R) (T.constant 0.999%R)
              (T.constant 1e-8%R) example_engine)
    as [c [e' [ut [Hrun [Ht _]]]]].
  - simpl. constructor; [simpl; tauto | constructor].
  - simpl. intros p [<- | []]. simpl. lia.
  - intros gs [= <-]. reflexivity.
  - exists c, e'. split; [exact Hrun | exact Ht].
Defined.

(** ** Cocob: the state variables *)

Lemma cocob_entries_keys (alpha epsilon : texpr)
      (cells : list SharedVariable) (p : SharedVariable) (g : texpr)
      (kv : SharedVariable * texpr) :
  In kv (cocob_entries alpha epsilon cells p g) ->
  sv_id (fst kv) = sv_id p \/ In (sv_id (fst kv)) (map sv_id cells).
Proof.
  destruct cells as [| a [| b [| b' [| b'' [| b3 l]]]]]; simpl; try tauto.
  intros [<- | []]; simpl; auto.
Qed.

Lemma run_unchanged (u : odict) (st0 : store) (k : nat) (n : nat) :
  k < length st0 -> odict_get u (Shared k 0) = None ->
  run n u st0 !!! k = st0 !!! k.
Proof.
  intros Hk Hnone. induction n as [| n IH]; [reflexivity |].
  change (run (S n) u st0) with (apply_updates u (run n u st0)).
  change k with (sv_id (Shared k 0)) at 1.
  rewrite apply_updates_lookup by (rewrite run_length; exact Hk).
  rewrite Hnone. exact IH.
Qed.

(** C1.  The claim fails on the code.  [cocob] computes
    [l_t = max(0.999 * l, |grad|)] and uses it in the update of the
    parameter, but it never stores it.  With one scalar parameter and the
    constant gradient 1, the cell [l] is allocated with value 0, the
    returned dictionary has no entry for it, and after every call of the
    compiled function it holds 0: this is not [max(l, |grad|)], which is
    1, and it is less than [|grad|]. *)
Theorem cocob_running_max_never_stored :
  exists c e',
    cocob (fun l _ => l) (Grads [T.constant 1%R]) [OfShared (Shared 0 0)]
          (T.constant 1000%R) (T.constant 1e-9%R) example_engine
    = (inr c, e') /\
    let l := Shared 1 0 in
    let grad := T.constant 1%R in
    let st0 := shared_values e' in
    at_ l st0 [] = 0%R /\
    odict_get (deref e' c) l = None /\
    forall n : nat,
      let st := run n (deref e' c) st0 in
      let st' := run (S n) (deref e' c) st0 in
      at_ l st' [] = 0%R /\
      at_ l st' [] <> Rmax (at_ l st []) (Rabs (at_ grad st [])) /\
      (at_ l st' [] < Rabs (at_ grad st []))%R.
Proof.
  eexists. eexists. split; [reflexivity |].
  cbv zeta. split; [reflexivity |]. split; [reflexivity |].
  intros n.
  assert (Hl : forall k, at_ (Shared 1 0)
                 (run k (deref
                    (snd (cocob (fun l _ => l) (Grads [T.constant 1%R])
                            [OfShared (Shared 0 0)] (T.constant 1000%R)
                            (T.constant 1e-9%R) example_engine)) 1)
                    (shared_values
                       (snd (cocob (fun l _ => l) (Grads [T.constant 1%R])
                               [OfShared (Shared 0 0)] (T.constant 1000%R)
                               (T.constant 1e-9%R) example_engine)))) [] = 0%R).
  { intros k. unfold at_. simpl value.
    rewrite run_unchanged; [reflexivity | simpl; lia | reflexivity]. }
  simpl in Hl. rewrite !Hl.
  change (at_ (T.constant 1%R) _ []) with 1%R.
  rewrite Rabs_R1.
  rewrite Rmax_right by lra.
  repeat split; lra.
Qed.

Section CocobState.

Variable differentiate : texpr -> variable -> texpr.

(** X22.  [cocob] allocates four state variables for each parameter, with
    zeros of the parameter's shape, and its dictionary gives none of them
    a next value: after any number of calls of the compiled function every
    shared variable that is not a parameter has the value it had at the
    start. *)
Theorem cocob_state_never_updated (lg : loss_or_grads)
        (ps : list SharedVariable) (alpha epsilon : texpr) (e : engine) :
  List.NoDup (map sv_id ps) ->
  (forall p, In p ps -> sv_id p < length (shared_values e)) ->
  (forall gs, lg = Grads gs -> length gs = length ps) ->
  let n0 := length (shared_values e) in
  exists c e',
    cocob differentiate lg (map OfShared ps) alpha epsilon e = (inr c, e') /\
    (forall (i : nat) (p : SharedVariable),
        ps !! i = Some p ->
        forall j, j < 4 ->
          shared_values e' !! (n0 + 4 * i + j)
          = Some (np_zeros_like (shared_values e !!! sv_id p))) /\
    forall (st0 : store) (k : nat),
      k < length st0 -> ~ In k (map sv_id ps) ->
      forall n, run n (deref e' c) st0 !!! k = st0 !!! k.
Proof.
  intros Hnd Hold Hlen n0.
  set (c := length (heap e)).
  set (pgs := zip ps (resolved_grads differentiate lg ps)).
  set (entries := cocob_entries alpha epsilon).
  set (e2 := Engine (shared_values e) (heap e ++ [[]])).
  set (e3 := fold_left (fun e pg => state_round 4 entries c pg e) pgs e2).
  assert (Hc2 : c < length (heap e2)).
  { unfold e2. simpl. rewrite length_app. simpl. unfold c. lia. }
  destruct (state_rounds 4 entries c (cocob_entries_keys _ _) pgs e2 Hc2)
    as [_ [_ [_ [_ Hent]]]].
  { apply NoDup_zip_ids. exact Hnd. }
  { intros pg Hpg. apply in_zip_fst in Hpg. apply Hold. exact Hpg. }
  fold e3 in Hent. cbv zeta in Hent.
  assert (Hrun : cocob differentiate lg (map OfShared ps) alpha epsilon e
                 = (inr c, e3)).
  { unfold cocob. unfold bind at 1.
    rewrite get_or_compute_grads_shared by exact Hlen.
    unfold bind at 1. unfold OrderedDict at 1. simpl.
    fold c. fold e2. unfold bind at 1.
    rewrite zip_map_shared. fold pgs.
    rewrite (for_each_map_pure
               (fun pg : SharedVariable * texpr => (OfShared (fst pg), snd pg))
               _ (state_round 4 entries c) pgs e2);
      [| intros [p g] e0; reflexivity].
    fold e3. reflexivity. }
  exists c, e3. split; [exact Hrun |]. split.
  - intros i p Hp j Hj.
    assert (Hgl : length (resolved_grads differentiate lg ps) = length ps).
    { apply resolved_grads_length. exact Hlen. }
    destruct (lookup_lt_is_Some_2 (resolved_grads differentiate lg ps) i) as [g Hg].
    { rewrite Hgl. apply lookup_lt_is_Some. eauto. }
    assert (Hpg : pgs !! i = Some (p, g)).
    { unfold pgs. apply lookup_zip_Some. split; assumption. }
    destruct (Hent i p g Hpg) as [Hcell _].
    apply Hcell. exact Hj.
  - intros st0 k Hk Hnot n. apply run_unchanged; [exact Hk |].
    destruct (cocob_keys_are_parameters differentiate lg ps alpha epsilon e
                (Shared k 0) Hnd Hlen Hnot) as [c' [e' [Hrun' Hnone]]].
    rewrite Hrun in Hrun'. injection Hrun' as <- <-. exact Hnone.
Qed.

End CocobState.

Lemma cocob_state_never_updated_witness :
  exists c e',
    cocob (fun l _ => l) (Grads [T.constant 0.5%R]) (map OfShared [Shared 0 0])
          (T.constant 1000%R) (T.constant 1e-9%R) example_engine = (inr c, e') /\
    forall n, run n (deref e' c) (shared_values e') !!! 1
              = shared_values e' !!! 1.
Proof.
  destruct (cocob_state_never_updated (fun l _ => l) (Grads [T.constant 0.5%R])
              [Shared 0 0] (T.constant 1000%R) (T.constant 1e-9%R) example_engine)
    as [c [e' [Hrun [Hcells Hfix]]]].
  - simpl. constructor; [simpl; tauto | constructor].
  - simpl. intros p [<- | []]. simpl. lia.
  - intros gs [= <-]. reflexivity.
  - exists c, e'. split; [exact Hrun |].
    intros n. apply Hfix.
    + apply lookup_lt_is_Some. exists (np_zeros_like (scalar 1%R)).
      apply (Hcells 0 (Shared 0 0) eq_refl 0). lia.
    + simpl. lia.
Defined.

(** ** The estimators of YellowFin: values *)

Lemma sum_sqr_value (g : texpr) (st : store) (idx : index) :
  at_ (T.sum (T.sqr g)) st idx = sum_sq (value g st).
Proof. reflexivity. Qed.

Lemma grad_sq_norm_value (grads : list texpr) (st : store) (idx : index) :
  at_ (py_sum (map (fun g => T.sum (T.sqr g)) grads)) st idx
  = grad_sq_norm grads st.
Proof.
  rewrite py_sum_value, map_map. unfold grad_sq_norm.
  apply rsum_map_ext. intros g. apply sum_sqr_value.
Qed.

Lemma at_div (a b : texpr) (st : store) (idx : index) :
  at_ (a / b)%th st idx = (at_ a st idx / at_ b st idx)%R.
Proof. reflexivity. Qed.

Lemma at_sqrt (a : texpr) (st : store) (idx : index) :
  at_ (T.sqrt a) st idx = sqrt (at_ a st idx).
Proof. reflexivity. Qed.

Lemma at_read (v : SharedVariable) (st : store) (idx : index) :
  at_ (read v) st idx = data (st !!! sv_id v) idx.
Proof. reflexivity. Qed.

(** X23.  [distance_to_optim] allocates three scalars [g], [h] and [d] with
    initial value 1 and returns the expression it stores for [d].  With
    [N] the sum of the squares of all gradient entries,
    [g' = ema(beta, g, sqrt N)] and [h' = ema(beta, h, N)], its value is
    [ema(beta, d, g' / h')]: the ratio is taken of the two smoothed
    values of the same step. *)
Theorem distance_to_optim_value (grads : list texpr) (beta : texpr) (c : dref)
        (e : engine) :
  c < length (heap e) ->
  let n0 := length (shared_values e) in
  exists d e',
    distance_to_optim grads beta c e = (inr d, e') /\
    shared_values e' = shared_values e ++ [scalar 1%R; scalar 1%R; scalar 1%R] /\
    odict_get (deref e' c) (Shared (n0 + 2) 0) = Some d /\
    forall st idx,
      let N := grad_sq_norm grads st in
      let b := at_ beta st idx in
      let g' := ema_plain b (data (st !!! n0) idx) (sqrt N) in
      let h' := ema_plain b (data (st !!! (n0 + 1)%nat) idx) N in
      at_ d st idx = ema_plain b (data (st !!! (n0 + 2)%nat) idx) (g' / h')%R.
Proof.
  intros Hc n0. unfold distance_to_optim.
  rewrite !bind_theano_shared, !bind_setitem. cbn [shared_values heap].
  erewrite bind_getitem_hit.
  2:{ rewrite !deref_alter_heap by (rewrite ?length_alter; exact Hc).
      rewrite odict_get_set_other
        by (cbn [sv_id]; rewrite !length_app; cbn [length]; lia).
      apply odict_get_set_same. }
  erewrite bind_getitem_hit.
  2:{ rewrite !deref_alter_heap by (rewrite ?length_alter; exact Hc).
      apply odict_get_set_same. }
  rewrite bind_setitem. cbn [shared_values heap].
  unfold dict_getitem.
  rewrite !deref_alter_heap by (rewrite ?length_alter; exact Hc).
  rewrite odict_get_set_same.
  eexists _, _. split; [reflexivity |]. split; [| split].
  - cbn [shared_values]. rewrite <- !app_assoc. reflexivity.
  - rewrite !deref_alter_heap by (rewrite ?length_alter; exact Hc).
    rewrite odict_get_set.
    match goal with
    | |- (if key_eqb ?a ?b then _ else _) = _ =>
        assert (E : key_eqb a b = true)
          by (apply key_eqb_eq; cbn [sv_id]; rewrite !length_app; cbn [length];
              unfold n0; lia);
        rewrite E
    end.
    reflexivity.
  - intros st idx.
    rewrite !ema_plain_value, at_div, !ema_plain_value, at_sqrt.
    rewrite !grad_sq_norm_value, !at_read. cbn [sv_id].
    rewrite !length_app. cbn [length].
    replace (length (shared_values e) + 1 + 1) with (n0 + 2) by (unfold n0; lia).
    reflexivity.
Qed.

Lemma distance_to_optim_value_witness :
  exists d e',
    distance_to_optim [T.constant 0.5%R] (T.constant 0.9%R) 0 example_engine
    = (inr d, e') /\
    shared_values e'
    = shared_values example_engine ++ [scalar 1%R; scalar 1%R; scalar 1%R].
Proof.
  destruct (distance_to_optim_value [T.constant 0.5%R] (T.constant 0.9%R) 0
                                    example_engine)
    as [d [e' [Hrun [Hsv _]]]].
  - simpl. lia.
  - exists d, e'. split; [exact Hrun | exact Hsv].
Defined.

(** ** The gradient variance estimate is never negative *)

Lemma sum_abs_nonneg (x : texpr) (st : store) (idx : index) :
  (0 <= at_ (T.sum (T.abs_ x)) st idx)%R.
Proof.
  change (at_ (T.sum (T.abs_ x)) st idx)
    with (rsum (elements (shape (value x st))
                         (fun i => Rabs (data (value x st) i)))).
  apply rsum_elements_nonneg. intros i. apply Rabs_pos.
Qed.

Lemma gradient_variance_loop_nonneg (beta : texpr) (c : dref)
      (pgs : list (SharedVariable * texpr)) (norm : texpr) (e : engine) :
  c < length (heap e) ->
  (forall st idx, 0 <= at_ norm st idx)%R ->
  exists r e',
    for_fold (map (fun pg : SharedVariable * texpr => (OfShared (fst pg), snd pg)) pgs)
             norm
             (fun norm pg =>
                let p := fst pg in
                let g := snd pg in
                let! value := get_value p in
                let! mom1 := theano_shared (np_zeros_like value) in
                let! mom2 := theano_shared (np_zeros_like value) in
                let! _ := dict_setitem c (OfShared mom1) (ema beta mom1 g None None) in
                let! _ := dict_setitem c (OfShared mom2)
                                       (ema beta mom2 (T.sqr g) None None) in
                let! new_mom2 := dict_getitem c (OfShared mom2) in
                let! new_mom1 := dict_getitem c (OfShared mom1) in
                ret (norm + T.sum (T.abs_ (new_mom2 - T.sqr new_mom1)))%th) e
    = (inr r, e') /\
    length (shared_values e') = length (shared_values e) + 2 * length pgs /\
    (forall st idx, 0 <= at_ r st idx)%R.
Proof.
  revert norm e. induction pgs as [| [p g] pgs IH]; intros norm e Hc Hn.
  - exists norm, e. split; [reflexivity |]. split; [simpl; lia | exact Hn].
  - cbn [map]. rewrite for_fold_cons. cbv beta zeta. cbn [fst snd].
    unfold bind at 1.
    rewrite bind_get_value, !bind_theano_shared, !bind_setitem.
    cbn [shared_values heap].
    erewrite bind_getitem_hit.
    2:{ rewrite !deref_alter_heap by (rewrite ?length_alter; exact Hc).
        apply odict_get_set_same. }
    erewrite bind_getitem_hit.
    2:{ rewrite !deref_alter_heap by (rewrite ?length_alter; exact Hc).
        rewrite odict_get_set_other
          by (cbn [sv_id]; rewrite !length_app; cbn [length]; lia).
        apply odict_get_set_same. }
    unfold ret at 1.
    match goal with
    | |- exists r e', for_fold _ ?n _ ?e1 = _ /\ _ =>
        destruct (IH n e1) as [r [e' [Hrun [Hl Hr]]]]
    end.
    + cbn [heap]. rewrite !length_alter. exact Hc.
    + intros st idx.
      match goal with
      | |- (0 <= at_ (norm + ?s)%th st idx)%R =>
          change (at_ (norm + s)%th st idx) with (at_ norm st idx + at_ s st idx)%R
      end.
      pose proof (Hn st idx). 
      match goal with
      | |- (0 <= _ + at_ (T.sum (T.abs_ ?x)) st idx)%R =>
          pose proof (sum_abs_nonneg x st idx)
      end.
      lra.
    + exists r, e'. split; [exact Hrun |]. split; [| exact Hr].
      rewrite Hl. cbn [shared_values]. rewrite !length_app. simpl. lia.
Qed.

(** X24.  [gradient_variance] allocates two moments for each pair of a
    parameter and a gradient (the shorter of the two lists decides), and
    the estimate it returns is never negative, in any store. *)
Theorem gradient_variance_nonneg (grads : list texpr) (ps : list SharedVariable)
        (beta : texpr) (c : dref) (e : engine) :
  c < length (heap e) ->
  exists r e',
    gradient_variance grads (map OfShared ps) beta c e = (inr r, e') /\
    length (shared_values e')
    = length (shared_values e) + 2 * Nat.min (length ps) (length grads) /\
    forall st idx, (0 <= at_ r st idx)%R.
Proof.
  intros Hc. unfold gradient_variance. rewrite zip_map_shared.
  destruct (gradient_variance_loop_nonneg beta c (zip ps grads) (T.constant 0%R) e Hc)
    as [r [e' [Hrun [Hl Hr]]]].
  { intros st idx. unfold at_. simpl. lra. }
  exists r, e'. split; [exact Hrun |]. split; [| exact Hr].
  rewrite Hl, length_zip. reflexivity.
Qed.

Lemma gradient_variance_nonneg_witness :
  exists r e',
    gradient_variance [T.constant 0.5%R] (map OfShared [Shared 0 0])
                      (T.constant 0.9%R) 0 example_engine = (inr r, e') /\
    length (shared_values e') = 3.
Proof.
  destruct (gradient_variance_nonneg [T.constant 0.5%R] [Shared 0 0]
              (T.constant 0.9%R) 0 example_engine)
    as [r [e' [Hrun [Hl _]]]].
  - simpl. lia.
  - exists r, e'. split; [exact Hrun | exact Hl].
Defined.

(** ** The curvature estimates stay ordered *)

Lemma fold_min_le_max (l : list R) (a : R) :
  (fold_left Rmin l a <= a <= fold_left Rmax l a)%R.
Proof.
  revert a. induction l as [| b l IH]; intros a; simpl; [lra |].
  destruct (IH (Rmin a b)) as [H1 _]. destruct (IH (Rmax a b)) as [_ H2].
  pose proof (Rmin_l a b). pose proof (Rmax_l a b). lra.
Qed.

Lemma reduce_min_le_max (x : texpr) (st : store) (idx : index) :
  (at_ (T.min x) st idx <= at_ (T.max x) st idx)%R.
Proof.
  unfold at_, T.min, T.max, T.reduce_all. simpl.
  destruct (elements (shape (value x st)) (data (value x st))) as [| a l]; [lra |].
  destruct (fold_min_le_max l a). lra.
Qed.

Lemma ema_plain_mono (b s1 s2 x1 x2 : R) :
  (0 <= b <= 1)%R -> (s1 <= s2)%R -> (x1 <= x2)%R ->
  (ema_plain b s1 x1 <= ema_plain b s2 x2)%R.
Proof. intros Hb Hs Hx. unfold ema_plain. nra. Qed.

(** X25.  [curvature_range] allocates the window of the last values and the
    two estimates [h_max] and [h_min], all zeros.  The two expressions it
    returns are the values the next call of the compiled function gives to
    [h_max] and [h_min], and with [0 <= beta <= 1] a call keeps the two
    ordered: [h_min <= h_max] before the call gives [h_min <= h_max]
    after it.  Stated for a window of positive width and a step
    [t >= 0]. *)
Theorem curvature_range_keeps_order (grads : list texpr) (beta t : texpr)
        (c : dref) (window_width : nat) (e : engine) (st : store) :
  c < length (heap e) -> 0 < window_width ->
  let n0 := length (shared_values e) in
  n0 + 2 < length st ->
  shape (st !!! n0) = [window_width] ->
  (0 <= at_ t st [])%R ->
  (forall idx, 0 <= at_ beta st idx <= 1)%R ->
  (forall idx, data (st !!! (n0 + 2)%nat) idx <= data (st !!! (n0 + 1)%nat) idx)%R ->
  exists h_max h_min e',
    curvature_range grads beta t c window_width e = (inr (h_max, h_min), e') /\
    shared_values e'
    = shared_values e ++ [T.zeros [window_width]; scalar 0%R; scalar 0%R] /\
    forall idx,
      data (apply_updates (deref e' c) st !!! (n0 + 1)) idx = at_ h_max st idx /\
      data (apply_updates (deref e' c) st !!! (n0 + 2)) idx = at_ h_min st idx /\
      (at_ h_min st idx <= at_ h_max st idx)%R.
Proof.
  intros Hc Hw n0 Hst Hshape Ht Hbeta Hord. unfold curvature_range.
  rewrite bind_theano_shared, bind_setitem.
  erewrite bind_getitem_hit;
    [| rewrite deref_alter_heap by exact Hc; apply odict_get_set_same].
  erewrite bind_getitem_hit;
    [| rewrite deref_alter_heap by exact Hc; apply odict_get_set_same].
  rewrite !bind_theano_shared, !bind_setitem. cbn [shared_values heap].
  erewrite bind_getitem_hit.
  2:{ rewrite !deref_alter_heap by (rewrite ?length_alter; exact Hc).
      rewrite odict_get_set_other
        by (cbn [sv_id]; rewrite !length_app; cbn [length]; lia).
      apply odict_get_set_same. }
  erewrite bind_getitem_hit.
  2:{ rewrite !deref_alter_heap by (rewrite ?length_alter; exact Hc).
      apply odict_get_set_same. }
  unfold ret.
  match goal with
  | |- exists h_max h_min e', (inr (?a, ?b), ?e1) = _ /\ _ =>
      set (hmax := a); set (hmin := b); set (e' := e1)
  end.
  exists hmax, hmin, e'. split; [reflexivity |].
  assert (Hid1 : length (shared_values e ++ [T.zeros [window_width]]) = n0 + 1).
  { rewrite length_app. reflexivity. }
  assert (Hid2 : length ((shared_values e ++ [T.zeros [window_width]]) ++ [scalar 0%R])
                 = n0 + 2).
  { rewrite !length_app. simpl. unfold n0. lia. }
  assert (Hgmax : odict_get (deref e' c) (Shared (n0 + 1) 0) = Some hmax).
  { unfold e'. rewrite !deref_alter_heap by (rewrite ?length_alter; exact Hc).
    rewrite odict_get_set_other by (cbn [sv_id]; rewrite ?Hid2, ?Hid1; lia).
    rewrite odict_get_set.
    match goal with
    | |- (if key_eqb ?a ?b then _ else _) = _ =>
        assert (E : key_eqb a b = true)
          by (apply key_eqb_eq; cbn [sv_id]; rewrite ?Hid2, ?Hid1; reflexivity);
        rewrite E
    end.
    reflexivity. }
  assert (Hgmin : odict_get (deref e' c) (Shared (n0 + 2) 0) = Some hmin).
  { unfold e'. rewrite !deref_alter_heap by (rewrite ?length_alter; exact Hc).
    rewrite odict_get_set.
    match goal with
    | |- (if key_eqb ?a ?b then _ else _) = _ =>
        assert (E : key_eqb a b = true)
          by (apply key_eqb_eq; cbn [sv_id]; rewrite ?Hid2, ?Hid1; reflexivity);
        rewrite E
    end.
    reflexivity. }
  split.
  - unfold e'. cbn [shared_values]. rewrite <- !app_assoc. reflexivity.
  - intros idx.
    change (n0 + 1) with (sv_id (Shared (n0 + 1) 0)) at 1.
    change (n0 + 2) with (sv_id (Shared (n0 + 2) 0)) at 1.
    rewrite !apply_updates_lookup by (cbn [sv_id]; lia).
    rewrite Hgmax, Hgmin.
    split; [reflexivity |]. split; [reflexivity |].
    unfold hmax, hmin. rewrite !ema_plain_value.
    apply ema_plain_mono.
    + apply Hbeta.
    + rewrite !at_read. cbn [sv_id]. rewrite ?Hid2, ?Hid1. apply Hord.
    + apply reduce_min_le_max.
Qed.

Lemma curvature_range_keeps_order_witness :
  exists h_max h_min e',
    curvature_range [T.constant 0.5%R] (T.constant 0.9%R) (T.constant 0%R) 0 2
                    example_engine = (inr (h_max, h_min), e') /\
    shared_values e'
    = shared_values example_engine ++ [T.zeros [2]; scalar 0%R; scalar 0%R].
Proof.
  destruct (curvature_range_keeps_order [T.constant 0.5%R] (T.constant 0.9%R)
              (T.constant 0%R) 0 2 example_engine
              [scalar 1%R; T.zeros [2]; scalar 0%R; scalar 0%R])
    as [h_max [h_min [e' [Hrun [Hsv _]]]]].
  - simpl. lia.
  - lia.
  - simpl. lia.
  - reflexivity.
  - unfold at_. simpl. lra.
  - intros idx. unfold at_. simpl. lra.
  - intros idx. simpl. lra.
  - exists h_max, h_min, e'. split; [exact Hrun | exact Hsv].
Defined.

(** ** Adam: a parameter without a name *)

(** A loop whose body either finishes or raises [X] raises [X] as soon
    as the list has an element on which the body raises. *)
Lemma for_each_raises {A} (body : A -> M unit) (X : exn) (xs : list A) (x : A) :
  In x xs ->
  (forall y e, In y xs ->
     (exists e', body y e = (inr tt, e')) \/ (exists e', body y e = (inl X, e'))) ->
  (forall e, exists e', body x e = (inl X, e')) ->
  forall e, exists e', for_each xs body e = (inl X, e').
Proof.
  induction xs as [| a xs IH]; intros Hin Hall Hx e; [contradiction |].
  simpl. unfold bind.
  destruct (Hall a e (or_introl eq_refl)) as [[e1 H] | [e1 H]].
  - rewrite H. destruct Hin as [-> | Hin].
    + destruct (Hx e) as [e2 H2]. rewrite H in H2. discriminate H2.
    + apply IH; [exact Hin | | exact Hx].
      intros y e0 Hy. apply Hall. right. exact Hy.
  - rewrite H. exists e1. reflexivity.
Qed.

Section AdamNames.

Variable differentiate : texpr -> variable -> texpr.
Variable name_of : variable -> option String.string.

(** X26.  [adam] raises [TypeError] when one of its parameters has no
    name: the names of the two moments are built by adding the name of
    the parameter to a prefix.  Stated for shared parameters and, when
    gradients are given, as many gradients as parameters. *)
Theorem adam_unnamed_parameter (lg : loss_or_grads) (ps : list SharedVariable)
        (learning_rate : pyval) (beta1 beta2 epsilon : texpr) (e : engine)
        (p : SharedVariable) :
  (forall gs, lg = Grads gs -> length gs = length ps) ->
  In p ps -> name_of (OfShared p) = None ->
  exists e',
    adam differentiate name_of lg (map OfShared ps) learning_rate
         (beta1, beta2, epsilon) default_decay_period default_decay_factor e
    = (inl TypeError, e').
Proof.
  intros Hlen Hin Hname.
  assert (Hg : exists g, In (p, g) (zip ps (resolved_grads differentiate lg ps))).
  { apply list_elem_of_In in Hin. apply list_elem_of_lookup in Hin as [i Hi].
    destruct (lookup_lt_is_Some_2 (resolved_grads differentiate lg ps) i) as [g Hgi].
    { rewrite (resolved_grads_length differentiate lg ps Hlen).
      apply lookup_lt_is_Some. eauto. }
    exists g. apply list_elem_of_In. apply list_elem_of_lookup. exists i.
    apply lookup_zip_Some. split; assumption. }
  destruct Hg as [g Hg].
  unfold adam. rewrite lr_decay_default.
  unfold adam_rule. unfold bind at 1.
  rewrite get_or_compute_grads_shared by exact Hlen.
  unfold bind at 1. unfold theano_shared at 1. simpl.
  unfold bind at 1. unfold OrderedDict at 1. simpl.
  unfold bind at 1.
  rewrite zip_map_shared.
  match goal with
  | |- context [for_each ?l ?b ?e0] =>
      destruct (for_each_raises b TypeError l (OfShared p, g)) with (e := e0)
        as [e' He']
  end.
  - apply (in_map (fun pg : SharedVariable * texpr => (OfShared (fst pg), snd pg))
                  _ (p, g)). exact Hg.
  - intros y e0 Hy. apply in_map_iff in Hy as [[q h] [<- _]]. simpl fst. simpl snd.
    unfold bind at 1. unfold get_value at 1. simpl.
    unfold bind at 1.
    destruct (name_of (OfShared q)) as [nm |].
    + left. eexists. reflexivity.
    + right. eexists. reflexivity.
  - intros e0. simpl fst. simpl snd.
    unfold bind at 1. unfold get_value at 1. simpl.
    unfold bind at 1. rewrite Hname. eexists. reflexivity.
  - rewrite He'. exists e'. reflexivity.
Qed.

End AdamNames.

Lemma adam_unnamed_parameter_witness :
  exists e',
    adam (fun l _ => l) (fun _ => None)
         (Grads [T.constant 0.5%R]) (map OfShared [Shared 0 0])
         (PyFloat 0.001%R) (T.constant 0.9%R, T.constant 0.999%R, T.constant 1e-8%R)
         default_decay_period default_decay_factor example_engine
    = (inl TypeError, e').
Proof.
  apply (adam_unnamed_parameter (fun l _ => l) (fun _ => None)
           (Grads [T.constant 0.5%R]) [Shared 0 0] (PyFloat 0.001%R)
           (T.constant 0.9%R) (T.constant 0.999%R) (T.constant 1e-8%R)
           example_engine (Shared 0 0)).
  - intros gs [= <-]. reflexivity.
  - left. reflexivity.
  - reflexivity.
Defined.
